(** * backfill-contract-events.js: a three-stage Transform pipeline

    A shallow embedding of the script: the JavaScript primitives it calls,
    the part of node:stream its stage code can observe, the three stages
    (account-number parser, account-number buffer, back-fill printer), the
    pipeline that chains them and the command-line entry point.

    Definitions come first; the facts proved about them follow. *)

From Stdlib Require Import List String Ascii ZArith Lia Bool Arith DecimalString.
Import ListNotations.
Open Scope string_scope.

(** ** JavaScript primitives *)

Module JS.

(** The separator of [str.split("\n")]. *)
Definition LF : ascii := "010"%char.

(** [str.split(sep)] for a one-character separator: the pieces between
    separators, in order; never the empty array. *)
Fixpoint split (sep : ascii) (str : string) : list string :=
  match str with
  | EmptyString => [EmptyString]
  | String c str' =>
      if Ascii.eqb c sep then EmptyString :: split sep str'
      else match split sep str' with
           | piece :: pieces => String c piece :: pieces
           | [] => [String c EmptyString]
           end
  end.

(** A relative index of [Array.prototype.slice]: negative counts from the
    end, and the result is clamped to [0, len]. *)
Definition relative (len i : Z) : Z :=
  if (i <? 0)%Z then Z.max (len + i) 0 else Z.min i len.

(** [arr.slice(start, stop)]; [stop = None] is the one-argument form. *)
Definition slice {A : Type} (arr : list A) (start : Z) (stop : option Z) : list A :=
  let len := Z.of_nat (List.length arr) in
  let k := relative len start in
  let final := match stop with Some e => relative len e | None => len end in
  firstn (Z.to_nat (final - k)) (skipn (Z.to_nat k) arr).

(** [arr.join(sep)]. *)
Definition join (sep : string) (arr : list string) : string :=
  String.concat sep arr.

(** A number inside a template literal: its decimal digits. *)
Definition template_number (n : nat) : string :=
  NilEmpty.string_of_uint (Nat.to_uint n).

End JS.

(** ** What a stage observes of node:stream

    A stage is a Transform: node calls [transform] with the next written
    chunk once the callback of the previous call has run, calls [flush] once
    after the last of these callbacks, and calls [_read] when the consumer
    of the readable side asks for data; when that is, is for node to
    decide. [this.push] always stores its argument on the readable side;
    its boolean result says whether the producer may go on. *)

Module Stream.

(** Where a stage is between two calls from node. [AwaitingReadiness k]:
    a listener [k] is registered with [once('ready', k)] and the callback
    of the current call has not run. [Busy]: the callback has not run and
    no listener is registered. *)
Inductive Phase (K : Type) : Type :=
| Accepting
| AwaitingReadiness (listener : K)
| Busy
| Closed
| Failed (error : string).

Arguments Accepting {K}.
Arguments AwaitingReadiness {K} listener.
Arguments Busy {K}.
Arguments Closed {K}.
Arguments Failed {K} error.

(** The answers of [this.push]: [more k] is the result of the [k]-th call
    (from 0) that pushes data on a given stage. *)
Definition Oracle : Type := nat -> bool.

(** The calls node makes on a stage. *)
Inductive Event (X : Type) : Type :=
| CallTransform (chunk : X)
| CallRead
| CallFlush.

Arguments CallTransform {X} chunk.
Arguments CallRead {X}.
Arguments CallFlush {X}.

(** The readable side: every unit pushed so far, oldest first; whether
    [push(null)] was called; and whether some push was answered [false]
    with no ['ready'] delivered to a listener since. *)
Record Readable (Y : Type) : Type := mkReadable {
  pushed : list Y;
  ended : bool;
  unacknowledged : bool
}.

Arguments mkReadable {Y} pushed ended unacknowledged.
Arguments pushed {Y} r.
Arguments ended {Y} r.
Arguments unacknowledged {Y} r.

Definition empty {Y : Type} : Readable Y := mkReadable [] false false.

(** [more = this.push(unit)]. *)
Definition push {Y : Type} (more : Oracle) (r : Readable Y) (unit : Y) : bool * Readable Y :=
  let answer := more (List.length (pushed r)) in
  (answer, mkReadable (pushed r ++ [unit]) (ended r) (unacknowledged r || negb answer)).

(** [this.push(null)]. *)
Definition push_null {Y : Type} (r : Readable Y) : Readable Y :=
  mkReadable (pushed r) true (unacknowledged r).

(** A ['ready'] event reached a listener. *)
Definition acknowledge {Y : Type} (r : Readable Y) : Readable Y :=
  mkReadable (pushed r) (ended r) false.

(** The chunks written by a sequence of calls. *)
Fixpoint writes {X : Type} (evs : list (Event X)) : list X :=
  match evs with
  | [] => []
  | CallTransform chunk :: evs' => chunk :: writes evs'
  | _ :: evs' => writes evs'
  end.

(** Running a stage over a sequence of calls; [None] when one of them is a
    call node does not make in that phase, or when a step has no result. *)
Fixpoint run {X S : Type} (step : S -> Event X -> option S) (s : S) (evs : list (Event X)) : option S :=
  match evs with
  | [] => Some s
  | ev :: evs' =>
      match step s ev with
      | Some s' => run step s' evs'
      | None => None
      end
  end.

End Stream.

Import Stream.

(** ** createAccountNumberParserStream *)

Module Parser.

(** [toLines :: String -> [ [String], String ]]. *)
Definition toLines (str : string) : list string * string :=
  let lines := JS.split JS.LF str in
  (JS.slice lines 0 (Some (-1)%Z),
   JS.join "" (JS.slice lines (Z.of_nat (List.length lines) - 1) None)).

(** [rest] is the closure variable; the listener of this stage is the
    callback itself, so it carries no data. The chunk is the text of
    [chunk.toString()]: the input stream is opened with the 'utf8'
    encoding, so every chunk it writes is a whole number of characters and
    decoding it gives back the text that was read. *)
Record State : Type := mkState {
  rest : string;
  phase : Phase unit;
  out : Readable (list string)
}.

Definition init : State := mkState "" Accepting empty.

Definition transform (more : Oracle) (s : State) (chunk : string) : State :=
  let (lines, rem) := toLines (rest s ++ chunk) in
  let (answer, out') := push more (out s) lines in
  mkState rem (if answer then Accepting else AwaitingReadiness tt) out'.

Definition flush (more : Oracle) (s : State) : State :=
  if (0 <? String.length (rest s))%nat then
    let (lines, rem) := toLines (rest s) in
    if negb (rem =? "") then mkState (rest s) (Failed "Left over data") (out s)
    else
      let (_, out') := push more (out s) lines in
      mkState (rest s) Closed (push_null out')
  else mkState (rest s) Closed (push_null (out s)).

(** [_read]: the ['ready'] event runs the listener when there is one. *)
Definition ready (s : State) : State :=
  match phase s with
  | AwaitingReadiness _ => mkState (rest s) Accepting (acknowledge (out s))
  | _ => s
  end.

Definition step (more : Oracle) (s : State) (ev : Event string) : option State :=
  match ev with
  | CallTransform chunk =>
      match phase s with
      | Accepting => Some (transform more s chunk)
      | _ => None
      end
  | CallRead => Some (ready s)
  | CallFlush =>
      match phase s with
      | Accepting => Some (flush more s)
      | _ => None
      end
  end.

(** The records pushed so far, group after group. *)
Definition records (s : State) : list string := List.concat (pushed (out s)).

End Parser.

(** ** createAccountNumberBufferStream *)

Module Buffer.

(** [numbers] is the closure variable of the stage. The listener keeps the
    parameter [numbers] of the suspended [pushAccountNumbersInBatches]
    call: what is still to be sliced. *)
Record State : Type := mkState {
  numbers : list string;
  phase : Phase (list string);
  out : Readable (list string)
}.

Definition init : State := mkState [] Accepting empty.

(** The [while] loop of [pushAccountNumbersInBatches], one iteration per unit
    of [gas]; [None] when the gas runs out before the loop condition fails.
    The result is the final value of the locals [numbers] and [more]. *)
Fixpoint slicing (gas : nat) (batchSize : Z) (more : Oracle)
    (numbers : list string) (answer : bool) (out : Readable (list string))
    : option (list string * bool * Readable (list string)) :=
  match gas with
  | O => None
  | S gas' =>
      if (batchSize <=? Z.of_nat (List.length numbers))%Z && answer then
        let (answer', out') := push more out (JS.slice numbers 0 (Some batchSize)) in
        slicing gas' batchSize more (JS.slice numbers batchSize None) answer' out'
      else Some (numbers, answer, out)
  end.

(** [pushAccountNumbersInBatches.call(this, numbers, callback)], where
    [callback] is always [(rest) => { numbers = rest; callback() }]. *)
Definition pushAccountNumbersInBatches (gas : nat) (batchSize : Z) (more : Oracle)
    (s : State) (numbers0 : list string) : option State :=
  match slicing gas batchSize more numbers0 true (out s) with
  | None => None
  | Some (remaining, answer, out') =>
      if negb answer then Some (mkState (numbers s) (AwaitingReadiness remaining) out')
      else Some (mkState remaining Accepting out')
  end.

Definition transform (gas : nat) (batchSize : Z) (more : Oracle)
    (s : State) (chunk : list string) : option State :=
  let s' := mkState (numbers s ++ chunk) Busy (out s) in
  pushAccountNumbersInBatches gas batchSize more s' (numbers s').

Definition flush (more : Oracle) (s : State) : State :=
  if (0 <? List.length (numbers s))%nat then
    let (_, out') := push more (out s) (numbers s) in
    mkState (numbers s) Closed (push_null out')
  else mkState (numbers s) Closed (push_null (out s)).

Definition ready (gas : nat) (batchSize : Z) (more : Oracle) (s : State) : option State :=
  match phase s with
  | AwaitingReadiness remaining =>
      pushAccountNumbersInBatches gas batchSize more
        (mkState (numbers s) Busy (acknowledge (out s))) remaining
  | _ => Some s
  end.

Definition step (gas : nat) (batchSize : Z) (more : Oracle)
    (s : State) (ev : Event (list string)) : option State :=
  match ev with
  | CallTransform chunk =>
      match phase s with
      | Accepting => transform gas batchSize more s chunk
      | _ => None
      end
  | CallRead => ready gas batchSize more s
  | CallFlush =>
      match phase s with
      | Accepting => Some (flush more s)
      | _ => None
      end
  end.

End Buffer.

(** ** createBackfillStream *)

Module Backfill.

(** What the stage does to its collaborators, in the order it does it. *)
Inductive Effect : Type :=
| Logged (message : string)
| Pushed (line : string).

(** The listener keeps [statements.slice(i+1)]. *)
Record State : Type := mkState {
  phase : Phase (list string);
  out : Readable string;
  journal : list Effect
}.

Definition init : State := mkState Accepting empty [].

(** How the [for] loop of [printSql] is left: by its [return], with the
    argument of the resumed call, or by its condition, with the value of
    [more]. *)
Inductive Exit : Type :=
| Returned (remaining : list string)
| Completed (answer : bool).

(** The [for] loop from index [i], with [todo] iterations before
    [i < statements.length] fails. *)
Fixpoint printing (todo : nat) (statements : list string) (i : nat) (answer : bool)
    (more : Oracle) (out : Readable string) (journal : list Effect)
    : Exit * Readable string * list Effect :=
  match todo with
  | O => (Completed answer, out, journal)
  | S todo' =>
      let line := nth i statements "undefined" in
      let text := line ++ String JS.LF "" in
      let (answer', out') := push more out text in
      let journal' := (journal ++ [Pushed text])%list in
      if negb answer' then
        (Returned (JS.slice statements (Z.of_nat i + 1) None), out', journal')
      else printing todo' statements (S i) answer' more out' journal'
  end.

(** [printSql.call(this, statements, callback)]. *)
Definition printSql (more : Oracle) (s : State) (statements : list string) : State :=
  match printing (List.length statements) statements 0 true more (out s) (journal s) with
  | (Returned remaining, out', journal') =>
      mkState (AwaitingReadiness remaining) out' journal'
  | (Completed answer, out', journal') =>
      mkState (if answer then Accepting else Busy) out' journal'
  end.

Definition progress_message (count : nat) : string :=
  "Back-filling " ++ JS.template_number count ++ " account numbers".

Definition transform (more : Oracle) (s : State) (numbers : list string) : State :=
  let s' := mkState Busy (out s)
              (journal s ++ [Logged (progress_message (List.length numbers))]) in
  printSql more s' numbers.

Definition flush (s : State) : State :=
  mkState Closed (push_null (out s)) (journal s).

Definition ready (more : Oracle) (s : State) : State :=
  match phase s with
  | AwaitingReadiness remaining =>
      printSql more (mkState Busy (acknowledge (out s)) (journal s)) remaining
  | _ => s
  end.

Definition step (more : Oracle) (s : State) (ev : Event (list string)) : option State :=
  match ev with
  | CallTransform numbers =>
      match phase s with
      | Accepting => Some (transform more s numbers)
      | _ => None
      end
  | CallRead => Some (ready more s)
  | CallFlush =>
      match phase s with
      | Accepting => Some (flush s)
      | _ => None
      end
  end.

End Backfill.

(** ** backfillEvents: the three stages chained by stream.pipeline *)

Module Pipeline.

Inductive Stage : Type := ParserStage | BufferStage | BackfillStage.

(** What happens next in the event loop: node makes the next call on the
    writable side of a stage ([transform] with the oldest unit its upstream
    has pushed and it has not yet received, or [flush] when the upstream has
    ended and nothing is left), or calls [_read] on a stage. *)
Inductive Tick : Type :=
| Advance (stage : Stage)
| Pull (stage : Stage).

(** [const batchSize = parseInt(process.env.BATCH_SIZE, 10) || 10]; the
    argument is the result of [parseInt], [None] for [NaN]. *)
Definition batch_size (parsed : option Z) : Z :=
  match parsed with
  | Some n => if (n =? 0)%Z then 10%Z else n
  | None => 10%Z
  end.

Record Config : Type := mkConfig {
  batchSize : Z;
  gas : nat;
  parser_more : Oracle;
  buffer_more : Oracle;
  backfill_more : Oracle
}.

(** [new ReadySignalingTransform({ ..., writableHighWaterMark: batchSize })]
    in [createAccountNumberParserStream]: the constructor of a stream
    throws a [TypeError] with the code [ERR_INVALID_ARG_VALUE] when a
    high-water mark is negative. The parser stage is the first argument of
    [pipeline(...)] that is constructed, so nothing else has been built
    when it throws. The other two stages are built with constant
    high-water marks. [batchSize] is a whole number here: what [parseInt]
    gives for a numeral too long to be a finite number is not modelled. *)
Definition construct (batchSize : Z) : option string :=
  if (batchSize <? 0)%Z then Some "ERR_INVALID_ARG_VALUE" else None.

(** [thrown]: the error thrown while [backfillEvents] was building the
    stages, if any; then [pipeline] was never called and the stages below
    do not exist. [source]: the chunks the input stream has still to write.
    [received1] and [received2]: how many units of the parser and of the
    buffer stage the next stage has been called with. *)
Record State : Type := mkState {
  thrown : option string;
  source : list string;
  parser : Parser.State;
  received1 : nat;
  buffer : Buffer.State;
  received2 : nat;
  backfill : Backfill.State
}.

Definition start (c : Config) (chunks : list string) : State :=
  mkState (construct (batchSize c)) chunks Parser.init 0 Buffer.init 0 Backfill.init.

(** The error [await pipeline(...)] fails with, if any: the one thrown
    while the stages were built, or the one a stage threw, which destroys
    the pipeline. Of the stages only the parser throws. *)
Definition failure (s : State) : option string :=
  match thrown s with
  | Some error => Some error
  | None =>
      match Parser.phase (parser s) with
      | Failed error => Some error
      | _ => None
      end
  end.

Definition advance (c : Config) (s : State) (stage : Stage) : option State :=
  match stage with
  | ParserStage =>
      match Parser.phase (parser s) with
      | Accepting =>
          match source s with
          | chunk :: source' =>
              Some (mkState (thrown s) source' (Parser.transform (parser_more c) (parser s) chunk)
                      (received1 s) (buffer s) (received2 s) (backfill s))
          | [] =>
              Some (mkState (thrown s) [] (Parser.flush (parser_more c) (parser s))
                      (received1 s) (buffer s) (received2 s) (backfill s))
          end
      | _ => Some s
      end
  | BufferStage =>
      match Buffer.phase (buffer s) with
      | Accepting =>
          match nth_error (pushed (Parser.out (parser s))) (received1 s) with
          | Some lines =>
              match Buffer.transform (gas c) (batchSize c) (buffer_more c) (buffer s) lines with
              | Some buffer' =>
                  Some (mkState (thrown s) (source s) (parser s) (S (received1 s)) buffer'
                          (received2 s) (backfill s))
              | None => None
              end
          | None =>
              if ended (Parser.out (parser s)) then
                Some (mkState (thrown s) (source s) (parser s) (received1 s)
                        (Buffer.flush (buffer_more c) (buffer s)) (received2 s) (backfill s))
              else Some s
          end
      | _ => Some s
      end
  | BackfillStage =>
      match Backfill.phase (backfill s) with
      | Accepting =>
          match nth_error (pushed (Buffer.out (buffer s))) (received2 s) with
          | Some numbers =>
              Some (mkState (thrown s) (source s) (parser s) (received1 s) (buffer s)
                      (S (received2 s)) (Backfill.transform (backfill_more c) (backfill s) numbers))
          | None =>
              if ended (Buffer.out (buffer s)) then
                Some (mkState (thrown s) (source s) (parser s) (received1 s) (buffer s)
                        (received2 s) (Backfill.flush (backfill s)))
              else Some s
          end
      | _ => Some s
      end
  end.

Definition pull (c : Config) (s : State) (stage : Stage) : option State :=
  match stage with
  | ParserStage =>
      Some (mkState (thrown s) (source s) (Parser.ready (parser s))
              (received1 s) (buffer s) (received2 s) (backfill s))
  | BufferStage =>
      match Buffer.ready (gas c) (batchSize c) (buffer_more c) (buffer s) with
      | Some buffer' =>
          Some (mkState (thrown s) (source s) (parser s) (received1 s) buffer' (received2 s) (backfill s))
      | None => None
      end
  | BackfillStage =>
      Some (mkState (thrown s) (source s) (parser s) (received1 s) (buffer s) (received2 s)
              (Backfill.ready (backfill_more c) (backfill s)))
  end.

(** One turn of the event loop. When building the stages threw there is
    no stage to call, and once a stage has failed the pipeline has
    destroyed every stream and nothing is called any more. [None]: the gas
    of the slicing loop ran out. *)
Definition step (c : Config) (s : State) (t : Tick) : option State :=
  match failure s with
  | Some _ => Some s
  | None =>
      match t with
      | Advance stage => advance c s stage
      | Pull stage => pull c s stage
      end
  end.

Fixpoint run (c : Config) (s : State) (ts : list Tick) : option State :=
  match ts with
  | [] => Some s
  | t :: ts' =>
      match step c s t with
      | Some s' => run c s' ts'
      | None => None
      end
  end.

(** How [await pipeline(...)] stands when the event loop has nothing left
    to do. *)
Inductive Outcome : Type :=
| Resolved
| Rejected (error : string)
| Pending.

Definition outcome (s : State) : Outcome :=
  match failure s with
  | Some error => Rejected error
  | None =>
      match Parser.phase (parser s), Buffer.phase (buffer s), Backfill.phase (backfill s) with
      | Closed, Closed, Closed => Resolved
      | _, _, _ => Pending
      end
  end.

(** The lines the last stage has handed to the output stream. *)
Definition output_lines (s : State) : list string :=
  pushed (Backfill.out (backfill s)).

(** The progress messages given to the logger. *)
Definition progress_log (s : State) : list string :=
  flat_map (fun e => match e with Backfill.Logged m => [m] | Backfill.Pushed _ => [] end)
    (Backfill.journal (backfill s)).

End Pipeline.

(** ** node's side of a stage

    [Pipeline] lets the event loop make any call at any time. node's
    streams are not that free, in two ways that matter to a stage that
    waits for ['ready'].

    [Readable.read] calls [_read] only while no call of [_read] is
    outstanding: it sets the flag [reading] of the readable side before the
    call, and [push] is what clears it. Once [_read] has been called it is
    not called again until the stage pushes.

    [Transform._write] wraps the callback it hands to [transform]. When the
    stage calls back, the write is completed at once if the read buffer is
    below its high-water mark, or has the length it had when the write
    began, or if the writable side has been ended; otherwise node keeps the
    callback, and it is [Transform._read], the [super._read(size)] of
    [ReadySignalingTransform._read], that completes the write. [push]
    answers [false] when the read buffer has reached its high-water mark,
    and [Readable.read] calls [_read] before it takes a chunk out of the
    buffer. So when a listener of ['ready'] calls back without having
    pushed, the buffer is still as full as the declined push left it, and
    the callback is kept; [super._read(size)] has run before the listener
    and does not see it. When [transform], or a listener that has pushed,
    calls back, the last push was accepted, or there was none, and the
    callback is not kept. The writable side of a stage is ended only after
    the stream before it has ended; when that stream has ended the model
    takes the callback as not kept. *)

Module Node.

(** [reading]: [_read] has been called and the stage has not pushed
    since. [kept]: the stage has called back and node keeps the callback:
    the write is not completed, so neither [transform] nor [flush] is
    called. *)
Record Side : Type := mkSide {
  reading : bool;
  kept : bool
}.

Definition idle : Side := mkSide false false.

Record State : Type := mkState {
  pipeline : Pipeline.State;
  parser_side : Side;
  buffer_side : Side;
  backfill_side : Side
}.

Definition start (c : Pipeline.Config) (chunks : list string) : State :=
  mkState (Pipeline.start c chunks) idle idle idle.

Definition side (s : State) (stage : Pipeline.Stage) : Side :=
  match stage with
  | Pipeline.ParserStage => parser_side s
  | Pipeline.BufferStage => buffer_side s
  | Pipeline.BackfillStage => backfill_side s
  end.

(** The state after a call on [stage]. *)
Definition update (s : State) (stage : Pipeline.Stage) (p : Pipeline.State) (sd : Side)
    : State :=
  match stage with
  | Pipeline.ParserStage => mkState p sd (buffer_side s) (backfill_side s)
  | Pipeline.BufferStage => mkState p (parser_side s) sd (backfill_side s)
  | Pipeline.BackfillStage => mkState p (parser_side s) (buffer_side s) sd
  end.

(** How many units a stage has pushed. *)
Definition pushes (p : Pipeline.State) (stage : Pipeline.Stage) : nat :=
  match stage with
  | Pipeline.ParserStage => List.length (pushed (Parser.out (Pipeline.parser p)))
  | Pipeline.BufferStage => List.length (pushed (Buffer.out (Pipeline.buffer p)))
  | Pipeline.BackfillStage => List.length (pushed (Backfill.out (Pipeline.backfill p)))
  end.

(** Whether a listener of the stage is registered for ['ready']. *)
Definition waiting (p : Pipeline.State) (stage : Pipeline.Stage) : bool :=
  match stage with
  | Pipeline.ParserStage =>
      match Parser.phase (Pipeline.parser p) with AwaitingReadiness _ => true | _ => false end
  | Pipeline.BufferStage =>
      match Buffer.phase (Pipeline.buffer p) with AwaitingReadiness _ => true | _ => false end
  | Pipeline.BackfillStage =>
      match Backfill.phase (Pipeline.backfill p) with AwaitingReadiness _ => true | _ => false end
  end.

(** Whether the stream before the stage has ended: the input stream has
    written its last chunk, or the stage before has called [push(null)]. *)
Definition upstream_ended (p : Pipeline.State) (stage : Pipeline.Stage) : bool :=
  match stage with
  | Pipeline.ParserStage => match Pipeline.source p with [] => true | _ => false end
  | Pipeline.BufferStage => ended (Parser.out (Pipeline.parser p))
  | Pipeline.BackfillStage => ended (Buffer.out (Pipeline.buffer p))
  end.

(** One turn of the event loop, as node allows it. A call on the writable
    side is made only when no callback is kept. [_read] is called only when
    no call of it is outstanding; it first completes a kept write, then
    emits ['ready']. *)
Definition step (c : Pipeline.Config) (s : State) (t : Pipeline.Tick) : option State :=
  match Pipeline.failure (pipeline s) with
  | Some _ => Some s
  | None =>
      match t with
      | Pipeline.Advance stage =>
          if kept (side s stage) then Some s
          else
            match Pipeline.advance c (pipeline s) stage with
            | Some p' =>
                let silent := (pushes p' stage =? pushes (pipeline s) stage)%nat in
                Some (update s stage p' (mkSide (reading (side s stage) && silent) false))
            | None => None
            end
      | Pipeline.Pull stage =>
          if reading (side s stage) then Some s
          else
            match Pipeline.pull c (pipeline s) stage with
            | Some p' =>
                let silent := (pushes p' stage =? pushes (pipeline s) stage)%nat in
                let called_back := waiting (pipeline s) stage && negb (waiting p' stage) in
                Some (update s stage p'
                        (mkSide silent
                           (called_back && silent
                            && negb (upstream_ended (pipeline s) stage))))
            | None => None
            end
      end
  end.

Fixpoint run (c : Pipeline.Config) (s : State) (ts : list Pipeline.Tick) : option State :=
  match ts with
  | [] => Some s
  | t :: ts' =>
      match step c s t with
      | Some s' => run c s' ts'
      | None => None
      end
  end.

End Node.

(** ** The script's entry point *)

Module Cli.

Inductive Effect : Type :=
| ConsoleError (text : string)
| ProcessExit (code : Z)
| CreateReadStream (file : string)
| CreateWriteStream (file : string)
| NewTransform (stage : Pipeline.Stage)
| AwaitPipeline
| ConsoleErrorOf (error : string).

Definition argument (args : list string) (i : nat) : string :=
  nth i args "undefined".

(** [backfillEvents(input, out, logger)] up to the [await], for the value
    of the constant [batchSize]: the arguments of [pipeline(...)] are
    built in order, and building the parser stage throws when [batchSize]
    is negative, see [Pipeline.construct]. [inl]: the stages are built and
    the pipeline awaited; [inr]: the error thrown, before any stage was
    built. *)
Definition backfillEvents (batchSize : Z) : list Effect + string :=
  match Pipeline.construct batchSize with
  | Some error => inr error
  | None =>
      inl [NewTransform Pipeline.ParserStage; NewTransform Pipeline.BufferStage;
           NewTransform Pipeline.BackfillStage; AwaitPipeline]
  end.

(** [main(args).catch(console.error)] up to the [await]: an error thrown
    inside the async function rejects its promise, and [console.error] is
    given the error. *)
Definition main (batchSize : Z) (args : list string) : list Effect :=
  [CreateReadStream (argument args 0); CreateWriteStream (argument args 1);
   CreateWriteStream (argument args 2)] ++
  match backfillEvents batchSize with
  | inl effects => effects
  | inr error => [ConsoleErrorOf error]
  end.

(** The top level of the script, given the constant [batchSize] and
    [process.argv]: [process.exit] ends the process, so nothing after it
    runs. *)
Definition script (batchSize : Z) (argv : list string) : list Effect :=
  if (List.length argv <? 5)%nat then
    [ConsoleError ("Usage: " ++ argument argv 1 ++ " <in> <sql> <log>"); ProcessExit 1]
  else main batchSize (JS.slice argv 2 None).

(** The positional arguments: [process.argv] without the node executable
    and the script path. *)
Definition positional (argv : list string) : list string := JS.slice argv 2 None.

(** An effect that opens a file or constructs a stage. *)
Definition processing (e : Effect) : bool :=
  match e with
  | ConsoleError _ | ProcessExit _ | ConsoleErrorOf _ => false
  | _ => true
  end.

End Cli.

(** ** Vocabulary of the statements *)

Module Spec.

(** The text has no record separator. *)
Fixpoint separator_free (s : string) : bool :=
  match s with
  | EmptyString => true
  | String c s' => negb (Ascii.eqb c JS.LF) && separator_free s'
  end.

(** The last character of the text, if any. *)
Fixpoint last_char (s : string) : option ascii :=
  match s with
  | EmptyString => None
  | String c EmptyString => Some c
  | String _ s' => last_char s'
  end.

(** The text ends in the middle of a record: it is not empty and its last
    character is not the separator. *)
Definition unterminated (s : string) : bool :=
  match last_char s with
  | Some c => negb (Ascii.eqb c JS.LF)
  | None => false
  end.

(** The calls that write the given chunks one after the other, each
    followed by [reads] calls of [_read]. *)
Definition feed {X : Type} (reads : nat) (chunks : list X) : list (Event X) :=
  flat_map (fun chunk => CallTransform chunk :: repeat CallRead reads) chunks.

(** An output line of a record. *)
Definition line (record : string) : string := record ++ String JS.LF "".

(** The turns of the event loop that make the parser consume [n] chunks,
    with a [_read] after each, and then meet the end of its input. *)
Definition parser_ticks (n : nat) : list Pipeline.Tick :=
  List.concat (repeat [Pipeline.Advance Pipeline.ParserStage;
                       Pipeline.Pull Pipeline.ParserStage] n)
    ++ [Pipeline.Advance Pipeline.ParserStage].

(** The turns that make a stage receive [units] units, with [reads] calls
    of [_read] after each, and then meet the end of its input. *)
Definition stage_ticks (stage : Pipeline.Stage) (reads units : nat) : list Pipeline.Tick :=
  List.concat (repeat (Pipeline.Advance stage :: repeat (Pipeline.Pull stage) reads) units)
    ++ [Pipeline.Advance stage].

(** The effect of printing a record. *)
Definition pushed_line (record : string) : Backfill.Effect :=
  Backfill.Pushed (line record).

(** The effects of one batch that has been dealt with: the progress
    message with the number of records, then a line per record, in order. *)
Definition batch_journal (batch : list string) : list Backfill.Effect :=
  Backfill.Logged (Backfill.progress_message (List.length batch))
    :: map pushed_line batch.

End Spec.

(** ** Invariants of the stages *)

Module Inv.

#[local] Open Scope list_scope.

(** What holds of the parser after the chunks [w]: it has pushed the
    complete records of their text and keeps the fragment after the last
    separator; it is closed only with an empty fragment and fails only with
    a non-empty one; a declined push is outstanding exactly while it waits
    for ['ready']; its readable side is ended exactly when it is closed. *)
Definition parser (s : Parser.State) (w : list string) : Prop :=
  Parser.toLines (JS.join "" w) = (Parser.records s, Parser.rest s) /\
  (Parser.phase s = Closed -> Parser.rest s = "") /\
  (forall e, Parser.phase s = Failed e -> e = "Left over data" /\ Parser.rest s <> "") /\
  Parser.phase s <> Busy /\
  unacknowledged (Parser.out s) =
    match Parser.phase s with AwaitingReadiness _ => true | _ => false end /\
  ended (Parser.out s) =
    match Parser.phase s with Closed => true | _ => false end.

(** A batch of exactly [batchSize] numbers. *)
Definition full_batch (batchSize : Z) (batch : list string) : Prop :=
  List.length batch = Z.to_nat batchSize.

(** What holds of the buffer stage after the groups [w]: the batches pushed
    so far are full and, followed by what is still held, they are the
    numbers received, in order. While the stage accepts it holds less than
    a batch; while it waits a declined push is outstanding; once closed it
    has pushed what it held as a last batch, unless it held nothing. *)
Definition buffer (batchSize : Z) (s : Buffer.State) (w : list (list string)) : Prop :=
  match Buffer.phase s with
  | Accepting =>
      List.concat (pushed (Buffer.out s)) ++ Buffer.numbers s = List.concat w /\
      (List.length (Buffer.numbers s) < Z.to_nat batchSize)%nat /\
      Forall (full_batch batchSize) (pushed (Buffer.out s)) /\
      unacknowledged (Buffer.out s) = false /\
      ended (Buffer.out s) = false
  | AwaitingReadiness remaining =>
      List.concat (pushed (Buffer.out s)) ++ remaining = List.concat w /\
      Forall (full_batch batchSize) (pushed (Buffer.out s)) /\
      unacknowledged (Buffer.out s) = true /\
      ended (Buffer.out s) = false
  | Closed =>
      exists full residual,
        pushed (Buffer.out s) = full ++ match residual with [] => [] | _ => [residual] end /\
        List.concat full ++ residual = List.concat w /\
        Forall (full_batch batchSize) full /\
        (List.length residual < Z.to_nat batchSize)%nat /\
        ended (Buffer.out s) = true
  | Busy | Failed _ => False
  end.

(** The lines the listener of the back-fill stage has still to print. *)
Definition held (s : Backfill.State) : list string :=
  match Backfill.phase s with
  | AwaitingReadiness remaining => remaining
  | _ => []
  end.

(** What holds of the back-fill stage after the batches [w]: what it has
    pushed and logged, followed by the lines its listener holds, is the
    journal of all the batches, in order; a declined push is outstanding
    exactly while it waits; the readable side is ended exactly when it is
    closed. *)
Definition backfill (s : Backfill.State) (w : list (list string)) : Prop :=
  Backfill.phase s <> Busy /\
  (forall e, Backfill.phase s <> Failed e) /\
  pushed (Backfill.out s) ++ map Spec.line (held s) = map Spec.line (List.concat w) /\
  Backfill.journal s ++ map Spec.pushed_line (held s)
    = flat_map Spec.batch_journal w /\
  unacknowledged (Backfill.out s) =
    match Backfill.phase s with AwaitingReadiness _ => true | _ => false end /\
  ended (Backfill.out s) =
    match Backfill.phase s with Closed => true | _ => false end.

(** How a stage stands to the readable side [up] of the stage before it:
    it was written the first [received] units of [up], in order, and it is
    closed only if [up] is ended and all its units were received. *)
Definition link {Y : Type} (up : Readable Y) (received : nat) (written : list Y)
    (closed : Prop) : Prop :=
  written = firstn received (pushed up) /\
  (received <= List.length (pushed up))%nat /\
  (closed -> ended up = true /\ received = List.length (pushed up)).

(** What holds of the pipeline started on [chunks]: each stage is in a state
    it reaches on its own when it is written what it has received; the
    parser has received the chunks the source no longer holds. *)
Definition pipeline (c : Pipeline.Config) (chunks : list string) (st : Pipeline.State) : Prop :=
  (exists evs,
     run (Parser.step (Pipeline.parser_more c)) Parser.init evs = Some (Pipeline.parser st) /\
     writes evs ++ Pipeline.source st = chunks /\
     (Parser.phase (Pipeline.parser st) = Closed -> Pipeline.source st = [])) /\
  (exists evs,
     run (Buffer.step (Pipeline.gas c) (Pipeline.batchSize c) (Pipeline.buffer_more c))
       Buffer.init evs = Some (Pipeline.buffer st) /\
     link (Parser.out (Pipeline.parser st)) (Pipeline.received1 st) (writes evs)
       (Buffer.phase (Pipeline.buffer st) = Closed)) /\
  (exists evs,
     run (Backfill.step (Pipeline.backfill_more c)) Backfill.init evs
       = Some (Pipeline.backfill st) /\
     link (Buffer.out (Pipeline.buffer st)) (Pipeline.received2 st) (writes evs)
       (Backfill.phase (Pipeline.backfill st) = Closed)).

(** A stage that waits for ['ready'] has pushed since the last [_read],
    and its callback has not been called: node has no call of [_read]
    outstanding on it and keeps no callback of it. *)
Definition handshake (s : Node.State) : Prop :=
  forall stage, Node.waiting (Node.pipeline s) stage = true -> Node.side s stage = Node.idle.

(** The parser has had a push declined while the input stream has chunks
    left to write: it waits for ['ready'], or it has called back from its
    listener and node keeps the callback with [_read] outstanding. *)
Definition stalled_parser (s : Node.State) : Prop :=
  Pipeline.thrown (Node.pipeline s) = None /\
  Pipeline.source (Node.pipeline s) <> [] /\
  ((exists k, Parser.phase (Pipeline.parser (Node.pipeline s)) = AwaitingReadiness k) /\
   Node.parser_side s = Node.idle \/
   Parser.phase (Pipeline.parser (Node.pipeline s)) = Accepting /\
   Node.parser_side s = Node.mkSide true true).

End Inv.

(** ** main, createLogger and the catch of the top level *)

Module Main.

(** A whole number inside a template literal: a minus sign, if it is
    negative, and its decimal digits. *)
Definition template_integer (n : Z) : string :=
  NilEmpty.string_of_int (Z.to_int n).

(** [createLogger(stream)]: the chunk a call of the logger writes to the
    stream. *)
Definition createLogger (message : string) : string :=
  message ++ String JS.LF "".

(** The message of [main] after the [await]; [seconds] is the value of
    [Math.ceil(time / 1000)]. *)
Definition elapsed_message (seconds : Z) : string :=
  "Took ~" ++ template_integer seconds ++ " seconds".

(** What the script does once [await backfillEvents(...)] has settled: the
    logger is given the elapsed time when the pipeline resolved;
    [.catch(console.error)] gets the error when it rejected. While the
    pipeline is pending nothing happens. *)
Inductive Effect : Type :=
| LoggerCall (message : string)
| ConsoleErrorOf (error : string).

Definition settle (o : Pipeline.Outcome) (seconds : Z) : list Effect :=
  match o with
  | Pipeline.Resolved => [LoggerCall (elapsed_message seconds)]
  | Pipeline.Rejected error => [ConsoleErrorOf error]
  | Pipeline.Pending => []
  end.

(** The messages given to the logger, by the back-fill stage and then by
    [main], in order. *)
Definition logger_calls (st : Pipeline.State) (seconds : Z) : list string :=
  Pipeline.progress_log st ++
  flat_map (fun e => match e with LoggerCall m => [m] | ConsoleErrorOf _ => [] end)
    (settle (Pipeline.outcome st) seconds).

(** The text of the log file: the chunks the logger wrote to its stream. *)
Definition log_file (st : Pipeline.State) (seconds : Z) : string :=
  JS.join "" (map createLogger (logger_calls st seconds)).

(** The messages in the journal of the back-fill stage. *)
Definition logged (journal : list Backfill.Effect) : list string :=
  flat_map (fun e => match e with Backfill.Logged m => [m] | Backfill.Pushed _ => [] end)
    journal.

End Main.

(** ** Counting declined pushes and calls of [_read] *)

Module Backpressure.

(** How many of the first [n] pushes were answered [false]. *)
Fixpoint declined (more : Oracle) (n : nat) : nat :=
  match n with
  | O => O
  | S n' => declined more n' + (if more n' then 0 else 1)
  end.

(** How many calls of [_read] a sequence of calls holds. *)
Fixpoint reads {X : Type} (evs : list (Event X)) : nat :=
  match evs with
  | [] => O
  | CallRead :: evs' => S (reads evs')
  | _ :: evs' => reads evs'
  end.

(** The declined pushes of a readable side are at most the calls of
    [_read], plus the one decline that is outstanding. *)
Definition respected {X Y : Type} (more : Oracle) (out : Readable Y)
    (evs : list (Event X)) : Prop :=
  (declined more (List.length (pushed out))
   <= reads evs + (if unacknowledged out then 1 else 0))%nat.

End Backpressure.

Example split_example :
  JS.split JS.LF (String "1" (String JS.LF (String "2" (String JS.LF "3")))) = ["1"; "2"; "3"].
Proof. reflexivity. Qed.

Example toLines_example :
  Parser.toLines (String "1" (String JS.LF (String "2" (String JS.LF "3")))) = (["1"; "2"], "3").
Proof. reflexivity. Qed.

Example slicing_example :
  option_map (fun s => pushed (Buffer.out s))
    (Buffer.transform 10 2 (fun _ => true) Buffer.init ["1"; "2"; "3"; "4"; "5"])
  = Some [["1"; "2"]; ["3"; "4"]].
Proof. reflexivity. Qed.

Example printSql_example :
  Backfill.journal (Backfill.transform (fun _ => true) Backfill.init ["1"; "2"])
  = [Backfill.Logged "Back-filling 2 account numbers";
     Backfill.Pushed (String "1" (String JS.LF ""));
     Backfill.Pushed (String "2" (String JS.LF ""))].
Proof. reflexivity. Qed.

(** * Facts about the JavaScript primitives *)

Section StringFacts.

Lemma append_empty_r (s : string) : s ++ "" = s.
Proof. induction s as [|c s IH]; simpl; [reflexivity | now rewrite IH]. Qed.

Lemma append_assoc (a b c : string) : (a ++ b) ++ c = a ++ (b ++ c).
Proof. induction a as [|x a IH]; simpl; [reflexivity | now rewrite IH]. Qed.

Lemma join_empty_cons (x : string) (xs : list string) :
  JS.join "" (x :: xs) = x ++ JS.join "" xs.
Proof.
  unfold JS.join. destruct xs as [|y ys]; simpl.
  - now rewrite append_empty_r.
  - reflexivity.
Qed.

Lemma join_empty_app (xs ys : list string) :
  JS.join "" (xs ++ ys) = JS.join "" xs ++ JS.join "" ys.
Proof.
  induction xs as [|x xs IH].
  - reflexivity.
  - rewrite <- app_comm_cons, !join_empty_cons, IH. now rewrite append_assoc.
Qed.

End StringFacts.

Section SliceFacts.

Context {A : Type}.

Lemma slice_prefix (arr : list A) (n : Z) :
  (0 <= n)%Z -> JS.slice arr 0 (Some n) = firstn (Z.to_nat n) arr.
Proof.
  intros Hn. unfold JS.slice, JS.relative.
  replace (0 <? 0)%Z with false by reflexivity.
  destruct (n <? 0)%Z eqn:E; [apply Z.ltb_lt in E; lia|].
  rewrite (Z.min_l 0) by lia. simpl skipn.
  destruct (Z.le_ge_cases n (Z.of_nat (List.length arr))) as [H|H].
  - rewrite Z.min_l by lia. now rewrite Z.sub_0_r.
  - rewrite Z.min_r by lia. rewrite Z.sub_0_r, Nat2Z.id.
    rewrite !firstn_all2; trivial; lia.
Qed.

Lemma slice_suffix (arr : list A) (n : Z) :
  (0 <= n)%Z -> JS.slice arr n None = skipn (Z.to_nat n) arr.
Proof.
  intros Hn. unfold JS.slice, JS.relative.
  destruct (n <? 0)%Z eqn:E; [apply Z.ltb_lt in E; lia|].
  destruct (Z.le_ge_cases n (Z.of_nat (List.length arr))) as [H|H].
  - rewrite Z.min_l by lia. apply firstn_all2. rewrite length_skipn. lia.
  - rewrite Z.min_r by lia. rewrite Nat2Z.id.
    rewrite !skipn_all2; trivial; try lia. now destruct (Z.to_nat _).
Qed.

Lemma slice_all_but_last (arr : list A) :
  JS.slice arr 0 (Some (-1)%Z) = removelast arr.
Proof.
  unfold JS.slice, JS.relative.
  replace (0 <? 0)%Z with false by reflexivity.
  replace (-1 <? 0)%Z with true by reflexivity.
  rewrite (Z.min_l 0) by lia. simpl skipn. rewrite Z.sub_0_r.
  destruct arr as [|x arr]; [reflexivity|].
  rewrite Z.max_l by (simpl List.length; lia).
  replace (Z.to_nat (Z.of_nat (List.length (x :: arr)) + -1)) with (List.length arr)
    by (simpl List.length; lia).
  revert x. induction arr as [|y arr IH]; intros x; [reflexivity|].
  change (x :: firstn (List.length arr) (y :: arr) = x :: removelast (y :: arr)).
  now rewrite IH.
Qed.

Lemma slice_last (arr : list A) (d : A) :
  arr <> [] -> JS.slice arr (Z.of_nat (List.length arr) - 1) None = [last arr d].
Proof.
  intros Hne. rewrite slice_suffix by (destruct arr; [congruence | simpl List.length; lia]).
  replace (Z.to_nat (Z.of_nat (List.length arr) - 1)) with (List.length arr - 1)%nat by lia.
  destruct (exists_last Hne) as [front [x ->]].
  rewrite last_last, length_app. simpl List.length.
  replace (List.length front + 1 - 1)%nat with (List.length front) by lia.
  rewrite skipn_app, skipn_all, Nat.sub_diag. reflexivity.
Qed.

End SliceFacts.

(** * Facts about [toLines] *)

Section ToLinesFacts.

Lemma split_nonempty (sep : ascii) (s : string) : JS.split sep s <> [].
Proof.
  destruct s as [|c s]; simpl; [discriminate|].
  destruct (Ascii.eqb c sep); [discriminate|].
  destruct (JS.split sep s); discriminate.
Qed.

Lemma toLines_split (s : string) :
  Parser.toLines s = (removelast (JS.split JS.LF s), last (JS.split JS.LF s) "").
Proof.
  unfold Parser.toLines.
  rewrite slice_all_but_last, (slice_last _ "") by apply split_nonempty.
  reflexivity.
Qed.

Lemma toLines_empty : Parser.toLines "" = ([], "").
Proof. reflexivity. Qed.

Lemma toLines_cons (c : ascii) (s : string) :
  Parser.toLines (String c s) =
  if Ascii.eqb c JS.LF then ("" :: fst (Parser.toLines s), snd (Parser.toLines s))
  else match fst (Parser.toLines s) with
       | [] => ([], String c (snd (Parser.toLines s)))
       | piece :: pieces => (String c piece :: pieces, snd (Parser.toLines s))
       end.
Proof.
  rewrite !toLines_split. cbn [JS.split fst snd].
  pose proof (split_nonempty JS.LF s) as Hne.
  destruct (Ascii.eqb c JS.LF).
  - destruct (JS.split JS.LF s) as [|p ps]; [congruence | reflexivity].
  - destruct (JS.split JS.LF s) as [|p [|q qs]]; [congruence | reflexivity | reflexivity].
Qed.

(** Consuming a text in two parts: the carry of the first part is put in
    front of the second. *)
Lemma toLines_app (a b : string) :
  Parser.toLines (a ++ b) =
  ((fst (Parser.toLines a) ++ fst (Parser.toLines (snd (Parser.toLines a) ++ b)))%list,
   snd (Parser.toLines (snd (Parser.toLines a) ++ b))).
Proof.
  induction a as [|c a IH].
  - cbn [append]. rewrite toLines_empty. cbn [fst snd append app].
    now destruct (Parser.toLines b).
  - cbn [append]. rewrite (toLines_cons c a), (toLines_cons c (a ++ b)), IH.
    destruct (Ascii.eqb c JS.LF) eqn:E; cbn [fst snd].
    + reflexivity.
    + destruct (fst (Parser.toLines a)) as [|p ps]; cbn [fst snd app append].
      * rewrite (toLines_cons c (snd (Parser.toLines a) ++ b)), E.
        now destruct (fst (Parser.toLines (snd (Parser.toLines a) ++ b))).
      * reflexivity.
Qed.

Lemma carry_separator_free (s : string) :
  Spec.separator_free (snd (Parser.toLines s)) = true.
Proof.
  induction s as [|c s IH]; [reflexivity|].
  rewrite toLines_cons. destruct (Ascii.eqb c JS.LF) eqn:E; cbn [snd]; trivial.
  destruct (fst (Parser.toLines s)); cbn [snd Spec.separator_free]; trivial.
  now rewrite E, IH.
Qed.

Lemma toLines_separator_free (s : string) :
  Spec.separator_free s = true -> Parser.toLines s = ([], s).
Proof.
  induction s as [|c s IH]; [reflexivity|].
  cbn [Spec.separator_free]. intros H. apply andb_true_iff in H as [Hc Hs].
  rewrite toLines_cons, (IH Hs). apply negb_true_iff in Hc. now rewrite Hc.
Qed.

End ToLinesFacts.

(** * Facts about sequences of calls *)

Open Scope list_scope.

Section RunFacts.

Context {X S : Type} (step : S -> Event X -> option S).

Lemma run_app (evs1 evs2 : list (Event X)) (s : S) :
  run step s (evs1 ++ evs2) =
  match run step s evs1 with
  | Some s' => run step s' evs2
  | None => None
  end.
Proof.
  revert s. induction evs1 as [|ev evs1 IH]; intros s; cbn [run app]; [reflexivity|].
  destruct (step s ev); [apply IH | reflexivity].
Qed.

Lemma writes_app (evs1 evs2 : list (Event X)) :
  writes (evs1 ++ evs2) = writes evs1 ++ writes evs2.
Proof.
  induction evs1 as [|[chunk| |] evs1 IH]; cbn [writes app]; congruence.
Qed.

Lemma writes_reads (n : nat) : writes (repeat (@CallRead X) n) = [].
Proof. induction n; cbn [repeat writes]; trivial. Qed.

(** An invariant that relates the state to the chunks written so far holds
    along every run if every call keeps it. *)
Lemma run_history (I : S -> list X -> Prop) :
  (forall s w ev s', I s w -> step s ev = Some s' -> I s' (w ++ writes [ev])) ->
  forall evs s w s', I s w -> run step s evs = Some s' -> I s' (w ++ writes evs).
Proof.
  intros Hstep. induction evs as [|ev evs IH]; intros s w s' HI Hrun; cbn [run] in Hrun.
  - injection Hrun as <-. cbn [writes]. now rewrite app_nil_r.
  - destruct (step s ev) as [s1|] eqn:E; [|discriminate].
    specialize (IH s1 (w ++ writes [ev]) s' (Hstep _ _ _ _ HI E) Hrun).
    rewrite <- app_assoc in IH.
    replace (writes (ev :: evs)) with (writes [ev] ++ writes evs); [exact IH|].
    now destruct ev.
Qed.

End RunFacts.

(** * The account-number parser *)

Section ParserFacts.

Lemma parser_inv_rest (s : Parser.State) (w : list string) :
  Inv.parser s w -> Spec.separator_free (Parser.rest s) = true.
Proof.
  intros [H _]. replace (Parser.rest s) with (snd (Parser.toLines (JS.join "" w))).
  - apply carry_separator_free.
  - now rewrite H.
Qed.

Lemma parser_inv_init : Inv.parser Parser.init [].
Proof.
  unfold Inv.parser, Parser.init; cbn. repeat split; try discriminate.
Qed.

Lemma length_positive (s : string) : (0 <? String.length s)%nat = true <-> s <> "".
Proof.
  destruct s; cbn; split; intros H; try congruence; try discriminate; trivial.
Qed.

(** The end-of-input step of a reachable parser: nothing is pushed, and it
    closes exactly when the fragment is empty. *)
Lemma parser_flush_cases (more : Oracle) (s : Parser.State) :
  Spec.separator_free (Parser.rest s) = true ->
  (Parser.rest s = "" /\
   Parser.flush more s = Parser.mkState "" Closed (push_null (Parser.out s))) \/
  (Parser.rest s <> "" /\
   Parser.flush more s = Parser.mkState (Parser.rest s) (Failed "Left over data") (Parser.out s)).
Proof.
  intros Hfree. unfold Parser.flush.
  destruct (Parser.rest s) as [|c r] eqn:E.
  - left. split; reflexivity.
  - right. split; [discriminate|].
    rewrite <- E in *. rewrite (toLines_separator_free _ Hfree).
    replace (0 <? String.length (Parser.rest s))%nat with true
      by (symmetry; apply length_positive; rewrite E; discriminate).
    replace (Parser.rest s =? "") with false; [reflexivity|].
    symmetry. apply String.eqb_neq. rewrite E. discriminate.
Qed.

Lemma parser_inv_step (more : Oracle) (s : Parser.State) (w : list string)
    (ev : Event string) (s' : Parser.State) :
  Inv.parser s w -> Parser.step more s ev = Some s' -> Inv.parser s' (w ++ writes [ev]).
Proof.
  intros HI Hstep. pose proof (parser_inv_rest _ _ HI) as Hfree.
  destruct HI as (Hlines & Hclosed & Hfailed & Hbusy & Hack & Hend).
  destruct ev as [chunk| |]; cbn [Parser.step writes] in *.
  - destruct (Parser.phase s) eqn:Ep; try discriminate. injection Hstep as <-.
    unfold Inv.parser. rewrite join_empty_app, toLines_app, Hlines. cbn [fst snd].
    replace (JS.join "" [chunk]) with chunk by reflexivity.
    unfold Parser.transform, push.
    destruct (Parser.toLines (Parser.rest s ++ chunk)) as [lines rem].
    unfold Parser.records.
    cbn [Parser.rest Parser.phase Parser.out pushed ended unacknowledged fst snd].
    rewrite concat_app. cbn [List.concat]. rewrite app_nil_r, Hack, Hend.
    destruct (more _); repeat split; try discriminate; reflexivity.
  - injection Hstep as <-. rewrite app_nil_r. unfold Parser.ready.
    destruct (Parser.phase s) eqn:Ep;
      try (unfold Inv.parser; rewrite Ep; tauto).
    unfold Inv.parser, Parser.records.
    cbn [Parser.rest Parser.phase Parser.out pushed ended unacknowledged acknowledge].
    repeat split; try discriminate; trivial.
  - destruct (Parser.phase s) eqn:Ep; try discriminate. injection Hstep as <-.
    rewrite app_nil_r.
    destruct (parser_flush_cases more s Hfree) as [[Hr ->]|[Hr ->]];
      unfold Inv.parser, Parser.records in *;
      cbn [Parser.rest Parser.phase Parser.out pushed ended unacknowledged push_null].
    + rewrite Hr in Hlines. repeat split; try discriminate; trivial.
    + repeat split; try discriminate; trivial; try congruence.
Qed.

Lemma parser_reachable (more : Oracle) (evs : list (Event string)) (s : Parser.State) :
  run (Parser.step more) Parser.init evs = Some s -> Inv.parser s (writes evs).
Proof.
  intros Hrun.
  apply (run_history (Parser.step more) Inv.parser (parser_inv_step more)
           evs Parser.init [] s parser_inv_init Hrun).
Qed.

(** Writing the chunks one by one, with a [_read] after each, is a run, and
    it leaves the parser ready for the next call. *)
Lemma parser_feed (more : Oracle) (chunks : list string) (s : Parser.State) :
  Parser.phase s = Accepting ->
  exists s', run (Parser.step more) s (Spec.feed 1 chunks) = Some s' /\
             Parser.phase s' = Accepting.
Proof.
  revert s. induction chunks as [|chunk chunks IH]; intros s Hp.
  - exists s. split; [reflexivity | exact Hp].
  - cbn [Spec.feed flat_map repeat app run Parser.step]. rewrite Hp.
    cbn [run Parser.step].
    apply IH. unfold Parser.ready, Parser.transform, push.
    destruct (Parser.toLines _) as [lines rem]. now destruct (more _).
Qed.

Lemma writes_feed {X : Type} (reads : nat) (chunks : list X) :
  writes (Spec.feed reads chunks) = chunks.
Proof.
  induction chunks as [|chunk chunks IH]; [reflexivity|].
  cbn [Spec.feed flat_map]. change (writes (CallTransform chunk ::
    (repeat CallRead reads ++ Spec.feed reads chunks)) = chunk :: chunks).
  cbn [writes]. now rewrite writes_app, writes_reads, IH.
Qed.

End ParserFacts.

(** * The account-number buffer *)

Section BufferFacts.

Variable batchSize : Z.
Hypothesis batchSize_positive : (1 <= batchSize)%Z.

Lemma length_concat_full (batches : list (list string)) :
  Forall (Inv.full_batch batchSize) batches ->
  List.length (List.concat batches) = (Z.to_nat batchSize * List.length batches)%nat.
Proof.
  induction 1 as [|batch batches Hb _ IH]; cbn [List.concat List.length]; [lia|].
  rewrite length_app, IH, Hb. lia.
Qed.

(** What the slicing loop has done when it is left. *)
Lemma slicing_spec (more : Oracle) (gas : nat) :
  forall numbers answer out remaining answer' out',
    Buffer.slicing gas batchSize more numbers answer out = Some (remaining, answer', out') ->
    exists batches,
      pushed out' = pushed out ++ batches /\
      List.concat batches ++ remaining = numbers /\
      Forall (Inv.full_batch batchSize) batches /\
      ended out' = ended out /\
      (answer' = true ->
         answer = true /\ (List.length remaining < Z.to_nat batchSize)%nat /\
         unacknowledged out' = unacknowledged out) /\
      (answer' = false ->
         (answer = false /\ batches = [] /\ out' = out) \/
         (batches <> [] /\ unacknowledged out' = true)) /\
      (answer = true -> (Z.to_nat batchSize <= List.length numbers)%nat -> batches <> []).
Proof.
  induction gas as [|gas IH]; intros numbers answer out remaining answer' out' H;
    cbn [Buffer.slicing] in H; [discriminate|].
  destruct ((batchSize <=? Z.of_nat (List.length numbers))%Z && answer) eqn:Econd.
  - apply andb_true_iff in Econd as [Hlen ->]. apply Z.leb_le in Hlen.
    unfold push in H.
    apply IH in H as (batches & Hp & Hc & Hf & He & Ht & Hd & _).
    cbn [pushed ended unacknowledged] in *.
    rewrite slice_prefix in Hp by lia. rewrite slice_suffix in Hc by lia.
    exists (firstn (Z.to_nat batchSize) numbers :: batches).
    split; [now rewrite Hp, <- app_assoc|].
    split; [cbn [List.concat]; rewrite <- app_assoc, Hc; apply firstn_skipn|].
    split; [constructor; [unfold Inv.full_batch; rewrite length_firstn; lia | exact Hf]|].
    split; [exact He|].
    split; [|split].
    + intros E. destruct (Ht E) as (E' & Hlt & ->). rewrite E'. cbn.
      rewrite orb_false_r. repeat split; trivial.
    + intros E. right. split; [discriminate|].
      destruct (Hd E) as [(E' & _ & ->)|[_ H]]; [|exact H].
      cbn [unacknowledged]. rewrite E'. apply orb_true_r.
    + discriminate.
  - injection H as <- <- <-. exists []. rewrite app_nil_r. cbn [List.concat app].
    split; [reflexivity|]. split; [reflexivity|]. split; [constructor|].
    split; [reflexivity|]. split; [|split].
    + intros ->. rewrite andb_true_r in Econd. apply Z.leb_gt in Econd.
      repeat split; trivial; lia.
    + intros ->. left. repeat split.
    + intros -> Hlen. rewrite andb_true_r in Econd. apply Z.leb_gt in Econd. lia.
Qed.

(** With a batch size of at least 1 the loop ends within as many
    iterations as there are numbers, plus the one that finds it done. *)
Lemma slicing_total (more : Oracle) (gas : nat) :
  forall numbers answer out,
    (List.length numbers < gas)%nat ->
    Buffer.slicing gas batchSize more numbers answer out <> None.
Proof.
  induction gas as [|gas IH]; intros numbers answer out Hgas; [lia|].
  cbn [Buffer.slicing].
  destruct ((batchSize <=? Z.of_nat (List.length numbers))%Z && answer) eqn:Econd;
    [|discriminate].
  apply andb_true_iff in Econd as [Hlen _]. apply Z.leb_le in Hlen.
  unfold push. apply IH. rewrite slice_suffix, length_skipn by lia. lia.
Qed.


(** One call of [pushAccountNumbersInBatches] from a state in which no
    decline is outstanding: it leaves the stage accepting or waiting, with
    the invariant, and when it leaves it waiting, strictly less is left to
    slice. *)
Lemma push_batches_inv (more : Oracle) (gas : nat) (s0 s' : Buffer.State)
    (numbers0 : list string) (w : list (list string)) :
  unacknowledged (Buffer.out s0) = false ->
  ended (Buffer.out s0) = false ->
  Forall (Inv.full_batch batchSize) (pushed (Buffer.out s0)) ->
  List.concat (pushed (Buffer.out s0)) ++ numbers0 = List.concat w ->
  Buffer.pushAccountNumbersInBatches gas batchSize more s0 numbers0 = Some s' ->
  Inv.buffer batchSize s' w /\
  (Buffer.phase s' = Accepting \/
   exists remaining, Buffer.phase s' = AwaitingReadiness remaining /\
                     (List.length remaining < List.length numbers0)%nat).
Proof.
  intros Hack Hend Hfull Hall H. unfold Buffer.pushAccountNumbersInBatches in H.
  destruct (Buffer.slicing gas batchSize more numbers0 true (Buffer.out s0))
    as [[[remaining answer] out']|] eqn:E; [|discriminate].
  apply slicing_spec in E as (batches & Hp & Hc & Hf & He & Ht & Hd & Hn).
  assert (Hcat : List.concat (pushed out') ++ remaining = List.concat w).
  { rewrite Hp, concat_app, <- app_assoc, Hc. exact Hall. }
  assert (Hfull' : Forall (Inv.full_batch batchSize) (pushed out')).
  { rewrite Hp. apply Forall_app. split; assumption. }
  destruct answer; cbn [negb] in H; injection H as <-.
  - destruct (Ht eq_refl) as (_ & Hlt & Hu). split; [|now left].
    unfold Inv.buffer. cbn [Buffer.phase Buffer.numbers Buffer.out].
    repeat split; trivial; congruence.
  - destruct (Hd eq_refl) as [(Habs & _)|[Hne Hu]]; [discriminate|]. split.
    + unfold Inv.buffer. cbn [Buffer.phase Buffer.numbers Buffer.out].
      repeat split; trivial; congruence.
    + right. exists remaining. split; [reflexivity|].
      destruct batches as [|batch batches]; [congruence|].
      inversion Hf as [|? ? Hb _]; subst. unfold Inv.full_batch in Hb.
      cbn [List.concat]. rewrite !length_app. lia.
Qed.


Lemma buffer_inv_init : Inv.buffer batchSize Buffer.init [].
Proof.
  unfold Inv.buffer, Buffer.init; cbn. repeat split; trivial. lia.
Qed.

Lemma buffer_inv_step (more : Oracle) (gas : nat) (s : Buffer.State)
    (w : list (list string)) (ev : Event (list string)) (s' : Buffer.State) :
  Inv.buffer batchSize s w -> Buffer.step gas batchSize more s ev = Some s' ->
  Inv.buffer batchSize s' (w ++ writes [ev]).
Proof.
  intros HI Hstep. unfold Inv.buffer in HI.
  destruct ev as [chunk| |]; cbn [Buffer.step writes] in Hstep.
  - destruct (Buffer.phase s) eqn:Ep; try discriminate.
    destruct HI as (Hcat & Hlt & Hfull & Hack & Hend).
    unfold Buffer.transform in Hstep. cbn [writes].
    apply (push_batches_inv more gas _ s' _ (w ++ [chunk])) in Hstep; trivial.
    + apply Hstep.
    + cbn [Buffer.numbers Buffer.out]. rewrite concat_app. cbn [List.concat].
      rewrite app_nil_r, app_assoc. now rewrite Hcat.
  - cbn [writes]. rewrite app_nil_r. unfold Buffer.ready in Hstep.
    destruct (Buffer.phase s) eqn:Ep; try contradiction;
      try (injection Hstep as <-; unfold Inv.buffer; rewrite Ep; exact HI).
    destruct HI as (Hcat & Hfull & Hack & Hend).
    apply (push_batches_inv more gas _ s' _ w) in Hstep; trivial. apply Hstep.
  - cbn [writes]. rewrite app_nil_r.
    destruct (Buffer.phase s) eqn:Ep; try discriminate.
    destruct HI as (Hcat & Hlt & Hfull & Hack & Hend).
    injection Hstep as <-. unfold Buffer.flush, Inv.buffer.
    destruct (Buffer.numbers s) as [|n ns] eqn:En;
      cbn [List.length Nat.ltb Nat.leb Buffer.phase Buffer.out push push_null pushed ended].
    + exists (pushed (Buffer.out s)), []. rewrite app_nil_r. repeat split; trivial.
    + exists (pushed (Buffer.out s)), (n :: ns). repeat split; trivial.
Qed.

Lemma buffer_reachable (more : Oracle) (gas : nat) (evs : list (Event (list string)))
    (s : Buffer.State) :
  run (Buffer.step gas batchSize more) Buffer.init evs = Some s ->
  Inv.buffer batchSize s (writes evs).
Proof.
  intros Hrun.
  apply (run_history (Buffer.step gas batchSize more) (Inv.buffer batchSize)
           (buffer_inv_step more gas) evs Buffer.init [] s buffer_inv_init Hrun).
Qed.

(** The lengths of the batches of a closed buffer stage. *)
Lemma batch_lengths (full : list (list string)) (residual : list string) :
  Forall (Inv.full_batch batchSize) full ->
  (List.length residual < Z.to_nat batchSize)%nat ->
  let size := Z.to_nat batchSize in
  let total := List.length (List.concat full ++ residual) in
  map (@List.length string) (full ++ match residual with [] => [] | _ => [residual] end) =
  repeat size (total / size) ++
    (if (total mod size =? 0)%nat then [] else [(total mod size)%nat]).
Proof.
  intros Hfull Hlt size total.
  assert (Htotal : total = (size * List.length full + List.length residual)%nat).
  { unfold total. rewrite length_app, length_concat_full by exact Hfull. reflexivity. }
  assert (Hdiv : (total / size = List.length full)%nat).
  { symmetry. apply (Nat.div_unique total size _ (List.length residual)); [exact Hlt | exact Htotal]. }
  assert (Hmod : (total mod size = List.length residual)%nat).
  { symmetry. apply (Nat.mod_unique total size (List.length full)); [exact Hlt | exact Htotal]. }
  rewrite Hdiv, Hmod, map_app. f_equal.
  - clear - Hfull. induction Hfull as [|batch full Hb _ IH]; [reflexivity|].
    cbn [map List.length repeat]. now rewrite IH, Hb.
  - now destruct residual.
Qed.


Lemma buffer_reads_idle (more : Oracle) (gas n : nat) (s : Buffer.State) :
  Buffer.phase s = Accepting ->
  run (Buffer.step gas batchSize more) s (repeat CallRead n) = Some s.
Proof.
  intros Hp. induction n as [|n IH]; [reflexivity|].
  cbn [repeat run Buffer.step]. unfold Buffer.ready. rewrite Hp. exact IH.
Qed.

(** A waiting buffer stage accepts again after at most as many [_read]
    calls as it has numbers left to slice, plus one. *)
Lemma buffer_reads_settle (more : Oracle) (gas : nat) (w : list (list string)) :
  (List.length (List.concat w) < gas)%nat ->
  forall n s remaining,
    Inv.buffer batchSize s w ->
    Buffer.phase s = AwaitingReadiness remaining ->
    (List.length remaining < n)%nat ->
    exists s', run (Buffer.step gas batchSize more) s (repeat CallRead n) = Some s' /\
               Buffer.phase s' = Accepting /\ Inv.buffer batchSize s' w.
Proof.
  intros Hgas. induction n as [|n IH]; intros s remaining HI Hp Hn; [lia|].
  cbn [repeat run Buffer.step]. unfold Buffer.ready. rewrite Hp.
  pose proof HI as HI0. unfold Inv.buffer in HI. rewrite Hp in HI.
  destruct HI as (Hcat & Hfull & Hack & Hend).
  assert (Hlen : (List.length remaining < gas)%nat).
  { apply (f_equal (@List.length string)) in Hcat. rewrite length_app in Hcat. lia. }
  destruct (Buffer.pushAccountNumbersInBatches gas batchSize more
              (Buffer.mkState (Buffer.numbers s) Busy (acknowledge (Buffer.out s))) remaining)
    as [s1|] eqn:E.
  - apply (push_batches_inv more gas _ s1 _ w) in E as [HI1 [Hacc|(rem1 & Hp1 & Hlt)]]; trivial.
    + exists s1. rewrite buffer_reads_idle by exact Hacc. auto.
    + apply (IH s1 rem1 HI1 Hp1). lia.
  - exfalso. unfold Buffer.pushAccountNumbersInBatches in E.
    destruct (Buffer.slicing gas batchSize more remaining true _) as [[[? ?] ?]|] eqn:E';
      [destruct b; discriminate|].
    now apply slicing_total in E'.
Qed.

(** Writing the groups one by one, with enough [_read] calls after each, is
    a run that leaves the stage accepting. *)
Lemma buffer_feed (more : Oracle) (gas : nat) (groups : list (list string)) :
  forall s w,
    Inv.buffer batchSize s w ->
    Buffer.phase s = Accepting ->
    (List.length (List.concat (w ++ groups)) < gas)%nat ->
    exists s', run (Buffer.step gas batchSize more) s (Spec.feed gas groups) = Some s' /\
               Buffer.phase s' = Accepting /\ Inv.buffer batchSize s' (w ++ groups).
Proof.
  induction groups as [|group groups IH]; intros s w HI Hp Hgas.
  - exists s. rewrite app_nil_r. repeat split; trivial.
  - cbn [Spec.feed flat_map].
    change (CallTransform group :: repeat CallRead gas) with
      ([CallTransform group] ++ repeat (@CallRead (list string)) gas).
    rewrite <- !app_assoc, !run_app.
    assert (Hgas1 : (List.length (List.concat (w ++ [group])) < gas)%nat).
    { rewrite !concat_app, !length_app in *. cbn [List.concat] in *.
      rewrite !length_app in *. cbn [List.length] in *. lia. }
    assert (Hgas2 : (List.length (Buffer.numbers s ++ group) < gas)%nat).
    { pose proof HI as HI'. unfold Inv.buffer in HI'. rewrite Hp in HI'.
      destruct HI' as (Hcat & _). apply (f_equal (@List.length string)) in Hcat.
      rewrite !concat_app, !length_app in *. cbn [List.concat] in *.
      rewrite !length_app in *. cbn [List.length] in *. lia. }
    destruct (Buffer.step gas batchSize more s (CallTransform group)) as [s1|] eqn:E.
    + cbn [run]. rewrite E.
      pose proof (buffer_inv_step more gas s w _ s1 HI E) as HI1. cbn [writes] in HI1.
      assert (Hsettled : exists s2,
                 run (Buffer.step gas batchSize more) s1 (repeat CallRead gas) = Some s2 /\
                 Buffer.phase s2 = Accepting /\ Inv.buffer batchSize s2 (w ++ [group])).
      { destruct (Buffer.phase s1) eqn:Ep1.
        - exists s1. rewrite buffer_reads_idle by exact Ep1. auto.
        - apply (buffer_reads_settle more gas (w ++ [group]) Hgas1 gas s1 listener HI1 Ep1).
          unfold Inv.buffer in HI1. rewrite Ep1 in HI1. destruct HI1 as (Hcat & _).
          apply (f_equal (@List.length string)) in Hcat. rewrite length_app in Hcat. lia.
        - unfold Inv.buffer in HI1. now rewrite Ep1 in HI1.
        - cbn [Buffer.step] in E. rewrite Hp in E. unfold Buffer.transform in E.
          apply (push_batches_inv more gas _ s1 _ (w ++ [group])) in E
            as [_ [Hacc|(r & Hr & _)]]; try congruence;
            unfold Inv.buffer in HI; rewrite Hp in HI; try apply HI.
          cbn [Buffer.numbers Buffer.out]. rewrite concat_app. cbn [List.concat].
          rewrite app_nil_r, app_assoc. f_equal. apply HI.
        - unfold Inv.buffer in HI1. now rewrite Ep1 in HI1. }
      destruct Hsettled as (s2 & Hs2 & Hp2 & HI2). rewrite run_app, Hs2.
      fold (Spec.feed gas groups).
      destruct (IH s2 (w ++ [group]) HI2 Hp2) as (s3 & Hrun & Hp3 & HI3).
      { now rewrite <- app_assoc. }
      exists s3. rewrite <- app_assoc in HI3. auto.
    + exfalso. cbn [Buffer.step] in E. rewrite Hp in E.
      unfold Buffer.transform, Buffer.pushAccountNumbersInBatches in E.
      cbn [Buffer.numbers Buffer.out] in E.
      destruct (Buffer.slicing gas batchSize more (Buffer.numbers s ++ group) true _)
        as [[[? ?] ?]|] eqn:E'; [destruct b; discriminate|].
      now apply slicing_total in E'.
Qed.

End BufferFacts.

(** * The back-fill printer *)

Section BackfillFacts.

Lemma skipn_nth {A : Type} (i : nat) (l : list A) (d : A) :
  (i < List.length l)%nat -> skipn i l = nth i l d :: skipn (S i) l.
Proof.
  revert i. induction l as [|x l IH]; intros i Hi; cbn [List.length] in Hi; [lia|].
  destruct i as [|i]; [reflexivity|]. cbn [skipn nth]. apply IH. lia.
Qed.

(** What the printing loop has done when it is left. *)
Lemma printing_spec (more : Oracle) (statements : list string) (todo : nat) :
  forall i answer out journal e out' journal',
    (i + todo = List.length statements)%nat ->
    Backfill.printing todo statements i answer more out journal = (e, out', journal') ->
    let remaining := match e with Backfill.Returned r => r | Backfill.Completed _ => [] end in
    pushed out' ++ map Spec.line remaining = pushed out ++ map Spec.line (skipn i statements) /\
    journal' ++ map Spec.pushed_line remaining = journal ++ map Spec.pushed_line (skipn i statements) /\
    ended out' = ended out /\
    match e with
    | Backfill.Returned r =>
        unacknowledged out' = true /\
        exists m, (i <= m < List.length statements)%nat /\ r = skipn (S m) statements /\
                  more (List.length (pushed out) + (m - i))%nat = false /\
                  forall j, (j < m - i)%nat -> more (List.length (pushed out) + j)%nat = true
    | Backfill.Completed a =>
        (a = true \/ (todo = 0%nat /\ a = answer)) /\
        unacknowledged out' = unacknowledged out /\
        forall j, (j < todo)%nat -> more (List.length (pushed out) + j)%nat = true
    end.
Proof.
  induction todo as [|todo IH]; intros i answer out journal e out' journal' Hi H;
    cbn [Backfill.printing] in H.
  - injection H as <- <- <-. cbn zeta. rewrite skipn_all2 by lia. cbn [map].
    repeat split; auto. intros j Hj. lia.
  - unfold push in H. rewrite (skipn_nth i statements "undefined") by lia.
    destruct (more (List.length (pushed out))) eqn:Em; cbn [negb] in H.
    + apply IH in H; [|lia]. cbn zeta in *. cbn [pushed ended unacknowledged] in H.
      destruct H as (Hp & Hj & He & Hcase). rewrite <- !app_assoc in Hp, Hj.
      rewrite length_app in Hcase. cbn [List.length] in Hcase.
      split; [exact Hp|]. split; [exact Hj|]. split; [exact He|].
      destruct e as [r|a].
      * destruct Hcase as (Hu & m & Hm & -> & Hfalse & Htrue). split; [exact Hu|].
        exists m. split; [lia|]. split; [reflexivity|]. split.
        -- rewrite <- Hfalse. f_equal. lia.
        -- intros [|j] Hlt; [now rewrite Nat.add_0_r|].
           rewrite <- (Htrue j) by lia. f_equal. lia.
      * destruct Hcase as (Ha & Hu & Htrue). rewrite orb_false_r in Hu.
        split; [left; destruct Ha as [Ha|[_ Ha]]; exact Ha|]. split; [exact Hu|].
        intros [|j] Hlt; [now rewrite Nat.add_0_r|].
        rewrite <- (Htrue j) by lia. f_equal. lia.
    + injection H as <- <- <-. cbn zeta. cbn [pushed ended unacknowledged].
      rewrite slice_suffix by lia.
      replace (Z.to_nat (Z.of_nat i + 1)) with (S i) by lia.
      rewrite <- !app_assoc. cbn [map app]. repeat split; trivial.
      * apply orb_true_r.
      * exists i. split; [lia|]. split; [reflexivity|].
        rewrite Nat.sub_diag, Nat.add_0_r. split; [exact Em | intros j Hj; lia].
Qed.


(** One call of [printSql]: the lines of its argument are pushed in order
    up to and including the first declined one, and the listener holds
    the lines after it; without a decline the callback runs. *)
Lemma printSql_spec (more : Oracle) (s : Backfill.State) (statements : list string) :
  let s' := Backfill.printSql more s statements in
  pushed (Backfill.out s') ++ map Spec.line (Inv.held s')
    = pushed (Backfill.out s) ++ map Spec.line statements /\
  Backfill.journal s' ++ map Spec.pushed_line (Inv.held s')
    = Backfill.journal s ++ map Spec.pushed_line statements /\
  ended (Backfill.out s') = ended (Backfill.out s) /\
  ((Backfill.phase s' = Accepting /\
    unacknowledged (Backfill.out s') = unacknowledged (Backfill.out s) /\
    forall j, (j < List.length statements)%nat ->
              more (List.length (pushed (Backfill.out s)) + j)%nat = true) \/
   (exists m, (m < List.length statements)%nat /\
              Backfill.phase s' = AwaitingReadiness (skipn (S m) statements) /\
              unacknowledged (Backfill.out s') = true /\
              more (List.length (pushed (Backfill.out s)) + m)%nat = false /\
              forall j, (j < m)%nat ->
                        more (List.length (pushed (Backfill.out s)) + j)%nat = true)).
Proof.
  cbn zeta. unfold Backfill.printSql.
  destruct (Backfill.printing (List.length statements) statements 0 true more
              (Backfill.out s) (Backfill.journal s)) as [[e out'] journal'] eqn:E.
  apply printing_spec in E; [|reflexivity]. cbn zeta in E. cbn [skipn] in E.
  destruct E as (Hp & Hj & He & Hcase).
  destruct e as [r|a]; unfold Inv.held; cbn [Backfill.phase Backfill.out Backfill.journal].
  - destruct Hcase as (Hu & m & Hm & -> & Hfalse & Htrue). repeat split; trivial.
    right. exists m. rewrite Nat.sub_0_r in Hfalse, Htrue. repeat split; trivial. lia.
  - destruct Hcase as (Ha & Hu & Htrue).
    assert (a = true) as -> by (destruct Ha as [Ha|[_ Ha]]; exact Ha).
    cbn [Backfill.phase]. repeat split; trivial. now left.
Qed.

Lemma backfill_inv_init : Inv.backfill Backfill.init [].
Proof.
  unfold Inv.backfill, Inv.held, Backfill.init; cbn. repeat split; discriminate.
Qed.

Lemma held_accepting (s : Backfill.State) :
  Backfill.phase s = Accepting -> Inv.held s = [].
Proof. unfold Inv.held. now intros ->. Qed.

Lemma backfill_inv_step (more : Oracle) (s : Backfill.State) (w : list (list string))
    (ev : Event (list string)) (s' : Backfill.State) :
  Inv.backfill s w -> Backfill.step more s ev = Some s' ->
  Inv.backfill s' (w ++ writes [ev]).
Proof.
  intros HI Hstep. pose proof HI as (Hbusy & Hfail & Hp & Hj & Hu & He).
  destruct ev as [batch| |]; cbn [Backfill.step] in Hstep; cbn [writes].
  - destruct (Backfill.phase s) eqn:Ep; try discriminate. injection Hstep as <-.
    rewrite (held_accepting s Ep) in Hp, Hj. cbn [map] in Hp, Hj.
    rewrite app_nil_r in Hp, Hj. unfold Backfill.transform.
    match goal with |- Inv.backfill ?t _ => remember t as s1 eqn:E1 end.
    match type of E1 with _ = Backfill.printSql _ ?s0 _ =>
      pose proof (printSql_spec more s0 batch) as H end.
    cbn zeta in H. rewrite <- E1 in H.
    cbn [Backfill.out Backfill.journal] in H. clear E1.
    destruct H as (Hp' & Hj' & He' & Hcase).
    assert (Hphase : Backfill.phase s1 = Accepting \/
                     exists r, Backfill.phase s1 = AwaitingReadiness r).
    { destruct Hcase as [(Hph & _)|(m & _ & Hph & _)]; eauto. }
    unfold Inv.backfill.
    split; [destruct Hphase as [->|(r & ->)]; discriminate|].
    split; [destruct Hphase as [->|(r & ->)]; discriminate|].
    split; [rewrite Hp', concat_app, map_app; cbn [List.concat]; now rewrite app_nil_r, Hp|].
    split.
    { rewrite Hj', flat_map_app. cbn [flat_map]. rewrite app_nil_r, <- Hj, <- app_assoc.
      reflexivity. }
    rewrite He', He.
    destruct Hcase as [(Hph & Hu' & _)|(m & Hm & Hph & Hu' & _)]; rewrite Hph, Hu'; rewrite ?Hu;
      split; reflexivity.
  - injection Hstep as <-. rewrite app_nil_r. unfold Backfill.ready.
    destruct (Backfill.phase s) eqn:Ep; try exact HI.
    unfold Inv.held in Hp, Hj. rewrite Ep in Hp, Hj.
    match goal with |- Inv.backfill ?t _ => remember t as s1 eqn:E1 end.
    match type of E1 with _ = Backfill.printSql _ ?s0 _ =>
      pose proof (printSql_spec more s0 listener) as H end.
    cbn zeta in H. rewrite <- E1 in H.
    cbn [Backfill.out Backfill.journal acknowledge pushed ended unacknowledged] in H.
    clear E1. destruct H as (Hp' & Hj' & He' & Hcase).
    assert (Hphase : Backfill.phase s1 = Accepting \/
                     exists r, Backfill.phase s1 = AwaitingReadiness r).
    { destruct Hcase as [(Hph & _)|(m & _ & Hph & _)]; eauto. }
    unfold Inv.backfill.
    split; [destruct Hphase as [->|(r & ->)]; discriminate|].
    split; [destruct Hphase as [->|(r & ->)]; discriminate|].
    split; [now rewrite Hp'|]. split; [now rewrite Hj'|].
    rewrite He', He.
    destruct Hcase as [(Hph & Hu' & _)|(m & Hm & Hph & Hu' & _)]; rewrite Hph, Hu';
      split; reflexivity.
  - destruct (Backfill.phase s) eqn:Ep; try discriminate. injection Hstep as <-.
    rewrite app_nil_r. rewrite (held_accepting s Ep) in Hp, Hj.
    unfold Inv.backfill, Inv.held, Backfill.flush.
    cbn [Backfill.phase Backfill.out Backfill.journal push_null pushed ended unacknowledged].
    repeat split; try discriminate; trivial.
Qed.

Lemma backfill_reachable (more : Oracle) (evs : list (Event (list string)))
    (s : Backfill.State) :
  run (Backfill.step more) Backfill.init evs = Some s -> Inv.backfill s (writes evs).
Proof.
  intros Hrun.
  apply (run_history (Backfill.step more) Inv.backfill (backfill_inv_step more)
           evs Backfill.init [] s backfill_inv_init Hrun).
Qed.


Lemma backfill_reads_idle (more : Oracle) (n : nat) (s : Backfill.State) :
  Backfill.phase s = Accepting ->
  run (Backfill.step more) s (repeat CallRead n) = Some s.
Proof.
  intros Hp. induction n as [|n IH]; [reflexivity|].
  cbn [repeat run Backfill.step]. unfold Backfill.ready. rewrite Hp. exact IH.
Qed.

(** While a batch is being printed, across any number of [_read] calls:
    what has been pushed since the batch arrived, followed by what the
    listener holds, is the batch, and the listener holds a proper suffix
    of it. *)
Lemma backfill_batch_progress (more : Oracle) (before : list string)
    (jbefore : list Backfill.Effect) (batch : list string) :
  forall n s s',
    pushed (Backfill.out s) ++ map Spec.line (Inv.held s) = before ++ map Spec.line batch ->
    Backfill.journal s ++ map Spec.pushed_line (Inv.held s)
      = jbefore ++ map Spec.pushed_line batch ->
    (Backfill.phase s = Accepting \/
     exists k, (0 < k <= List.length batch)%nat /\
               Backfill.phase s = AwaitingReadiness (skipn k batch)) ->
    run (Backfill.step more) s (repeat CallRead n) = Some s' ->
    pushed (Backfill.out s') ++ map Spec.line (Inv.held s') = before ++ map Spec.line batch /\
    Backfill.journal s' ++ map Spec.pushed_line (Inv.held s')
      = jbefore ++ map Spec.pushed_line batch /\
    (Backfill.phase s' = Accepting \/
     exists k, (0 < k <= List.length batch)%nat /\
               Backfill.phase s' = AwaitingReadiness (skipn k batch)).
Proof.
  induction n as [|n IH]; intros s s' Hp Hj Hph Hrun; cbn [repeat run Backfill.step] in Hrun.
  - injection Hrun as <-. auto.
  - apply IH in Hrun; [exact Hrun| | |]; clear IH; unfold Backfill.ready.
    + destruct Hph as [->|(k & Hk & Hph)]; [exact Hp|]. rewrite Hph.
      unfold Inv.held in Hp at 1. rewrite Hph in Hp.
      match goal with |- context [Backfill.printSql more ?s0 ?r] =>
        pose proof (printSql_spec more s0 r) as H end.
      cbn zeta in H. cbn [Backfill.out acknowledge pushed] in H.
      destruct H as (H & _). rewrite H. exact Hp.
    + destruct Hph as [->|(k & Hk & Hph)]; [exact Hj|]. rewrite Hph.
      unfold Inv.held in Hj at 1. rewrite Hph in Hj.
      match goal with |- context [Backfill.printSql more ?s0 ?r] =>
        pose proof (printSql_spec more s0 r) as H end.
      cbn zeta in H. cbn [Backfill.journal] in H.
      destruct H as (_ & H & _). rewrite H. exact Hj.
    + destruct Hph as [Hph|(k & Hk & Hph)]; [rewrite Hph; now left|]. rewrite Hph.
      match goal with |- context [Backfill.printSql more ?s0 ?r] =>
        pose proof (printSql_spec more s0 r) as H end.
      cbn zeta in H. destruct H as (_ & _ & _ & [(H & _)|(m & Hm & H & _)]); [now left|].
      right. exists (S m + k)%nat. rewrite length_skipn in Hm. split; [lia|].
      rewrite H. f_equal. now rewrite skipn_skipn.
Qed.

(** A list that ends with a suffix of [l] starts with the matching
    prefix. *)
Lemma prefix_of_suffix {A : Type} (front before l : list A) (k : nat) :
  front ++ skipn k l = before ++ l -> front = before ++ firstn k l.
Proof.
  intros H. rewrite <- (firstn_skipn k l) in H at 2. rewrite app_assoc in H.
  now apply app_inv_tail in H.
Qed.

(** A waiting back-fill stage has called back after at most as many
    [_read] calls as its listener holds lines, plus one. *)
Lemma backfill_reads_settle (more : Oracle) :
  forall n s remaining,
    Backfill.phase s = AwaitingReadiness remaining ->
    (List.length remaining < n)%nat ->
    exists s', run (Backfill.step more) s (repeat CallRead n) = Some s' /\
               Backfill.phase s' = Accepting.
Proof.
  induction n as [|n IH]; intros s remaining Hp Hn; [lia|].
  cbn [repeat run Backfill.step]. unfold Backfill.ready. rewrite Hp.
  match goal with |- context [Backfill.printSql more ?s0 ?r] =>
    pose proof (printSql_spec more s0 r) as H; set (s1 := Backfill.printSql more s0 r) in * end.
  cbn zeta in H. destruct H as (_ & _ & _ & [(H & _)|(m & Hm & H & _)]).
  - exists s1. split; [now apply backfill_reads_idle | exact H].
  - apply (IH s1 _ H). rewrite length_skipn. lia.
Qed.

(** After a batch arrives, as many [_read] calls as it has records bring
    the stage back to accepting. *)
Lemma backfill_batch_settles (more : Oracle) (s : Backfill.State) (batch : list string) (n : nat) :
  (List.length batch <= n)%nat ->
  exists s', run (Backfill.step more) (Backfill.transform more s batch)
               (repeat CallRead n) = Some s' /\
             Backfill.phase s' = Accepting.
Proof.
  intros Hn. unfold Backfill.transform.
  match goal with |- context [Backfill.printSql more ?s0 ?r] =>
    pose proof (printSql_spec more s0 r) as H; set (s1 := Backfill.printSql more s0 r) in * end.
  cbn zeta in H. destruct H as (_ & _ & _ & [(H & _)|(m & Hm & H & _)]).
  - exists s1. split; [now apply backfill_reads_idle | exact H].
  - apply (backfill_reads_settle more n s1 _ H). rewrite length_skipn. lia.
Qed.


End BackfillFacts.

(** * The states of the back-fill stage while it prints one batch *)

Lemma lines_prefix {B : Type} (f : string -> B) (front before : list B)
    (batch : list string) (k : nat) :
  front ++ map f (skipn k batch) = before ++ map f batch ->
  front = before ++ map f (firstn k batch).
Proof.
  intros H. rewrite <- skipn_map in H. apply prefix_of_suffix in H.
  now rewrite firstn_map in H.
Qed.

(** After the batch arrives and after any number of [_read] calls: the
    progress message was logged first, then the first [k] lines of the
    batch were pushed, in order, and the listener, if the stage waits,
    holds the lines from [k] on. *)
Lemma backfill_batch_states (more : Oracle) (s : Backfill.State) (batch : list string)
    (n : nat) (s' : Backfill.State) :
  run (Backfill.step more) (Backfill.transform more s batch) (repeat CallRead n) = Some s' ->
  exists k,
    (k <= List.length batch)%nat /\
    pushed (Backfill.out s') = pushed (Backfill.out s) ++ map Spec.line (firstn k batch) /\
    Backfill.journal s' =
      Backfill.journal s ++
      Backfill.Logged (Backfill.progress_message (List.length batch))
        :: map Spec.pushed_line (firstn k batch) /\
    ((Backfill.phase s' = Accepting /\ k = List.length batch) \/
     (Backfill.phase s' = AwaitingReadiness (skipn k batch) /\ (0 < k)%nat)).
Proof.
  intros Hrun.
  set (logged := Backfill.journal s ++
                 [Backfill.Logged (Backfill.progress_message (List.length batch))]).
  pose proof (printSql_spec more (Backfill.mkState Busy (Backfill.out s) logged) batch) as H.
  cbn zeta in H. cbn [Backfill.out Backfill.journal] in H.
  fold (Backfill.transform more s batch) in H.
  destruct H as (Hp & Hj & _ & Hcase).
  apply (backfill_batch_progress more (pushed (Backfill.out s)) logged batch) in Hrun;
    [|exact Hp|exact Hj|].
  - destruct Hrun as (Hp' & Hj' & [Hph|(k & Hk & Hph)]).
    + exists (List.length batch). unfold Inv.held in Hp', Hj'. rewrite Hph in Hp', Hj'.
      cbn [map] in Hp', Hj'. rewrite app_nil_r in Hp', Hj'. rewrite firstn_all.
      split; [lia|]. split; [exact Hp'|]. split; [|now left].
      rewrite Hj'. unfold logged. now rewrite <- app_assoc.
    + exists k. unfold Inv.held in Hp', Hj'. rewrite Hph in Hp', Hj'.
      apply lines_prefix in Hp', Hj'.
      split; [lia|]. split; [exact Hp'|]. split; [|right; split; [exact Hph|lia]].
      rewrite Hj'. unfold logged. now rewrite <- app_assoc.
  - destruct Hcase as [(Hph & _)|(m & Hm & Hph & _)]; [now left|].
    right. exists (S m). split; [lia | exact Hph].
Qed.

(** The batches of the buffer stage, however it is run. *)
Lemma buffer_batches_shape (batchSize : Z) (gas : nat) (more : Oracle)
    (evs : list (Event (list string))) (s : Buffer.State) :
  (1 <= batchSize)%Z ->
  run (Buffer.step gas batchSize more) Buffer.init evs = Some s ->
  let size := Z.to_nat batchSize in
  let total := List.length (List.concat (writes evs)) in
  Forall (fun batch => batch <> []) (pushed (Buffer.out s)) /\
  (Buffer.phase s <> Closed ->
   Forall (fun batch => List.length batch = size) (pushed (Buffer.out s))) /\
  (Buffer.phase s = Closed ->
   map (@List.length string) (pushed (Buffer.out s)) =
     repeat size (total / size) ++
       (if (total mod size =? 0)%nat then [] else [(total mod size)%nat]) /\
   List.concat (pushed (Buffer.out s)) = List.concat (writes evs)).
Proof.
  intros HB Hrun size total.
  pose proof (buffer_reachable batchSize HB more gas evs s Hrun) as HI.
  unfold Inv.buffer in HI.
  assert (Hnonempty : forall batches,
             Forall (Inv.full_batch batchSize) batches ->
             Forall (fun batch : list string => batch <> []) batches).
  { intros batches. apply Forall_impl. intros batch Hb ->.
    unfold Inv.full_batch in Hb. cbn in Hb. lia. }
  destruct (Buffer.phase s) eqn:Ep; try contradiction.
  - destruct HI as (_ & _ & Hfull & _). repeat split; auto; discriminate.
  - destruct HI as (_ & Hfull & _). repeat split; auto; discriminate.
  - destruct HI as (full & residual & Hpushed & Hcat & Hfull & Hlt & _).
    rewrite Hpushed. split; [|split; [congruence|intros _; split]].
    + apply Forall_app. split; [auto|].
      destruct residual; constructor; [discriminate|constructor].
    + unfold total, size. rewrite <- Hcat. now apply batch_lengths.
    + rewrite concat_app, <- Hcat. f_equal. destruct residual; cbn; [reflexivity|].
      now rewrite app_nil_r.
Qed.

(** A text with no separator put after another is a text with no
    separator. *)
Lemma separator_free_app (a b : string) :
  Spec.separator_free a = true -> Spec.separator_free b = true ->
  Spec.separator_free (a ++ b) = true.
Proof.
  intros Ha Hb. induction a as [|c a IH]; [exact Hb|].
  cbn [append Spec.separator_free] in *. apply andb_true_iff in Ha as [-> Ha].
  cbn. now apply IH.
Qed.

(** * The pipeline *)

Ltac break_match_in H :=
  repeat match type of H with
         | context [match ?x with _ => _ end] => destruct x eqn:?
         end.

Section PipelineFacts.

Variable c : Pipeline.Config.


Lemma pipeline_run_invariant (I : Pipeline.State -> Prop) :
  (forall st t st', I st -> Pipeline.step c st t = Some st' -> I st') ->
  forall ts st st', I st -> Pipeline.run c st ts = Some st' -> I st'.
Proof.
  intros Hstep. induction ts as [|t ts IH]; intros st st' HI Hrun; cbn [Pipeline.run] in Hrun.
  - now injection Hrun as <-.
  - destruct (Pipeline.step c st t) as [st1|] eqn:E; [|discriminate].
    apply (IH st1 st' (Hstep _ _ _ HI E) Hrun).
Qed.



Lemma parser_transform_phase (more : Oracle) (p : Parser.State) (chunk : string) :
  Parser.phase (Parser.transform more p chunk) =
  if more (List.length (pushed (Parser.out p))) then Accepting else AwaitingReadiness tt.
Proof.
  unfold Parser.transform, push. destruct (Parser.toLines _). now destruct (more _).
Qed.



End PipelineFacts.

Lemma parser_rest_carry (s : Parser.State) (w : list string) :
  Inv.parser s w -> Parser.rest s = snd (Parser.toLines (JS.join "" w)).
Proof. intros [H _]. now rewrite H. Qed.

(** A text that ends in the middle of a record leaves a non-empty carry. *)
Lemma unterminated_carry (s : string) :
  Spec.unterminated s = true -> snd (Parser.toLines s) <> "".
Proof.
  induction s as [|c s IH]; [discriminate|].
  intros H. rewrite toLines_cons. destruct s as [|d s].
  - unfold Spec.unterminated in H. cbn [Spec.last_char] in H.
    apply negb_true_iff in H. rewrite H, toLines_empty. discriminate.
  - assert (Hs : Spec.unterminated (String d s) = true) by exact H.
    specialize (IH Hs).
    destruct (Ascii.eqb c JS.LF); [exact IH|].
    destruct (fst (Parser.toLines (String d s))); [discriminate | exact IH].
Qed.

(** * The stages as parts of the pipeline *)

Section LinkFacts.

Context {Y : Type}.

Lemma link_upstream (up up' : Readable Y) (received : nat) (written : list Y) (closed : Prop) :
  Inv.link up received written closed ->
  (exists extra, pushed up' = pushed up ++ extra) ->
  (ended up = true -> up' = up) ->
  Inv.link up' received written closed.
Proof.
  intros (Hw & Hr & Hc) (extra & Hextra) Hsame. unfold Inv.link.
  rewrite Hextra, firstn_app, length_app.
  replace (received - List.length (pushed up))%nat with 0%nat by lia.
  cbn [firstn]. rewrite app_nil_r. split; [exact Hw|]. split; [lia|].
  intros H. destruct (Hc H) as (He & Hlen). rewrite (Hsame He) in Hextra.
  rewrite (Hsame He). split; [exact He|].
  apply (f_equal (@List.length Y)) in Hextra. rewrite length_app in Hextra. lia.
Qed.

Lemma link_receive (up : Readable Y) (received : nat) (written : list Y)
    (closed closed' : Prop) (unit : Y) :
  Inv.link up received written closed ->
  nth_error (pushed up) received = Some unit ->
  ~ closed' ->
  Inv.link up (S received) (written ++ [unit]) closed'.
Proof.
  intros (Hw & Hr & _) Hnth Hnot. unfold Inv.link.
  assert (Hlt : (received < List.length (pushed up))%nat).
  { apply nth_error_Some. congruence. }
  split; [|split; [lia | contradiction]].
  rewrite Hw. clear - Hnth. revert received Hnth.
  induction (pushed up) as [|y ys IH]; intros [|n] Hnth; cbn in Hnth; try discriminate.
  - now injection Hnth as ->.
  - cbn [firstn app]. now rewrite (IH n Hnth).
Qed.

Lemma link_end (up : Readable Y) (received : nat) (written : list Y) (closed closed' : Prop) :
  Inv.link up received written closed ->
  nth_error (pushed up) received = None ->
  ended up = true ->
  Inv.link up received written closed'.
Proof.
  intros (Hw & Hr & _) Hnth He. apply nth_error_None in Hnth.
  unfold Inv.link. repeat split; trivial. lia.
Qed.

Lemma link_keep (up : Readable Y) (received : nat) (written : list Y) (closed closed' : Prop) :
  Inv.link up received written closed ->
  (closed' -> closed) ->
  Inv.link up received written closed'.
Proof.
  intros (Hw & Hr & Hc) H. unfold Inv.link. auto.
Qed.

End LinkFacts.

Section StageSteps.

Variable batchSize : Z.
Hypothesis batchSize_positive : (1 <= batchSize)%Z.

(** A call on the parser only adds to what it has pushed, and changes
    nothing once its readable side is ended. *)
Lemma parser_step_out (more : Oracle) (p p' : Parser.State) (w : list string)
    (ev : Event string) :
  Inv.parser p w -> Parser.step more p ev = Some p' ->
  (exists extra, pushed (Parser.out p') = pushed (Parser.out p) ++ extra) /\
  (ended (Parser.out p) = true -> p' = p).
Proof.
  intros HI Hstep. pose proof (parser_inv_rest _ _ HI) as Hfree.
  destruct HI as (_ & _ & _ & _ & _ & Hend).
  destruct ev as [chunk| |]; cbn [Parser.step] in Hstep.
  - destruct (Parser.phase p) eqn:Ep; try discriminate. injection Hstep as <-.
    split; [|rewrite Hend; discriminate].
    unfold Parser.transform, push. destruct (Parser.toLines _). cbn. eauto.
  - injection Hstep as <-. unfold Parser.ready.
    destruct (Parser.phase p) eqn:Ep;
      try (split; [exists []; now rewrite app_nil_r | reflexivity]).
    split; [exists []; cbn; now rewrite app_nil_r | rewrite Hend; discriminate].
  - destruct (Parser.phase p) eqn:Ep; try discriminate. injection Hstep as <-.
    split; [|rewrite Hend; discriminate].
    exists []. rewrite app_nil_r.
    destruct (parser_flush_cases more p Hfree) as [[_ ->]|[_ ->]]; reflexivity.
Qed.

Lemma parser_step_closed (more : Oracle) (p p' : Parser.State) (ev : Event string) :
  Parser.step more p ev = Some p' -> Parser.phase p' = Closed ->
  Parser.phase p = Closed \/ ev = CallFlush.
Proof.
  intros Hstep Hc. destruct ev as [chunk| |]; cbn [Parser.step] in Hstep; [| |now right].
  - destruct (Parser.phase p); try discriminate. injection Hstep as <-.
    rewrite parser_transform_phase in Hc. destruct (more _); discriminate.
  - injection Hstep as <-. unfold Parser.ready in Hc.
    destruct (Parser.phase p) eqn:Ep; try (rewrite Ep in Hc; discriminate); auto.
    discriminate.
Qed.

Lemma push_batches_out (more : Oracle) (gas : nat) (s0 s' : Buffer.State)
    (numbers0 : list string) :
  Buffer.pushAccountNumbersInBatches gas batchSize more s0 numbers0 = Some s' ->
  (exists extra, pushed (Buffer.out s') = pushed (Buffer.out s0) ++ extra) /\
  Buffer.phase s' <> Closed.
Proof.
  unfold Buffer.pushAccountNumbersInBatches. intros H.
  destruct (Buffer.slicing gas batchSize more numbers0 true (Buffer.out s0))
    as [[[remaining answer] out']|] eqn:E; [|discriminate].
  apply (slicing_spec batchSize batchSize_positive) in E as (batches & Hp & _).
  destruct answer; injection H as <-; cbn; split; eauto; discriminate.
Qed.

(** A call on the buffer stage only adds to what it has pushed, and changes
    nothing once its readable side is ended. *)
Lemma buffer_step_out (more : Oracle) (gas : nat) (b b' : Buffer.State)
    (w : list (list string)) (ev : Event (list string)) :
  Inv.buffer batchSize b w -> Buffer.step gas batchSize more b ev = Some b' ->
  (exists extra, pushed (Buffer.out b') = pushed (Buffer.out b) ++ extra) /\
  (ended (Buffer.out b) = true -> b' = b).
Proof.
  intros HI Hstep. unfold Inv.buffer in HI.
  destruct ev as [chunk| |]; cbn [Buffer.step] in Hstep.
  - destruct (Buffer.phase b) eqn:Ep; try discriminate.
    destruct HI as (_ & _ & _ & _ & Hend). unfold Buffer.transform in Hstep.
    apply push_batches_out in Hstep as [H _]. split; [exact H | rewrite Hend; discriminate].
  - unfold Buffer.ready in Hstep.
    destruct (Buffer.phase b) eqn:Ep;
      try (injection Hstep as <-; split; [exists []; now rewrite app_nil_r | reflexivity]).
    destruct HI as (_ & _ & _ & Hend).
    apply push_batches_out in Hstep as [H _]. split; [exact H | rewrite Hend; discriminate].
  - destruct (Buffer.phase b) eqn:Ep; try discriminate.
    destruct HI as (_ & _ & _ & _ & Hend). injection Hstep as <-.
    split; [|rewrite Hend; discriminate].
    unfold Buffer.flush. destruct (0 <? _)%nat; cbn; [eauto|].
    exists []. now rewrite app_nil_r.
Qed.

Lemma buffer_step_closed (more : Oracle) (gas : nat) (b b' : Buffer.State)
    (ev : Event (list string)) :
  Buffer.step gas batchSize more b ev = Some b' -> Buffer.phase b' = Closed ->
  Buffer.phase b = Closed \/ ev = CallFlush.
Proof.
  intros Hstep Hc. destruct ev as [chunk| |]; cbn [Buffer.step] in Hstep; [| |now right].
  - destruct (Buffer.phase b); try discriminate. unfold Buffer.transform in Hstep.
    apply push_batches_out in Hstep as [_ H]. contradiction.
  - unfold Buffer.ready in Hstep.
    destruct (Buffer.phase b) eqn:Ep; try (injection Hstep as <-; congruence); auto.
    apply push_batches_out in Hstep as [_ H]. contradiction.
Qed.

Lemma printSql_not_closed (more : Oracle) (s : Backfill.State) (statements : list string) :
  Backfill.phase (Backfill.printSql more s statements) <> Closed.
Proof.
  unfold Backfill.printSql. destruct (Backfill.printing _ _ _ _ _ _ _) as [[[r|a] ?] ?];
    cbn; [discriminate|]. destruct a; discriminate.
Qed.

Lemma backfill_step_closed (more : Oracle) (f f' : Backfill.State)
    (ev : Event (list string)) :
  Backfill.step more f ev = Some f' -> Backfill.phase f' = Closed ->
  Backfill.phase f = Closed \/ ev = CallFlush.
Proof.
  intros Hstep Hc. destruct ev as [batch| |]; cbn [Backfill.step] in Hstep; [| |now right].
  - destruct (Backfill.phase f); try discriminate. injection Hstep as <-.
    now apply printSql_not_closed in Hc.
  - injection Hstep as <-. unfold Backfill.ready in Hc.
    destruct (Backfill.phase f) eqn:Ep; try (rewrite Ep in Hc; discriminate); auto.
    now apply printSql_not_closed in Hc.
Qed.

End StageSteps.

Section PipelineInvariant.

Variable c : Pipeline.Config.
Hypothesis batchSize_positive : (1 <= Pipeline.batchSize c)%Z.

(** A turn of the event loop is one call on one stage, which receives the
    next unit of the stage before it, or meets the end of its input, or is
    read; or it does nothing. *)
Lemma pipeline_step_cases (st st' : Pipeline.State) (t : Pipeline.Tick) :
  Pipeline.step c st t = Some st' ->
  st' = st \/
  (exists ev,
     Parser.step (Pipeline.parser_more c) (Pipeline.parser st) ev = Some (Pipeline.parser st') /\
     writes [ev] ++ Pipeline.source st' = Pipeline.source st /\
     (ev = CallFlush -> Pipeline.source st = []) /\
     Pipeline.received1 st' = Pipeline.received1 st /\
     Pipeline.buffer st' = Pipeline.buffer st /\
     Pipeline.received2 st' = Pipeline.received2 st /\
     Pipeline.backfill st' = Pipeline.backfill st) \/
  (exists ev,
     Buffer.step (Pipeline.gas c) (Pipeline.batchSize c) (Pipeline.buffer_more c)
       (Pipeline.buffer st) ev = Some (Pipeline.buffer st') /\
     Pipeline.source st' = Pipeline.source st /\
     Pipeline.parser st' = Pipeline.parser st /\
     Pipeline.received2 st' = Pipeline.received2 st /\
     Pipeline.backfill st' = Pipeline.backfill st /\
     ((exists unit, ev = CallTransform unit /\
         nth_error (pushed (Parser.out (Pipeline.parser st))) (Pipeline.received1 st)
           = Some unit /\
         Pipeline.received1 st' = S (Pipeline.received1 st)) \/
      (ev = CallFlush /\
         nth_error (pushed (Parser.out (Pipeline.parser st))) (Pipeline.received1 st) = None /\
         ended (Parser.out (Pipeline.parser st)) = true /\
         Pipeline.received1 st' = Pipeline.received1 st) \/
      (ev = CallRead /\ Pipeline.received1 st' = Pipeline.received1 st))) \/
  (exists ev,
     Backfill.step (Pipeline.backfill_more c) (Pipeline.backfill st) ev
       = Some (Pipeline.backfill st') /\
     Pipeline.source st' = Pipeline.source st /\
     Pipeline.parser st' = Pipeline.parser st /\
     Pipeline.received1 st' = Pipeline.received1 st /\
     Pipeline.buffer st' = Pipeline.buffer st /\
     ((exists unit, ev = CallTransform unit /\
         nth_error (pushed (Buffer.out (Pipeline.buffer st))) (Pipeline.received2 st)
           = Some unit /\
         Pipeline.received2 st' = S (Pipeline.received2 st)) \/
      (ev = CallFlush /\
         nth_error (pushed (Buffer.out (Pipeline.buffer st))) (Pipeline.received2 st) = None /\
         ended (Buffer.out (Pipeline.buffer st)) = true /\
         Pipeline.received2 st' = Pipeline.received2 st) \/
      (ev = CallRead /\ Pipeline.received2 st' = Pipeline.received2 st))).
Proof.
  intros Hstep. unfold Pipeline.step in Hstep.
  destruct (Pipeline.failure st); [injection Hstep as <-; now left|].
  destruct t as [[| |]|[| |]]; cbn [Pipeline.thrown Pipeline.advance Pipeline.pull] in Hstep.
  - destruct (Parser.phase (Pipeline.parser st)) eqn:Ep;
      try (injection Hstep as <-; now left).
    right; left. destruct (Pipeline.source st) as [|chunk source'] eqn:Es;
      injection Hstep as <-; cbn [Pipeline.thrown Pipeline.parser Pipeline.source Pipeline.received1
        Pipeline.buffer Pipeline.received2 Pipeline.backfill].
    + exists CallFlush. cbn [Parser.step writes app]. rewrite Ep. repeat split; trivial.
    + exists (CallTransform chunk). cbn [Parser.step writes app]. rewrite Ep.
      repeat split; trivial. discriminate.
  - destruct (Buffer.phase (Pipeline.buffer st)) eqn:Ep;
      try (injection Hstep as <-; now left).
    destruct (nth_error (pushed (Parser.out (Pipeline.parser st))) (Pipeline.received1 st))
      as [lines|] eqn:En.
    + destruct (Buffer.transform _ _ _ _ lines) as [buffer'|] eqn:Et; [|discriminate].
      injection Hstep as <-. right; right; left. exists (CallTransform lines).
      cbn [Pipeline.thrown Buffer.step Pipeline.parser Pipeline.source Pipeline.received1
             Pipeline.buffer Pipeline.received2 Pipeline.backfill]. rewrite Ep.
      repeat split; trivial. left. eauto.
    + destruct (ended (Parser.out (Pipeline.parser st))) eqn:Ee;
        injection Hstep as <-; [|now left].
      right; right; left. exists CallFlush.
      cbn [Pipeline.thrown Buffer.step Pipeline.parser Pipeline.source Pipeline.received1
             Pipeline.buffer Pipeline.received2 Pipeline.backfill]. rewrite Ep.
      repeat split; trivial. right; left. auto.
  - destruct (Backfill.phase (Pipeline.backfill st)) eqn:Ep;
      try (injection Hstep as <-; now left).
    destruct (nth_error (pushed (Buffer.out (Pipeline.buffer st))) (Pipeline.received2 st))
      as [numbers|] eqn:En.
    + injection Hstep as <-. right; right; right. exists (CallTransform numbers).
      cbn [Pipeline.thrown Backfill.step Pipeline.parser Pipeline.source Pipeline.received1
             Pipeline.buffer Pipeline.received2 Pipeline.backfill]. rewrite Ep.
      repeat split; trivial. left. eauto.
    + destruct (ended (Buffer.out (Pipeline.buffer st))) eqn:Ee;
        injection Hstep as <-; [|now left].
      right; right; right. exists CallFlush.
      cbn [Pipeline.thrown Backfill.step Pipeline.parser Pipeline.source Pipeline.received1
             Pipeline.buffer Pipeline.received2 Pipeline.backfill]. rewrite Ep.
      repeat split; trivial. right; left. auto.
  - injection Hstep as <-. right; left. exists CallRead.
    cbn [Pipeline.thrown Parser.step writes app Pipeline.parser Pipeline.source Pipeline.received1
           Pipeline.buffer Pipeline.received2 Pipeline.backfill].
    repeat split; trivial. discriminate.
  - destruct (Buffer.ready _ _ _ _) as [buffer'|] eqn:Er; [|discriminate].
    injection Hstep as <-. right; right; left. exists CallRead.
    cbn [Pipeline.thrown Buffer.step Pipeline.parser Pipeline.source Pipeline.received1
           Pipeline.buffer Pipeline.received2 Pipeline.backfill].
    repeat split; trivial. right; right. auto.
  - injection Hstep as <-. right; right; right. exists CallRead.
    cbn [Pipeline.thrown Backfill.step Pipeline.parser Pipeline.source Pipeline.received1
           Pipeline.buffer Pipeline.received2 Pipeline.backfill].
    repeat split; trivial. right; right. auto.
Qed.


Lemma pipeline_inv_start (chunks : list string) :
  Inv.pipeline c chunks (Pipeline.start c chunks).
Proof.
  unfold Inv.pipeline, Pipeline.start, Inv.link. cbn.
  split; [|split]; exists []; cbn; repeat split; trivial; discriminate.
Qed.

Lemma pipeline_inv_step (chunks : list string) (st st' : Pipeline.State) (t : Pipeline.Tick) :
  Inv.pipeline c chunks st -> Pipeline.step c st t = Some st' -> Inv.pipeline c chunks st'.
Proof.
  intros HI Hstep. pose proof HI as (P1 & P2 & P3).
  destruct P1 as (evs1 & Hrun1 & Hw1 & Hc1).
  destruct P2 as (evs2 & Hrun2 & Hl2).
  destruct P3 as (evs3 & Hrun3 & Hl3).
  apply pipeline_step_cases in Hstep
    as [->|[(ev & Hs & Hsrc & Hflush & Hr1 & Hb & Hr2 & Hf)
          |[(ev & Hs & Hsrc & Hp & Hr2 & Hf & Hcase)
           |(ev & Hs & Hsrc & Hp & Hr1 & Hb & Hcase)]]]; [exact HI| | |].
  - (* a call on the parser *)
    pose proof (parser_step_out _ _ _ _ _ (parser_reachable _ _ _ Hrun1) Hs) as (Hextra & Hsame).
    unfold Inv.pipeline. rewrite Hr1, Hb, Hr2, Hf. split; [|split].
    + exists (evs1 ++ [ev]). rewrite run_app, Hrun1, writes_app. cbn [run]. rewrite Hs.
      rewrite <- app_assoc, Hsrc. split; [reflexivity|]. split; [exact Hw1|].
      intros Hclosed. destruct (parser_step_closed _ _ _ _ Hs Hclosed) as [H|H].
      * rewrite (Hc1 H) in Hsrc. now apply app_eq_nil in Hsrc.
      * rewrite (Hflush H) in Hsrc. now apply app_eq_nil in Hsrc.
    + exists evs2. split; [exact Hrun2|].
      apply (link_upstream (Parser.out (Pipeline.parser st))); trivial.
      intros He. now rewrite (Hsame He).
    + exists evs3. split; [exact Hrun3 | exact Hl3].
  - (* a call on the buffer stage *)
    pose proof (buffer_step_out _ batchSize_positive _ _ _ _ _ _
                  (buffer_reachable _ batchSize_positive _ _ _ _ Hrun2) Hs) as (Hextra & Hsame).
    unfold Inv.pipeline. rewrite Hsrc, Hp, Hr2, Hf. split; [|split].
    + exists evs1. auto.
    + exists (evs2 ++ [ev]). rewrite run_app, Hrun2, writes_app. cbn [run]. rewrite Hs.
      split; [reflexivity|].
      destruct Hcase as [(unit & -> & Hnth & ->)|[(-> & Hnth & He & ->)|(-> & ->)]];
        cbn [writes]; rewrite ?app_nil_r.
      * apply (link_receive _ _ _ _ _ _ Hl2 Hnth). intros Hclosed.
        destruct (buffer_step_closed _ batchSize_positive _ _ _ _ _ Hs Hclosed) as [H|H];
          [|discriminate].
        cbn [Buffer.step] in Hs. rewrite H in Hs. discriminate.
      * apply (link_end _ _ _ _ _ Hl2 Hnth He).
      * apply (link_keep _ _ _ _ _ Hl2). intros Hclosed.
        destruct (buffer_step_closed _ batchSize_positive _ _ _ _ _ Hs Hclosed) as [H|H];
          [exact H | discriminate].
    + exists evs3. split; [exact Hrun3|].
      apply (link_upstream (Buffer.out (Pipeline.buffer st))); trivial.
      intros He. now rewrite (Hsame He).
  - (* a call on the back-fill stage *)
    unfold Inv.pipeline. rewrite Hsrc, Hp, Hr1, Hb. split; [|split].
    + exists evs1. auto.
    + exists evs2. auto.
    + exists (evs3 ++ [ev]). rewrite run_app, Hrun3, writes_app. cbn [run]. rewrite Hs.
      split; [reflexivity|].
      destruct Hcase as [(unit & -> & Hnth & ->)|[(-> & Hnth & He & ->)|(-> & ->)]];
        cbn [writes]; rewrite ?app_nil_r.
      * apply (link_receive _ _ _ _ _ _ Hl3 Hnth). intros Hclosed.
        destruct (backfill_step_closed _ _ _ _ Hs Hclosed) as [H|H]; [|discriminate].
        cbn [Backfill.step] in Hs. rewrite H in Hs. discriminate.
      * apply (link_end _ _ _ _ _ Hl3 Hnth He).
      * apply (link_keep _ _ _ _ _ Hl3). intros Hclosed.
        destruct (backfill_step_closed _ _ _ _ Hs Hclosed) as [H|H];
          [exact H | discriminate].
Qed.

Lemma pipeline_reachable (chunks : list string) (ts : list Pipeline.Tick)
    (st : Pipeline.State) :
  Pipeline.run c (Pipeline.start c chunks) ts = Some st -> Inv.pipeline c chunks st.
Proof.
  apply (pipeline_run_invariant c (Inv.pipeline c chunks)).
  - intros s t s'. apply pipeline_inv_step.
  - apply pipeline_inv_start.
Qed.

(** Safety: a resolved pipeline has handed to the output the line of every
    complete record of the input, in order, and the input ended with a
    separator or was empty. *)
Lemma pipeline_resolved_conserves (chunks : list string) (ts : list Pipeline.Tick)
    (st : Pipeline.State) :
  Pipeline.run c (Pipeline.start c chunks) ts = Some st ->
  Pipeline.outcome st = Pipeline.Resolved ->
  Pipeline.output_lines st = map Spec.line (fst (Parser.toLines (JS.join "" chunks))) /\
  snd (Parser.toLines (JS.join "" chunks)) = "".
Proof.
  intros Hrun Hres. apply pipeline_reachable in Hrun as (P1 & P2 & P3).
  destruct P1 as (evs1 & Hrun1 & Hw1 & Hc1).
  destruct P2 as (evs2 & Hrun2 & Hw2 & _ & Hd2).
  destruct P3 as (evs3 & Hrun3 & Hw3 & _ & Hd3).
  unfold Pipeline.outcome in Hres. destruct (Pipeline.failure st); [discriminate|].
  destruct (Parser.phase (Pipeline.parser st)) eqn:Ep; try discriminate.
  destruct (Buffer.phase (Pipeline.buffer st)) eqn:Eb; try discriminate.
  destruct (Backfill.phase (Pipeline.backfill st)) eqn:Ef; try discriminate.
  rewrite (Hc1 eq_refl), app_nil_r in Hw1.
  pose proof (parser_reachable _ _ _ Hrun1) as (Hlines & Hrest & _).
  rewrite Hw1 in Hlines. rewrite Hlines. cbn [fst snd]. split; [|now apply Hrest].
  destruct (Hd2 eq_refl) as (_ & Hall2). destruct (Hd3 eq_refl) as (_ & Hall3).
  rewrite Hall2, firstn_all in Hw2. rewrite Hall3, firstn_all in Hw3.
  pose proof (buffer_batches_shape _ _ _ _ _ batchSize_positive Hrun2) as (_ & _ & Hshape).
  destruct (Hshape Eb) as (_ & Hcat). rewrite Hw2 in Hcat.
  pose proof (backfill_reachable _ _ _ Hrun3) as (_ & _ & Hout & _).
  unfold Inv.held in Hout. rewrite Ef in Hout. cbn [map] in Hout.
  rewrite app_nil_r, Hw3, Hcat in Hout. exact Hout.
Qed.

End PipelineInvariant.

(** A record and its separator in front of a text. *)
Lemma toLines_record (record text : string) :
  Spec.separator_free record = true ->
  Parser.toLines (record ++ String JS.LF text) =
  (record :: fst (Parser.toLines text), snd (Parser.toLines text)).
Proof.
  intros Hr. induction record as [|ch record IH]; cbn [append].
  - rewrite toLines_cons. reflexivity.
  - cbn [Spec.separator_free] in Hr. apply andb_true_iff in Hr as [Hc Hr].
    apply negb_true_iff in Hc. now rewrite toLines_cons, Hc, (IH Hr).
Qed.

(** The text of terminated records splits back into these records. *)
Lemma toLines_lines (records : list string) :
  Forall (fun record => Spec.separator_free record = true) records ->
  Parser.toLines (JS.join "" (map Spec.line records)) = (records, "").
Proof.
  induction 1 as [|record records Hr _ IH]; [reflexivity|].
  cbn [map]. rewrite join_empty_cons. unfold Spec.line at 1.
  rewrite append_assoc. cbn [append]. now rewrite (toLines_record _ _ Hr), IH.
Qed.

(** * A schedule in which every ['ready'] arrives *)

Section FairSchedule.

Variable c : Pipeline.Config.
Hypothesis batchSize_positive : (1 <= Pipeline.batchSize c)%Z.







End FairSchedule.

(** * The claims about the stages *)

(** C4, chunk-boundary independence. Whenever two sequences of chunks spell
    the same text, writing either to the parser, whatever the answers of
    [push], is a run; both runs have pushed the same records in the same
    order and keep the same carry, and so has every other sequence of calls
    that writes the chunks of the second sequence. *)
Theorem chunk_boundary_independence :
  forall (chunks1 chunks2 : list string) (more1 more2 : Oracle),
    JS.join "" chunks1 = JS.join "" chunks2 ->
    exists s1 s2,
      run (Parser.step more1) Parser.init (Spec.feed 1 chunks1) = Some s1 /\
      run (Parser.step more2) Parser.init (Spec.feed 1 chunks2) = Some s2 /\
      Parser.records s1 = Parser.records s2 /\
      Parser.rest s1 = Parser.rest s2 /\
      forall more evs s,
        writes evs = chunks2 ->
        run (Parser.step more) Parser.init evs = Some s ->
        Parser.records s = Parser.records s1 /\ Parser.rest s = Parser.rest s1.
Proof.
  intros chunks1 chunks2 more1 more2 Htext.
  destruct (parser_feed more1 chunks1 Parser.init eq_refl) as (s1 & Hrun1 & _).
  destruct (parser_feed more2 chunks2 Parser.init eq_refl) as (s2 & Hrun2 & _).
  pose proof (parser_reachable _ _ _ Hrun1) as (H1 & _).
  pose proof (parser_reachable _ _ _ Hrun2) as (H2 & _).
  rewrite writes_feed in H1, H2. rewrite Htext in H1.
  exists s1, s2.
  split; [exact Hrun1|]. split; [exact Hrun2|]. split; [congruence|]. split; [congruence|].
  intros more evs s Hw Hrun.
  pose proof (parser_reachable _ _ _ Hrun) as (H3 & _). rewrite Hw in H3.
  split; congruence.
Qed.

Lemma chunk_boundary_independence_witness :
  exists s1 s2,
    run (Parser.step (fun _ => true)) Parser.init
      (Spec.feed 1 [Spec.line "1" ++ "2"; Spec.line "" ++ Spec.line "3"])%string = Some s1 /\
    run (Parser.step (fun _ => false)) Parser.init
      (Spec.feed 1 [Spec.line "1" ++ Spec.line "2" ++ Spec.line "3"])%string = Some s2 /\
    Parser.records s1 = Parser.records s2.
Proof.
  destruct (chunk_boundary_independence
              [Spec.line "1" ++ "2"; Spec.line "" ++ Spec.line "3"]%string
              [Spec.line "1" ++ Spec.line "2" ++ Spec.line "3"]%string
              (fun _ => true) (fun _ => false) eq_refl)
    as (s1 & s2 & H1 & H2 & H3 & _).
  exists s1, s2. auto.
Defined.

(** C9, the carry invariant. In every state the parser reaches, [rest]
    holds no record separator; so its end-of-input step pushes no record:
    it closes the stage when [rest] is empty and throws 'Left over data'
    otherwise. *)
Theorem carry_invariant :
  forall (more more' : Oracle) (evs : list (Event string)) (s : Parser.State),
    run (Parser.step more) Parser.init evs = Some s ->
    Spec.separator_free (Parser.rest s) = true /\
    pushed (Parser.out (Parser.flush more' s)) = pushed (Parser.out s) /\
    ((Parser.rest s = "" /\ Parser.phase (Parser.flush more' s) = Closed) \/
     (Parser.rest s <> "" /\ Parser.phase (Parser.flush more' s) = Failed "Left over data")).
Proof.
  intros more more' evs s Hrun.
  pose proof (parser_inv_rest _ _ (parser_reachable _ _ _ Hrun)) as Hfree.
  split; [exact Hfree|].
  destruct (parser_flush_cases more' s Hfree) as [[Hr ->]|[Hr ->]]; cbn; auto.
Qed.

Lemma carry_invariant_witness :
  Spec.separator_free
    (Parser.rest (Parser.transform (fun _ => true) Parser.init (Spec.line "1" ++ "2"))) = true.
Proof.
  exact (proj1 (carry_invariant (fun _ => true) (fun _ => true)
                  [CallTransform (Spec.line "1" ++ "2")%string] _ eq_refl)).
Defined.

(** C5, the batch boundary policy. With a batch size of at least 1, the
    buffer stage can be run to its end on any sequence of groups of records,
    whatever the answers of [push]; and however it is run, no batch it has
    pushed is empty, every batch pushed before it closes has exactly
    [batchSize] records, and once it is closed the lengths of its batches
    are [batchSize] repeated [N / batchSize] times, followed by
    [N mod batchSize] when that is not 0, where [N] is the number of
    records received; the batches are the records received, in order. *)
Theorem batch_boundary_policy :
  forall (batchSize : Z) (groups : list (list string)) (more : Oracle),
    (1 <= batchSize)%Z ->
    let size := Z.to_nat batchSize in
    let total := List.length (List.concat groups) in
    (exists s,
       run (Buffer.step (S total) batchSize more) Buffer.init
         (Spec.feed (S total) groups ++ [CallFlush]) = Some s /\
       Buffer.phase s = Closed) /\
    forall gas more' evs s,
      writes evs = groups ->
      run (Buffer.step gas batchSize more') Buffer.init evs = Some s ->
      Forall (fun batch => batch <> []) (pushed (Buffer.out s)) /\
      (Buffer.phase s <> Closed ->
       Forall (fun batch => List.length batch = size) (pushed (Buffer.out s))) /\
      (Buffer.phase s = Closed ->
       map (@List.length string) (pushed (Buffer.out s)) =
         repeat size (total / size) ++
           (if (total mod size =? 0)%nat then [] else [(total mod size)%nat]) /\
       List.concat (pushed (Buffer.out s)) = List.concat groups).
Proof.
  intros batchSize groups more HB size total. split.
  - destruct (buffer_feed batchSize HB more (S total) groups Buffer.init []
                (buffer_inv_init batchSize HB) eq_refl) as (s1 & Hrun & Hp & _).
    { cbn [app]. unfold total. lia. }
    rewrite run_app, Hrun. cbn [run Buffer.step]. rewrite Hp.
    eexists. split; [reflexivity|]. unfold Buffer.flush.
    destruct (0 <? _)%nat; reflexivity.
  - intros gas more' evs s Hw Hrun. unfold total. rewrite <- Hw.
    now apply (buffer_batches_shape batchSize gas more' evs s).
Qed.

Lemma batch_boundary_policy_witness :
  exists s,
    run (Buffer.step 6 2 (fun _ => false)) Buffer.init
      (Spec.feed 6 [["1"; "2"; "3"]; ["4"; "5"]] ++ [CallFlush]) = Some s /\
    Buffer.phase s = Closed.
Proof.
  apply (proj1 (batch_boundary_policy 2 [["1"; "2"; "3"]; ["4"; "5"]] (fun _ => false)
                  ltac:(lia))).
Defined.

(** C10, the empty group. A chunk with no record separator still makes the
    parser push one group, the empty list, whose [push] may be declined
    like any other; the buffer stage, when it is called with the empty
    group, does nothing but call back; and no batch the buffer stage has
    pushed is empty, so none reaches the back-fill stage. *)
Theorem empty_group_emission :
  forall (batchSize : Z) (gas gas' : nat) (more1 more2 : Oracle)
         (evs1 : list (Event string)) (evs2 : list (Event (list string)))
         (p : Parser.State) (b : Buffer.State) (chunk : string),
    (1 <= batchSize)%Z ->
    run (Parser.step more1) Parser.init evs1 = Some p ->
    Parser.phase p = Accepting ->
    Spec.separator_free chunk = true ->
    run (Buffer.step gas batchSize more2) Buffer.init evs2 = Some b ->
    (pushed (Parser.out (Parser.transform more1 p chunk)) = pushed (Parser.out p) ++ [[]] /\
     Parser.phase (Parser.transform more1 p chunk) =
       if more1 (List.length (pushed (Parser.out p))) then Accepting
       else AwaitingReadiness tt) /\
    (Buffer.phase b = Accepting ->
     Buffer.transform (S gas') batchSize more2 b [] = Some b) /\
    Forall (fun batch => batch <> []) (pushed (Buffer.out b)).
Proof.
  intros batchSize gas gas' more1 more2 evs1 evs2 p b chunk HB Hp Hphase Hchunk Hb.
  split; [|split].
  - pose proof (parser_inv_rest _ _ (parser_reachable _ _ _ Hp)) as Hfree.
    unfold Parser.transform, push. rewrite toLines_separator_free.
    + cbn [Parser.out Parser.phase pushed]. split; [reflexivity|]. now destruct (more1 _).
    + now apply separator_free_app.
  - intros Hacc. pose proof (buffer_reachable batchSize HB more2 gas evs2 b Hb) as HI.
    unfold Inv.buffer in HI. rewrite Hacc in HI. destruct HI as (_ & Hlt & _).
    unfold Buffer.transform, Buffer.pushAccountNumbersInBatches.
    cbn [Buffer.numbers Buffer.out Buffer.slicing]. rewrite app_nil_r.
    replace (batchSize <=? Z.of_nat (List.length (Buffer.numbers b)))%Z with false
      by (symmetry; apply Z.leb_gt; lia).
    cbn [andb negb]. destruct b as [numbers phase out]. cbn in *. now rewrite Hacc.
  - now apply (buffer_batches_shape batchSize gas more2 evs2 b).
Qed.

Lemma empty_group_emission_witness :
  pushed (Parser.out (Parser.transform (fun _ => false) Parser.init "12")) = [[]] /\
  Parser.phase (Parser.transform (fun _ => false) Parser.init "12") = AwaitingReadiness tt.
Proof.
  exact (proj1 (empty_group_emission 2 1 0 (fun _ => false) (fun _ => true) [] []
                  Parser.init Buffer.init "12" ltac:(lia) eq_refl eq_refl eq_refl eq_refl)).
Defined.

(** C6, resumption of the back-fill stage. Take a batch that arrives while
    the stage accepts, and any answers of [push]. If line [i] is the first
    declined one, the stage has then pushed the lines up to [i] and its
    listener holds exactly the lines after [i]; the next ['ready'] goes on
    from line [i+1]. After any number of [_read] calls the stage has pushed
    the first [k] lines of the batch, once each and in order, and its
    listener holds the lines from [k] on; and after as many [_read] calls
    as the batch has records, every line is pushed and the callback has
    run. *)
Theorem formatter_resumption :
  forall (more : Oracle) (s : Backfill.State) (batch : list string) (i n : nat),
    Backfill.phase s = Accepting ->
    let before := pushed (Backfill.out s) in
    let s1 := Backfill.transform more s batch in
    ((i < List.length batch)%nat ->
     (forall j, (j < i)%nat -> more (List.length before + j)%nat = true) ->
     more (List.length before + i)%nat = false ->
     Backfill.phase s1 = AwaitingReadiness (skipn (S i) batch) /\
     pushed (Backfill.out s1) = before ++ map Spec.line (firstn (S i) batch) /\
     exists k,
       (S i < k <= List.length batch \/ k = List.length batch)%nat /\
       pushed (Backfill.out (Backfill.ready more s1))
         = before ++ map Spec.line (firstn k batch)) /\
    (forall s',
       run (Backfill.step more) s1 (repeat CallRead n) = Some s' ->
       exists k,
         (k <= List.length batch)%nat /\
         pushed (Backfill.out s') = before ++ map Spec.line (firstn k batch) /\
         ((Backfill.phase s' = Accepting /\ k = List.length batch) \/
          (Backfill.phase s' = AwaitingReadiness (skipn k batch) /\ (0 < k)%nat))) /\
    (exists s',
       run (Backfill.step more) s1 (repeat CallRead (List.length batch)) = Some s' /\
       Backfill.phase s' = Accepting /\
       pushed (Backfill.out s') = before ++ map Spec.line batch).
Proof.
  intros more s batch i n Hacc before s1. split; [|split].
  - intros Hi Htrue Hfalse.
    assert (H0 : run (Backfill.step more) s1 (repeat CallRead 0) = Some s1) by reflexivity.
    apply backfill_batch_states in H0 as (k0 & Hk0 & Hp0 & _ & Hcase0).
    pose proof (printSql_spec more
      (Backfill.mkState Busy (Backfill.out s)
         (Backfill.journal s ++ [Backfill.Logged (Backfill.progress_message (List.length batch))]))
      batch) as H.
    cbn zeta in H. cbn [Backfill.out Backfill.journal] in H.
    fold (Backfill.transform more s batch) in H. fold s1 in H. fold before in H.
    destruct H as (_ & _ & _ & [(_ & _ & Hall)|(m & Hm & Hph & _ & Hmf & Hmt)]).
    { rewrite (Hall i Hi) in Hfalse. discriminate. }
    assert (m = i) as ->.
    { destruct (Nat.lt_trichotomy m i) as [Hlt|[Heq|Hgt]]; [|exact Heq|].
      - rewrite (Htrue m Hlt) in Hmf. discriminate.
      - rewrite (Hmt i Hgt) in Hfalse. discriminate. }
    destruct Hcase0 as [(Hph0 & _)|(Hph0 & _)]; [congruence|].
    assert (Hp1 : pushed (Backfill.out s1) = before ++ map Spec.line (firstn (S i) batch)).
    { assert (Hsk : skipn (S i) batch = skipn k0 batch) by congruence.
      assert (k0 = S i) as <-; [|exact Hp0].
      apply (f_equal (@List.length string)) in Hsk. rewrite !length_skipn in Hsk. lia. }
    split; [exact Hph|]. split; [exact Hp1|].
    assert (H1 : run (Backfill.step more) s1 (repeat CallRead 1) = Some (Backfill.ready more s1))
      by reflexivity.
    apply backfill_batch_states in H1 as (k1 & Hk1 & Hq & _ & Hcase1).
    exists k1. split; [|exact Hq].
    destruct Hcase1 as [(_ & ->)|(Hph1 & _)]; [now right|].
    unfold Backfill.ready in Hph1. fold s1 in Hph1. rewrite Hph in Hph1.
    match type of Hph1 with context [Backfill.printSql more ?s0 ?r] =>
      pose proof (printSql_spec more s0 r) as H end.
    cbn zeta in H. destruct H as (_ & _ & _ & [(H & _)|(m & Hm' & H & _)]); [congruence|].
    assert (Hsk : skipn (S m) (skipn (S i) batch) = skipn k1 batch) by congruence.
    rewrite skipn_skipn in Hsk. rewrite length_skipn in Hm'.
    apply (f_equal (@List.length string)) in Hsk. rewrite !length_skipn in Hsk.
    left. lia.
  - intros s' Hrun. apply backfill_batch_states in Hrun as (k & Hk & Hp & _ & Hcase).
    exists k. auto.
  - destruct (backfill_batch_settles more s batch (List.length batch) (le_n _))
      as (s' & Hrun & Hph).
    exists s'. split; [exact Hrun|]. split; [exact Hph|].
    apply backfill_batch_states in Hrun as (k & Hk & Hp & _ & [(_ & ->)|(Hph' & _)]);
      [|congruence].
    now rewrite firstn_all in Hp.
Qed.

Lemma formatter_resumption_witness :
  Backfill.phase
    (Backfill.transform (fun k => negb (k =? 1)%nat) Backfill.init ["1"; "2"; "3"])
    = AwaitingReadiness ["3"] /\
  pushed (Backfill.out
    (Backfill.transform (fun k => negb (k =? 1)%nat) Backfill.init ["1"; "2"; "3"]))
    = [Spec.line "1"; Spec.line "2"].
Proof.
  destruct (formatter_resumption (fun k => negb (k =? 1)%nat) Backfill.init
              ["1"; "2"; "3"] 1 1 eq_refl) as (H & _).
  destruct H as (H1 & H2 & _).
  - cbn. lia.
  - intros [|j] Hj; [reflexivity | lia].
  - reflexivity.
  - split; [exact H1 | exact H2].
Defined.

(** C7 as it is stated fails: for the batch of the single record 1, with
    every push accepted, the progress message is logged before the line is
    pushed, not after it. *)
Lemma formatter_write_then_report_counterexample :
  Backfill.journal (Backfill.transform (fun _ => true) Backfill.init ["1"])
    = [Backfill.Logged "Back-filling 1 account numbers"; Backfill.Pushed (Spec.line "1")] /\
  Backfill.journal (Backfill.transform (fun _ => true) Backfill.init ["1"])
    <> [Backfill.Pushed (Spec.line "1"); Backfill.Logged "Back-filling 1 account numbers"].
Proof.
  split; [reflexivity | discriminate].
Qed.

(** C7, amended: report, then write. For a batch that arrives while the
    stage accepts, the stage first gives the logger
    "Back-filling <count> account numbers", where <count> is the number of
    records of the batch, and then pushes one newline-terminated line per
    record, in record order: after any number of [_read] calls its journal
    is the one it had, the message, and the first [k] lines, with all the
    lines once its callback has run; and after as many [_read] calls as
    the batch has records the callback has run. *)
Theorem formatter_report_then_write :
  forall (more : Oracle) (s : Backfill.State) (batch : list string)
         (n : nat) (s' : Backfill.State),
    Backfill.phase s = Accepting ->
    run (Backfill.step more) (Backfill.transform more s batch) (repeat CallRead n) = Some s' ->
    (exists k,
       (k <= List.length batch)%nat /\
       Backfill.journal s' =
         Backfill.journal s ++
         Backfill.Logged
           ("Back-filling " ++ JS.template_number (List.length batch) ++ " account numbers")
           :: map (fun record => Backfill.Pushed (record ++ String JS.LF "")) (firstn k batch) /\
       (Backfill.phase s' = Accepting -> k = List.length batch)) /\
    (exists s'',
       run (Backfill.step more) (Backfill.transform more s batch)
         (repeat CallRead (List.length batch)) = Some s'' /\
       Backfill.phase s'' = Accepting /\
       Backfill.journal s'' = Backfill.journal s ++ Spec.batch_journal batch).
Proof.
  intros more s batch n s' Hacc Hrun. split.
  - apply backfill_batch_states in Hrun as (k & Hk & _ & Hj & Hcase).
    exists k. split; [exact Hk|]. split; [exact Hj|].
    intros Hph. destruct Hcase as [(_ & ->)|(Hph' & _)]; [reflexivity | congruence].
  - destruct (backfill_batch_settles more s batch (List.length batch) (le_n _))
      as (s'' & Hrun' & Hph).
    exists s''. split; [exact Hrun'|]. split; [exact Hph|].
    apply backfill_batch_states in Hrun' as (k & Hk & _ & Hj & [(_ & ->)|(Hph' & _)]);
      [|congruence].
    now rewrite firstn_all in Hj.
Qed.

Lemma formatter_report_then_write_witness :
  exists s'',
    run (Backfill.step (fun _ => false))
      (Backfill.transform (fun _ => false) Backfill.init ["1"; "2"])
      (repeat CallRead 2) = Some s'' /\
    Backfill.phase s'' = Accepting /\
    Backfill.journal s'' =
      [Backfill.Logged "Back-filling 2 account numbers";
       Backfill.Pushed (Spec.line "1"); Backfill.Pushed (Spec.line "2")].
Proof.
  exact (proj2 (formatter_report_then_write (fun _ => false) Backfill.init ["1"; "2"] 0
                  _ eq_refl eq_refl)).
Defined.

Lemma concat_firstn_prefix {A : Type} (k : nat) (l : list (list A)) :
  List.concat l = List.concat (firstn k l) ++ List.concat (skipn k l).
Proof. now rewrite <- concat_app, firstn_skipn. Qed.

Lemma buffer_pushed_prefix (batchSize : Z) (gas : nat) (more : Oracle)
    (evs : list (Event (list string))) (s : Buffer.State) :
  (1 <= batchSize)%Z ->
  run (Buffer.step gas batchSize more) Buffer.init evs = Some s ->
  exists later, List.concat (pushed (Buffer.out s)) ++ later = List.concat (writes evs).
Proof.
  intros HB Hrun.
  pose proof (buffer_reachable batchSize HB more gas evs s Hrun) as HI.
  unfold Inv.buffer in HI. destruct (Buffer.phase s); try contradiction.
  - destruct HI as (Hcat & _). eauto.
  - destruct HI as (Hcat & _). eauto.
  - destruct HI as (full & residual & Hpushed & Hcat & _). exists [].
    rewrite Hpushed, app_nil_r, concat_app, <- Hcat. f_equal.
    destruct residual; cbn; [reflexivity|]. now rewrite app_nil_r.
Qed.

(** The lines handed to the output are at every moment a prefix of the
    lines of the input. *)
Lemma pipeline_output_prefix (c : Pipeline.Config) (chunks : list string)
    (ts : list Pipeline.Tick) (st : Pipeline.State) :
  (1 <= Pipeline.batchSize c)%Z ->
  Pipeline.run c (Pipeline.start c chunks) ts = Some st ->
  exists missing,
    Pipeline.output_lines st ++ map Spec.line missing
    = map Spec.line (fst (Parser.toLines (JS.join "" chunks))).
Proof.
  intros HB Hrun.
  apply (pipeline_reachable c HB) in Hrun as (P1 & P2 & P3).
  destruct P1 as (evs1 & Hrun1 & Hw1 & _).
  destruct P2 as (evs2 & Hrun2 & Hw2 & _).
  destruct P3 as (evs3 & Hrun3 & Hw3 & _).
  pose proof (parser_reachable _ _ _ Hrun1) as (Hlines & _).
  destruct (buffer_pushed_prefix _ _ _ _ _ HB Hrun2) as (later & Hlater).
  pose proof (backfill_reachable _ _ _ Hrun3) as (_ & _ & Hout & _).
  rewrite <- Hw1, join_empty_app, toLines_app, Hlines. cbn [fst snd].
  unfold Parser.records.
  rewrite (concat_firstn_prefix (Pipeline.received1 st) (pushed (Parser.out (Pipeline.parser st)))).
  rewrite <- Hw2, <- Hlater.
  rewrite (concat_firstn_prefix (Pipeline.received2 st) (pushed (Buffer.out (Pipeline.buffer st)))).
  rewrite <- Hw3.
  exists (Inv.held (Pipeline.backfill st) ++
          List.concat (skipn (Pipeline.received2 st)
                         (pushed (Buffer.out (Pipeline.buffer st)))) ++
          later ++
          List.concat (skipn (Pipeline.received1 st)
                         (pushed (Parser.out (Pipeline.parser st)))) ++
          fst (Parser.toLines (Parser.rest (Pipeline.parser st) ++
                               JS.join "" (Pipeline.source st)))).
  unfold Pipeline.output_lines.
  rewrite (map_app Spec.line (Inv.held (Pipeline.backfill st))), app_assoc, Hout.
  rewrite <- map_app. f_equal. now rewrite <- !app_assoc.
Qed.

Lemma prefix_lines (front : list string) (missing records : list string) :
  front ++ map Spec.line missing = map Spec.line records ->
  front = map Spec.line (firstn (List.length front) records).
Proof.
  intros H. rewrite <- firstn_map, <- H, firstn_app, Nat.sub_diag, firstn_all.
  cbn [firstn]. now rewrite app_nil_r.
Qed.

(** * Declined pushes and calls of [_read] *)

Section BackpressureFacts.

Lemma run_events {X S : Type} (step : S -> Event X -> option S)
    (I : S -> list (Event X) -> Prop) :
  (forall s evs ev s', I s evs -> step s ev = Some s' -> I s' (evs ++ [ev])) ->
  forall evs s pre s', I s pre -> run step s evs = Some s' -> I s' (pre ++ evs).
Proof.
  intros Hstep. induction evs as [|ev evs IH]; intros s pre s' HI Hrun; cbn [run] in Hrun.
  - injection Hrun as <-. now rewrite app_nil_r.
  - destruct (step s ev) as [s1|] eqn:E; [|discriminate].
    specialize (IH s1 (pre ++ [ev]) s' (Hstep _ _ _ _ HI E) Hrun).
    now rewrite <- app_assoc in IH.
Qed.

Lemma reads_app {X : Type} (evs1 evs2 : list (Event X)) :
  Backpressure.reads (evs1 ++ evs2) = (Backpressure.reads evs1 + Backpressure.reads evs2)%nat.
Proof.
  induction evs1 as [|[chunk| |] evs1 IH]; cbn [Backpressure.reads app]; lia.
Qed.

Lemma declined_push {Y : Type} (more : Oracle) (out : Readable Y) (unit : Y) :
  Backpressure.declined more (List.length (pushed (snd (push more out unit))))
  = (Backpressure.declined more (List.length (pushed out))
     + (if fst (push more out unit) then 0 else 1))%nat.
Proof.
  unfold push. cbn [fst snd pushed]. rewrite length_app. cbn [List.length].
  rewrite Nat.add_1_r. reflexivity.
Qed.

(** The slicing loop makes a push only after an accepted one: it adds one
    declined push if it ends on a decline, and none otherwise. *)
Lemma slicing_declined (batchSize : Z) (more : Oracle) (gas : nat) :
  forall numbers answer out remaining answer' out',
    answer = negb (unacknowledged out) ->
    Buffer.slicing gas batchSize more numbers answer out = Some (remaining, answer', out') ->
    (Backpressure.declined more (List.length (pushed out'))
       + (if unacknowledged out then 1 else 0)
     = Backpressure.declined more (List.length (pushed out))
       + (if unacknowledged out' then 1 else 0))%nat.
Proof.
  induction gas as [|gas IH]; intros numbers answer out remaining answer' out' Ha H;
    cbn [Buffer.slicing] in H; [discriminate|].
  destruct ((batchSize <=? Z.of_nat (List.length numbers))%Z && answer) eqn:Econd.
  - apply andb_true_iff in Econd as [_ ->]. symmetry in Ha. apply negb_true_iff in Ha.
    pose proof (declined_push more out (JS.slice numbers 0 (Some batchSize))) as Hd.
    destruct (push more out (JS.slice numbers 0 (Some batchSize))) as [a1 out1] eqn:Ep.
    cbn [fst snd] in Hd.
    assert (Hu1 : unacknowledged out1 = negb a1).
    { unfold push in Ep. injection Ep as <- <-. cbn [unacknowledged]. now rewrite Ha. }
    apply IH in H; [|now rewrite Hu1, negb_involutive].
    rewrite Ha. rewrite Hu1 in H. destruct a1; cbn [negb] in H; lia.
  - injection H as <- <- <-. reflexivity.
Qed.

Lemma push_batches_declined (batchSize : Z) (more : Oracle) (gas : nat)
    (s0 s' : Buffer.State) (numbers0 : list string) :
  unacknowledged (Buffer.out s0) = false ->
  Buffer.pushAccountNumbersInBatches gas batchSize more s0 numbers0 = Some s' ->
  Backpressure.declined more (List.length (pushed (Buffer.out s')))
  = (Backpressure.declined more (List.length (pushed (Buffer.out s0)))
     + (if unacknowledged (Buffer.out s') then 1 else 0))%nat.
Proof.
  intros Hu H. unfold Buffer.pushAccountNumbersInBatches in H.
  destruct (Buffer.slicing gas batchSize more numbers0 true (Buffer.out s0))
    as [[[remaining answer] out']|] eqn:E; [|discriminate].
  apply slicing_declined in E; [|now rewrite Hu]. rewrite Hu in E.
  destruct answer; injection H as <-; cbn [Buffer.out]; lia.
Qed.

(** The printing loop returns at the first declined push. *)
Lemma printing_declined (more : Oracle) (statements : list string) (todo : nat) :
  forall i answer out journal e out' journal',
    unacknowledged out = false ->
    Backfill.printing todo statements i answer more out journal = (e, out', journal') ->
    Backpressure.declined more (List.length (pushed out'))
    = (Backpressure.declined more (List.length (pushed out))
       + (if unacknowledged out' then 1 else 0))%nat.
Proof.
  induction todo as [|todo IH]; intros i answer out journal e out' journal' Hu H;
    cbn [Backfill.printing] in H.
  - injection H as _ <- _. rewrite Hu. lia.
  - pose proof (declined_push more out
                  (nth i statements "undefined" ++ String JS.LF "")%string) as Hd.
    destruct (push more out (nth i statements "undefined" ++ String JS.LF "")%string)
      as [a1 out1] eqn:Ep.
    cbn [fst snd] in Hd.
    assert (Hu1 : unacknowledged out1 = negb a1).
    { unfold push in Ep. injection Ep as <- <-. cbn [unacknowledged]. now rewrite Hu. }
    destruct a1; cbn [negb] in H.
    + apply IH in H; [lia | exact Hu1].
    + injection H as _ <- _. rewrite Hu1. cbn [negb]. lia.
Qed.

Lemma printSql_declined (more : Oracle) (s : Backfill.State) (statements : list string) :
  unacknowledged (Backfill.out s) = false ->
  Backpressure.declined more
    (List.length (pushed (Backfill.out (Backfill.printSql more s statements))))
  = (Backpressure.declined more (List.length (pushed (Backfill.out s)))
     + (if unacknowledged (Backfill.out (Backfill.printSql more s statements))
        then 1 else 0))%nat.
Proof.
  intros Hu. unfold Backfill.printSql.
  destruct (Backfill.printing _ _ _ _ _ _ _) as [[e out'] journal'] eqn:E.
  apply printing_declined in E; [|exact Hu]. destruct e; exact E.
Qed.

End BackpressureFacts.

Lemma parser_respects (more : Oracle) (evs : list (Event string)) (s : Parser.State) :
  run (Parser.step more) Parser.init evs = Some s ->
  Backpressure.respected more (Parser.out s) evs.
Proof.
  intros Hrun.
  apply (run_events (Parser.step more)
           (fun s evs => Inv.parser s (writes evs)
                         /\ Backpressure.respected more (Parser.out s) evs))
    with (s := Parser.init) (pre := []) (evs := evs);
    [|split; [apply parser_inv_init | unfold Backpressure.respected; cbn; lia]|exact Hrun].
  clear. intros s evs ev s' [HI Hr] Hstep. rewrite writes_app.
  split; [now apply (parser_inv_step more s)|].
  pose proof (parser_inv_rest _ _ HI) as Hfree. destruct HI as (_ & _ & _ & _ & Hu & _).
  unfold Backpressure.respected in *. rewrite reads_app.
  destruct ev as [chunk| |]; cbn [Parser.step Backpressure.reads] in *.
  - destruct (Parser.phase s); try discriminate. injection Hstep as <-.
    unfold Parser.transform. destruct (Parser.toLines _) as [lines rem].
    pose proof (declined_push more (Parser.out s) lines) as Hd.
    destruct (push more (Parser.out s) lines) as [answer out'] eqn:Ep.
    cbn [fst snd Parser.out] in *.
    assert (Hu' : unacknowledged out' = negb answer).
    { unfold push in Ep. injection Ep as <- <-. cbn [unacknowledged]. now rewrite Hu. }
    rewrite Hu', Hd. rewrite Hu in Hr. destruct answer; cbn [negb]; lia.
  - injection Hstep as <-. unfold Parser.ready.
    destruct (Parser.phase s); cbn [Parser.out acknowledge pushed unacknowledged];
      destruct (unacknowledged (Parser.out s)); lia.
  - destruct (Parser.phase s); try discriminate. injection Hstep as <-.
    destruct (parser_flush_cases more s Hfree) as [[_ ->]|[_ ->]];
      cbn [Parser.out push_null pushed unacknowledged]; lia.
Qed.

Lemma buffer_respects (batchSize : Z) (gas : nat) (more : Oracle)
    (evs : list (Event (list string))) (s : Buffer.State) :
  (1 <= batchSize)%Z ->
  run (Buffer.step gas batchSize more) Buffer.init evs = Some s ->
  Backpressure.respected more (Buffer.out s) evs.
Proof.
  intros HB Hrun.
  apply (run_events (Buffer.step gas batchSize more)
           (fun s evs => Inv.buffer batchSize s (writes evs)
                         /\ Backpressure.respected more (Buffer.out s) evs))
    with (s := Buffer.init) (pre := []) (evs := evs);
    [|split; [now apply buffer_inv_init | unfold Backpressure.respected; cbn; lia]|exact Hrun].
  clear - HB. intros s evs ev s' [HI Hr] Hstep. rewrite writes_app.
  split; [now apply (buffer_inv_step batchSize HB more gas s)|].
  unfold Inv.buffer in HI. unfold Backpressure.respected in *. rewrite reads_app.
  destruct ev as [chunk| |]; cbn [Buffer.step Backpressure.reads] in *.
  - destruct (Buffer.phase s); try discriminate. destruct HI as (_ & _ & _ & Hu & _).
    unfold Buffer.transform in Hstep. apply push_batches_declined in Hstep; [|exact Hu].
    cbn [Buffer.out] in Hstep. rewrite Hu in Hr. lia.
  - unfold Buffer.ready in Hstep.
    destruct (Buffer.phase s);
      try (injection Hstep as <-; destruct (unacknowledged (Buffer.out s)); lia).
    apply push_batches_declined in Hstep; [|reflexivity].
    cbn [Buffer.out acknowledge pushed] in Hstep.
    destruct (unacknowledged (Buffer.out s)); lia.
  - destruct (Buffer.phase s); try discriminate. destruct HI as (_ & _ & _ & Hu & _).
    injection Hstep as <-. unfold Buffer.flush. rewrite Hu in Hr.
    destruct (0 <? List.length (Buffer.numbers s))%nat.
    + pose proof (declined_push more (Buffer.out s) (Buffer.numbers s)) as Hd.
      destruct (push more (Buffer.out s) (Buffer.numbers s)) as [answer out'] eqn:Ep.
      cbn [fst snd Buffer.out push_null pushed unacknowledged] in *.
      assert (Hu' : unacknowledged out' = negb answer).
      { unfold push in Ep. injection Ep as <- <-. cbn [unacknowledged]. now rewrite Hu. }
      rewrite Hd, Hu'. destruct answer; cbn [negb]; lia.
    + cbn [Buffer.out push_null pushed unacknowledged]. rewrite Hu. lia.
Qed.

Lemma backfill_respects (more : Oracle) (evs : list (Event (list string)))
    (s : Backfill.State) :
  run (Backfill.step more) Backfill.init evs = Some s ->
  Backpressure.respected more (Backfill.out s) evs.
Proof.
  intros Hrun.
  apply (run_events (Backfill.step more)
           (fun s evs => Inv.backfill s (writes evs)
                         /\ Backpressure.respected more (Backfill.out s) evs))
    with (s := Backfill.init) (pre := []) (evs := evs);
    [|split; [apply backfill_inv_init | unfold Backpressure.respected; cbn; lia]|exact Hrun].
  clear. intros s evs ev s' [HI Hr] Hstep. rewrite writes_app.
  split; [now apply (backfill_inv_step more s)|].
  destruct HI as (_ & _ & _ & _ & Hu & _).
  unfold Backpressure.respected in *. rewrite reads_app.
  destruct ev as [batch| |]; cbn [Backfill.step Backpressure.reads] in *.
  - destruct (Backfill.phase s); try discriminate. injection Hstep as <-.
    unfold Backfill.transform.
    match goal with |- context [Backfill.printSql more ?s0 batch] =>
      pose proof (printSql_declined more s0 batch Hu) as Hd end.
    cbn [Backfill.out] in Hd. rewrite Hd. rewrite Hu in Hr. lia.
  - injection Hstep as <-. unfold Backfill.ready.
    destruct (Backfill.phase s);
      try (destruct (unacknowledged (Backfill.out s)); lia).
    match goal with |- context [Backfill.printSql more ?s0 listener] =>
      pose proof (printSql_declined more s0 listener eq_refl) as Hd end.
    cbn [Backfill.out acknowledge pushed] in Hd. rewrite Hd.
    destruct (unacknowledged (Backfill.out s)); lia.
  - destruct (Backfill.phase s); try discriminate. injection Hstep as <-.
    cbn [Backfill.flush Backfill.out push_null pushed unacknowledged]. lia.
Qed.

(** * The stages under node's handshake *)

Lemma slicing_pushes (batchSize : Z) (more : Oracle) (gas : nat) :
  forall numbers answer out remaining answer' out',
    Buffer.slicing gas batchSize more numbers answer out = Some (remaining, answer', out') ->
    (List.length (pushed out) <= List.length (pushed out'))%nat /\
    (answer = true -> answer' = false ->
     (List.length (pushed out) < List.length (pushed out'))%nat).
Proof.
  induction gas as [|gas IH]; intros numbers answer out remaining answer' out' H;
    cbn [Buffer.slicing] in H; [discriminate|].
  destruct ((batchSize <=? Z.of_nat (List.length numbers))%Z && answer) eqn:Econd.
  - unfold push in H. apply IH in H as [H _]. cbn [pushed] in H. rewrite length_app in H.
    cbn [List.length] in H. split; [lia | intros _ _; lia].
  - injection H as <- <- <-. split; [lia | congruence].
Qed.

(** A slicing loop that ends waiting has pushed. *)
Lemma push_batches_waiting (batchSize : Z) (more : Oracle) (gas : nat)
    (s0 s' : Buffer.State) (numbers0 : list string) :
  Buffer.pushAccountNumbersInBatches gas batchSize more s0 numbers0 = Some s' ->
  (List.length (pushed (Buffer.out s0)) <= List.length (pushed (Buffer.out s')))%nat /\
  (forall k, Buffer.phase s' = AwaitingReadiness k ->
   (List.length (pushed (Buffer.out s0)) < List.length (pushed (Buffer.out s')))%nat).
Proof.
  intros H. unfold Buffer.pushAccountNumbersInBatches in H.
  destruct (Buffer.slicing gas batchSize more numbers0 true (Buffer.out s0))
    as [[[remaining answer] out']|] eqn:E; [|discriminate].
  apply slicing_pushes in E as [Hle Hlt].
  destruct answer; injection H as <-; cbn [Buffer.out Buffer.phase]; (split; [exact Hle|]).
  - discriminate.
  - intros k _. now apply Hlt.
Qed.

Lemma printing_pushes (more : Oracle) (statements : list string) (todo : nat) :
  forall i answer out journal e out' journal',
    Backfill.printing todo statements i answer more out journal = (e, out', journal') ->
    (List.length (pushed out) <= List.length (pushed out'))%nat /\
    (forall k, e = Backfill.Returned k ->
     (List.length (pushed out) < List.length (pushed out'))%nat).
Proof.
  induction todo as [|todo IH]; intros i answer out journal e out' journal' H;
    cbn [Backfill.printing] in H.
  - injection H as <- <- _. split; [lia | discriminate].
  - unfold push in H. destruct (more (List.length (pushed out))); cbn [negb] in H.
    + apply IH in H as [H _]. cbn [pushed] in H. rewrite length_app in H.
      cbn [List.length] in H. split; [lia | intros _ _; lia].
    + injection H as _ <- _. cbn [pushed]. rewrite length_app. cbn [List.length].
      split; [lia | intros _ _; lia].
Qed.

(** A printing loop that ends waiting has pushed. *)
Lemma printSql_waiting (more : Oracle) (s : Backfill.State) (statements : list string) :
  (List.length (pushed (Backfill.out s))
   <= List.length (pushed (Backfill.out (Backfill.printSql more s statements))))%nat /\
  (forall k, Backfill.phase (Backfill.printSql more s statements) = AwaitingReadiness k ->
   (List.length (pushed (Backfill.out s))
    < List.length (pushed (Backfill.out (Backfill.printSql more s statements))))%nat).
Proof.
  unfold Backfill.printSql.
  destruct (Backfill.printing _ _ _ _ _ _ _) as [[e out'] journal'] eqn:E.
  apply printing_pushes in E as [Hle Hlt].
  destruct e as [remaining|answer]; cbn [Backfill.out Backfill.phase]; (split; [exact Hle|]).
  - intros k _. now apply (Hlt remaining).
  - destruct answer; discriminate.
Qed.

Lemma parser_flush_not_waiting (more : Oracle) (s : Parser.State) (k : unit) :
  Parser.phase (Parser.flush more s) <> AwaitingReadiness k.
Proof.
  unfold Parser.flush, push. destruct (0 <? _)%nat; [|discriminate].
  destruct (Parser.toLines _). destruct (negb _); discriminate.
Qed.

Lemma buffer_flush_closed (more : Oracle) (s : Buffer.State) :
  Buffer.phase (Buffer.flush more s) = Closed.
Proof. unfold Buffer.flush, push. now destruct (0 <? _)%nat. Qed.

Section NodeFacts.

Variable c : Pipeline.Config.

Lemma stage_eq_dec (a b : Pipeline.Stage) : {a = b} + {a <> b}.
Proof. decide equality. Qed.

Lemma tick_eq_dec (a b : Pipeline.Tick) : {a = b} + {a <> b}.
Proof. decide equality; apply stage_eq_dec. Qed.

Lemma side_update_same (s : Node.State) (stage : Pipeline.Stage) (p : Pipeline.State)
    (sd : Node.Side) :
  Node.side (Node.update s stage p sd) stage = sd.
Proof. now destruct stage. Qed.

Lemma side_update_other (s : Node.State) (stage other : Pipeline.Stage)
    (p : Pipeline.State) (sd : Node.Side) :
  other <> stage -> Node.side (Node.update s stage p sd) other = Node.side s other.
Proof. intros H. destruct stage, other; try reflexivity; now contradiction H. Qed.

Lemma pipeline_update (s : Node.State) (stage : Pipeline.Stage) (p : Pipeline.State)
    (sd : Node.Side) :
  Node.pipeline (Node.update s stage p sd) = p.
Proof. now destruct stage. Qed.

(** A call on one stage leaves the other stages as they are. *)
Lemma advance_others (stage other : Pipeline.Stage) (p p' : Pipeline.State) :
  Pipeline.advance c p stage = Some p' -> other <> stage ->
  Node.pushes p' other = Node.pushes p other /\ Node.waiting p' other = Node.waiting p other.
Proof.
  intros H Hne. unfold Pipeline.advance in H.
  destruct stage, other; try congruence; break_match_in H; try discriminate;
    injection H as <-; split; reflexivity.
Qed.

Lemma pull_others (stage other : Pipeline.Stage) (p p' : Pipeline.State) :
  Pipeline.pull c p stage = Some p' -> other <> stage ->
  Node.pushes p' other = Node.pushes p other /\ Node.waiting p' other = Node.waiting p other.
Proof.
  intros H Hne. unfold Pipeline.pull in H.
  destruct stage, other; try congruence; break_match_in H; try discriminate;
    injection H as <-; split; reflexivity.
Qed.

(** A stage that waits after a call on its writable side has pushed during
    the call, or it was waiting and the call was not made. *)
Lemma advance_waiting (stage : Pipeline.Stage) (p p' : Pipeline.State) :
  Pipeline.advance c p stage = Some p' -> Node.waiting p' stage = true ->
  (Node.pushes p stage < Node.pushes p' stage)%nat \/
  (Node.waiting p stage = true /\ Node.pushes p' stage = Node.pushes p stage).
Proof.
  intros H Hw. unfold Pipeline.advance in H. destruct stage.
  - destruct (Parser.phase (Pipeline.parser p)) eqn:Ep;
      try (injection H as <-; right; unfold Node.waiting in *; rewrite Ep in *;
           split; [assumption || reflexivity | reflexivity]).
    destruct (Pipeline.source p) as [|chunk source']; injection H as <-;
      unfold Node.waiting, Node.pushes in *; cbn [Pipeline.parser] in *.
    + destruct (Parser.phase (Parser.flush _ _)) eqn:Ef; try discriminate.
      now apply parser_flush_not_waiting in Ef.
    + left. unfold Parser.transform, push. destruct (Parser.toLines _).
      cbn [Parser.out pushed]. rewrite length_app. cbn [List.length]. lia.
  - destruct (Buffer.phase (Pipeline.buffer p)) eqn:Ep;
      try (injection H as <-; right; unfold Node.waiting in *; rewrite Ep in *;
           split; [assumption || reflexivity | reflexivity]).
    destruct (nth_error _ _) as [lines|].
    + destruct (Buffer.transform _ _ _ _ _) as [buffer'|] eqn:Et; [|discriminate].
      injection H as <-. unfold Node.waiting, Node.pushes in *. cbn [Pipeline.buffer] in *.
      left. unfold Buffer.transform in Et. apply push_batches_waiting in Et as [_ Et].
      cbn [Buffer.out] in Et. destruct (Buffer.phase buffer') eqn:Ep'; try discriminate.
      now apply (Et listener).
    + destruct (ended _); injection H as <-; unfold Node.waiting in *;
        cbn [Pipeline.buffer] in *.
      * rewrite buffer_flush_closed in Hw. discriminate.
      * rewrite Ep in Hw. discriminate.
  - destruct (Backfill.phase (Pipeline.backfill p)) eqn:Ep;
      try (injection H as <-; right; unfold Node.waiting in *; rewrite Ep in *;
           split; [assumption || reflexivity | reflexivity]).
    destruct (nth_error _ _) as [numbers|].
    + injection H as <-. unfold Node.waiting, Node.pushes in *. cbn [Pipeline.backfill] in *.
      left. unfold Backfill.transform in *.
      destruct (Backfill.phase (Backfill.printSql _ _ _)) eqn:Ep'; try discriminate.
      apply printSql_waiting in Ep'. exact Ep'.
    + destruct (ended _); injection H as <-; unfold Node.waiting in *;
        cbn [Pipeline.backfill] in *; [discriminate|].
      rewrite Ep in Hw. discriminate.
Qed.

(** A stage that waits after [_read] has pushed during the call. *)
Lemma pull_waiting (stage : Pipeline.Stage) (p p' : Pipeline.State) :
  Pipeline.pull c p stage = Some p' -> Node.waiting p' stage = true ->
  (Node.pushes p stage < Node.pushes p' stage)%nat.
Proof.
  intros H Hw. unfold Pipeline.pull in H. destruct stage.
  - injection H as <-. unfold Node.waiting, Node.pushes in *. cbn [Pipeline.parser] in *.
    unfold Parser.ready in Hw. destruct (Parser.phase (Pipeline.parser p)) eqn:Ep;
      try rewrite Ep in Hw; discriminate.
  - destruct (Buffer.ready _ _ _ _) as [buffer'|] eqn:Er; [|discriminate].
    injection H as <-. unfold Node.waiting, Node.pushes in *. cbn [Pipeline.buffer] in *.
    unfold Buffer.ready in Er. destruct (Buffer.phase (Pipeline.buffer p)) eqn:Ep;
      try (injection Er as <-; rewrite Ep in Hw; discriminate).
    apply push_batches_waiting in Er as [_ Er]. cbn [Buffer.out acknowledge pushed] in Er.
    destruct (Buffer.phase buffer') eqn:Ep'; try discriminate. now apply (Er listener0).
  - injection H as <-. unfold Node.waiting, Node.pushes in *. cbn [Pipeline.backfill] in *.
    unfold Backfill.ready in *. destruct (Backfill.phase (Pipeline.backfill p)) eqn:Ep;
      try (rewrite Ep in Hw; discriminate).
    destruct (Backfill.phase (Backfill.printSql _ _ _)) eqn:Ep'; try discriminate.
    apply printSql_waiting in Ep'. exact Ep'.
Qed.

Lemma handshake_start (chunks : list string) : Inv.handshake (Node.start c chunks).
Proof. intros stage _. now destruct stage. Qed.

Lemma handshake_step (s s' : Node.State) (t : Pipeline.Tick) :
  Inv.handshake s -> Node.step c s t = Some s' -> Inv.handshake s'.
Proof.
  intros HI H. unfold Node.step in H.
  destruct (Pipeline.failure (Node.pipeline s)); [now injection H as <-|].
  destruct t as [stage|stage].
  - destruct (Node.kept (Node.side s stage)) eqn:Ek; [now injection H as <-|].
    destruct (Pipeline.advance c (Node.pipeline s) stage) as [p'|] eqn:Ea; [|discriminate].
    injection H as <-. intros other Hw. rewrite pipeline_update in Hw.
    destruct (stage_eq_dec other stage) as [->|Hne].
    + rewrite side_update_same.
      destruct (advance_waiting _ _ _ Ea Hw) as [Hlt|[Hw0 Heq]].
      * replace (Node.pushes p' stage =? Node.pushes (Node.pipeline s) stage)%nat
          with false by (symmetry; apply Nat.eqb_neq; lia).
        now rewrite andb_false_r.
      * now rewrite (HI _ Hw0).
    + rewrite side_update_other by exact Hne. apply HI.
      now rewrite <- (proj2 (advance_others _ _ _ _ Ea Hne)).
  - destruct (Node.reading (Node.side s stage)) eqn:Er; [now injection H as <-|].
    destruct (Pipeline.pull c (Node.pipeline s) stage) as [p'|] eqn:Ea; [|discriminate].
    injection H as <-. intros other Hw. rewrite pipeline_update in Hw.
    destruct (stage_eq_dec other stage) as [->|Hne].
    + rewrite side_update_same. pose proof (pull_waiting _ _ _ Ea Hw) as Hlt.
      replace (Node.pushes p' stage =? Node.pushes (Node.pipeline s) stage)%nat
        with false by (symmetry; apply Nat.eqb_neq; lia).
      now rewrite andb_false_r.
    + rewrite side_update_other by exact Hne. apply HI.
      now rewrite <- (proj2 (pull_others _ _ _ _ Ea Hne)).
Qed.

Lemma node_run_invariant (I : Node.State -> Prop) :
  (forall s t s', I s -> Node.step c s t = Some s' -> I s') ->
  forall ts s s', I s -> Node.run c s ts = Some s' -> I s'.
Proof.
  intros Hstep. induction ts as [|t ts IH]; intros s s' HI Hrun; cbn [Node.run] in Hrun.
  - now injection Hrun as <-.
  - destruct (Node.step c s t) as [s1|] eqn:E; [|discriminate].
    apply (IH s1 s' (Hstep _ _ _ HI E) Hrun).
Qed.

Lemma handshake_reachable (chunks : list string) (ts : list Pipeline.Tick) (s : Node.State) :
  Node.run c (Node.start c chunks) ts = Some s -> Inv.handshake s.
Proof.
  apply (node_run_invariant Inv.handshake).
  - intros s0 t s0'. apply handshake_step.
  - apply handshake_start.
Qed.

Lemma pipeline_step_thrown (p p' : Pipeline.State) (t : Pipeline.Tick) :
  Pipeline.step c p t = Some p' -> Pipeline.thrown p' = Pipeline.thrown p.
Proof.
  intros H. unfold Pipeline.step, Pipeline.advance, Pipeline.pull in H.
  destruct (Pipeline.failure p); [now injection H as <-|].
  destruct t as [[| |]|[| |]]; break_match_in H; try discriminate; now injection H as <-.
Qed.

(** Every turn under the handshake is a turn of [Pipeline], or no turn. *)
Lemma node_step_pipeline (s s' : Node.State) (t : Pipeline.Tick) :
  Node.step c s t = Some s' ->
  Node.pipeline s' = Node.pipeline s \/
  Pipeline.step c (Node.pipeline s) t = Some (Node.pipeline s').
Proof.
  intros H. unfold Node.step in H. unfold Pipeline.step.
  destruct (Pipeline.failure (Node.pipeline s)); [injection H as <-; now left|].
  destruct t as [stage|stage].
  - destruct (Node.kept _); [injection H as <-; now left|].
    destruct (Pipeline.advance c (Node.pipeline s) stage) as [p'|]; [|discriminate].
    injection H as <-. right. now rewrite pipeline_update.
  - destruct (Node.reading _); [injection H as <-; now left|].
    destruct (Pipeline.pull c (Node.pipeline s) stage) as [p'|]; [|discriminate].
    injection H as <-. right. now rewrite pipeline_update.
Qed.

Lemma node_run_pipeline (ts : list Pipeline.Tick) :
  forall s s', Node.run c s ts = Some s' ->
  exists ts', Pipeline.run c (Node.pipeline s) ts' = Some (Node.pipeline s').
Proof.
  induction ts as [|t ts IH]; intros s s' H; cbn [Node.run] in H.
  - injection H as <-. now exists [].
  - destruct (Node.step c s t) as [s1|] eqn:E; [|discriminate].
    destruct (IH _ _ H) as (ts' & Hrun).
    destruct (node_step_pipeline _ _ _ E) as [Heq|Hstep].
    + exists ts'. now rewrite <- Heq.
    + exists (t :: ts'). cbn [Pipeline.run]. now rewrite Hstep.
Qed.

Lemma node_start_pipeline (chunks : list string) (ts : list Pipeline.Tick) (s : Node.State) :
  Node.run c (Node.start c chunks) ts = Some s ->
  exists ts', Pipeline.run c (Pipeline.start c chunks) ts' = Some (Node.pipeline s).
Proof. apply node_run_pipeline. Qed.

(** A stage with a kept callback and a call of [_read] outstanding is never
    called again: the back-fill stage. *)
Lemma backfill_frozen_step (s s' : Node.State) (t : Pipeline.Tick) :
  Node.backfill_side s = Node.mkSide true true ->
  Node.step c s t = Some s' ->
  Node.backfill_side s' = Node.backfill_side s /\
  Pipeline.backfill (Node.pipeline s') = Pipeline.backfill (Node.pipeline s).
Proof.
  intros Hf H. unfold Node.step in H.
  destruct (Pipeline.failure (Node.pipeline s)); [injection H as <-; now split|].
  destruct t as [[| |]|[| |]]; cbn [Node.side] in H; try rewrite Hf in H;
    cbn [Node.kept Node.reading] in H; try (injection H as <-; now split);
    break_match_in H; try discriminate; injection H as <-;
    cbn [Node.update Node.backfill_side Node.pipeline]; (split; [reflexivity|]);
    try (split; reflexivity); try reflexivity;
    match goal with
    | E : Pipeline.advance _ _ _ = Some _ |- _ => unfold Pipeline.advance in E; rename E into Ep
    | E : Pipeline.pull _ _ _ = Some _ |- _ => unfold Pipeline.pull in E; rename E into Ep
    end;
    break_match_in Ep; try discriminate; now injection Ep as <-.
Qed.

Lemma backfill_frozen_run (ts : list Pipeline.Tick) :
  forall s s',
    Node.backfill_side s = Node.mkSide true true ->
    Node.run c s ts = Some s' ->
    Pipeline.backfill (Node.pipeline s') = Pipeline.backfill (Node.pipeline s).
Proof.
  induction ts as [|t ts IH]; intros s s' Hf H; cbn [Node.run] in H.
  - now injection H as <-.
  - destruct (Node.step c s t) as [s1|] eqn:E; [|discriminate].
    destruct (backfill_frozen_step _ _ _ Hf E) as [Hside Hstate].
    rewrite <- Hstate. apply IH; [now rewrite Hside | exact H].
Qed.

(** A call on another stage leaves the parser and the input as they are. *)
Lemma parser_other_step (s s' : Node.State) (t : Pipeline.Tick) :
  t <> Pipeline.Advance Pipeline.ParserStage ->
  t <> Pipeline.Pull Pipeline.ParserStage ->
  Node.step c s t = Some s' ->
  Node.parser_side s' = Node.parser_side s /\
  Pipeline.parser (Node.pipeline s') = Pipeline.parser (Node.pipeline s) /\
  Pipeline.source (Node.pipeline s') = Pipeline.source (Node.pipeline s).
Proof.
  intros H1 H2 H. unfold Node.step in H.
  destruct (Pipeline.failure (Node.pipeline s)); [injection H as <-; now repeat split|].
  destruct t as [[| |]|[| |]]; try congruence; cbn [Node.side] in H;
    break_match_in H; try discriminate; injection H as <-;
    cbn [Node.update Node.parser_side Node.pipeline]; (split; [reflexivity|]);
    try (split; reflexivity);
    match goal with
    | E : Pipeline.advance _ _ _ = Some _ |- _ => unfold Pipeline.advance in E; rename E into Ep
    | E : Pipeline.pull _ _ _ = Some _ |- _ => unfold Pipeline.pull in E; rename E into Ep
    end;
    break_match_in Ep; try discriminate; now injection Ep as <-.
Qed.

Lemma node_step_thrown (s s' : Node.State) (t : Pipeline.Tick) :
  Node.step c s t = Some s' ->
  Pipeline.thrown (Node.pipeline s') = Pipeline.thrown (Node.pipeline s).
Proof.
  intros H. destruct (node_step_pipeline _ _ _ H) as [->|Hstep]; [reflexivity|].
  now apply pipeline_step_thrown in Hstep.
Qed.

(** Once the pipeline has failed nothing is called. *)
Lemma node_failed_run (ts : list Pipeline.Tick) (s s' : Node.State) (error : string) :
  Pipeline.failure (Node.pipeline s) = Some error ->
  Node.run c s ts = Some s' -> s' = s.
Proof.
  intros Hf. induction ts as [|t ts IH]; cbn [Node.run]; [congruence|].
  unfold Node.step. rewrite Hf. exact IH.
Qed.

(** A back-fill stage whose listener holds no line calls back without
    pushing when [_read] is called, and node keeps the callback unless the
    buffer stage has ended. *)
Lemma backfill_silent_callback (s s' : Node.State) :
  Pipeline.failure (Node.pipeline s) = None ->
  Node.backfill_side s = Node.idle ->
  Backfill.phase (Pipeline.backfill (Node.pipeline s)) = AwaitingReadiness [] ->
  ended (Buffer.out (Pipeline.buffer (Node.pipeline s))) = false ->
  Node.step c s (Pipeline.Pull Pipeline.BackfillStage) = Some s' ->
  Node.backfill_side s' = Node.mkSide true true /\
  Backfill.phase (Pipeline.backfill (Node.pipeline s')) = Accepting /\
  Pipeline.output_lines (Node.pipeline s') = Pipeline.output_lines (Node.pipeline s).
Proof.
  intros Hf Hside Hp Hup H. unfold Node.step in H. rewrite Hf in H.
  cbn [Node.side] in H. rewrite Hside in H. cbn [Node.idle Node.reading Pipeline.pull] in H.
  injection H as <-. cbn [Node.update Node.backfill_side Node.pipeline].
  unfold Node.pushes, Node.waiting, Node.upstream_ended, Pipeline.output_lines.
  cbn [Pipeline.backfill Pipeline.buffer]. unfold Backfill.ready. rewrite Hp, Hup.
  cbn. now rewrite Nat.eqb_refl.
Qed.

(** A stalled parser stays stalled, and reads no further chunk: while it
    waits, [transform] is not called; when [_read] is called the listener
    calls back without pushing and node keeps the callback; after that
    neither [transform] nor [_read] is called. *)
Lemma parser_stalled_step (s s' : Node.State) (t : Pipeline.Tick) :
  Inv.stalled_parser s -> Node.step c s t = Some s' ->
  Inv.stalled_parser s' /\
  Pipeline.source (Node.pipeline s') = Pipeline.source (Node.pipeline s).
Proof.
  intros (Hthrown & Hsource & Hcase) H.
  pose proof (node_step_thrown _ _ _ H) as Hthrown'. rewrite Hthrown in Hthrown'.
  assert (Hgoal : Pipeline.source (Node.pipeline s') = Pipeline.source (Node.pipeline s) ->
                  ((exists k, Parser.phase (Pipeline.parser (Node.pipeline s'))
                              = AwaitingReadiness k) /\
                   Node.parser_side s' = Node.idle \/
                   Parser.phase (Pipeline.parser (Node.pipeline s')) = Accepting /\
                   Node.parser_side s' = Node.mkSide true true) ->
                  Inv.stalled_parser s' /\
                  Pipeline.source (Node.pipeline s') = Pipeline.source (Node.pipeline s)).
  { intros Hs Hc. split; [|exact Hs]. split; [exact Hthrown'|]. split; [now rewrite Hs|exact Hc]. }
  destruct (tick_eq_dec t (Pipeline.Advance Pipeline.ParserStage)) as [->|Hna];
    [|destruct (tick_eq_dec t (Pipeline.Pull Pipeline.ParserStage)) as [->|Hnp]].
  - (* transform or flush is not called on a parser that has not called back *)
    unfold Node.step in H. destruct (Pipeline.failure (Node.pipeline s));
      [injection H as <-; now apply Hgoal|].
    cbn [Node.side] in H. destruct Hcase as [[(k & Hp) Hside]|[Hp Hside]]; rewrite Hside in H;
      cbn [Node.idle Node.kept Node.reading Pipeline.advance] in H.
    + rewrite Hp in H. injection H as <-. apply Hgoal; [reflexivity|].
      left. split; [now exists k | reflexivity].
    + injection H as <-. apply Hgoal; [reflexivity|]. now right.
  - (* [_read]: the listener calls back, and the callback is kept *)
    unfold Node.step in H. destruct (Pipeline.failure (Node.pipeline s));
      [injection H as <-; now apply Hgoal|].
    cbn [Node.side] in H. destruct Hcase as [[(k & Hp) Hside]|[Hp Hside]]; rewrite Hside in H;
      cbn [Node.idle Node.kept Node.reading Pipeline.pull] in H.
    + injection H as <-. apply Hgoal; [reflexivity|]. right.
      cbn [Node.update Node.pipeline Node.parser_side].
      unfold Node.pushes, Node.waiting, Node.upstream_ended.
      cbn [Pipeline.parser Pipeline.source]. unfold Parser.ready. rewrite Hp.
      destruct (Pipeline.source (Node.pipeline s)); [contradiction|].
      cbn. now rewrite Nat.eqb_refl.
    + injection H as <-. apply Hgoal; [reflexivity|]. now right.
  - destruct (parser_other_step _ _ _ Hna Hnp H) as (Hside & Hstate & Hs).
    apply Hgoal; [exact Hs|]. now rewrite Hside, Hstate.
Qed.

Lemma parser_stalled_run (ts : list Pipeline.Tick) :
  forall s s',
    Inv.stalled_parser s -> Node.run c s ts = Some s' ->
    Inv.stalled_parser s' /\
    Pipeline.source (Node.pipeline s') = Pipeline.source (Node.pipeline s).
Proof.
  induction ts as [|t ts IH]; intros s s' HI H; cbn [Node.run] in H.
  - injection H as <-. now split.
  - destruct (Node.step c s t) as [s1|] eqn:E; [|discriminate].
    destruct (parser_stalled_step _ _ _ HI E) as [HI1 Hs1].
    destruct (IH _ _ HI1 H) as [HI' Hs']. split; [exact HI' | now rewrite Hs', Hs1].
Qed.

Lemma node_run_app (ts1 ts2 : list Pipeline.Tick) (s : Node.State) :
  Node.run c s (ts1 ++ ts2) =
  match Node.run c s ts1 with
  | Some s' => Node.run c s' ts2
  | None => None
  end.
Proof.
  revert s. induction ts1 as [|t ts1 IH]; intros s; cbn [Node.run app]; [reflexivity|].
  destruct (Node.step c s t); [apply IH | reflexivity].
Qed.

(** Whether building the stages threw does not change afterwards. *)
Lemma node_run_thrown (ts : list Pipeline.Tick) (s s' : Node.State) :
  Node.run c s ts = Some s' ->
  Pipeline.thrown (Node.pipeline s') = Pipeline.thrown (Node.pipeline s).
Proof.
  intros H. destruct (node_run_pipeline _ _ _ H) as (ts' & Hrun). clear H.
  revert Hrun. generalize (Node.pipeline s) as p. induction ts' as [|t ts' IH]; intros p Hrun;
    cbn [Pipeline.run] in Hrun.
  - now injection Hrun as <-.
  - destruct (Pipeline.step c p t) as [p1|] eqn:E; [|discriminate].
    rewrite (IH _ Hrun). now apply pipeline_step_thrown in E.
Qed.

End NodeFacts.

(** * The claims about the pipeline and the entry point *)

(** C3 fails on the code. Let the text of the chunks end in the middle of
    a record. A parser that was written these chunks keeps a non-empty
    carry, and its end-of-input step throws 'Left over data', pushing
    nothing: so far the claim. But the step has to be reached. Take any
    run under node's handshake in which a push of the parser has been
    declined while the input stream has chunks left to write. The
    listener of the parser is the callback of [transform]: when [_read] is
    called it calls back without pushing, and node keeps the callback, with
    [_read] outstanding. Whatever the event loop does from the decline on,
    with or without that [_read], the parser is never called with another
    chunk: the rest of the input stays unread, the end-of-input step never
    runs, no stage fails, and the pipeline is pending for ever. *)
Theorem malformed_tail_is_silent_when_the_parser_stalls :
  forall (chunks : list string) (more more' : Oracle) (evs : list (Event string))
         (s : Parser.State) (c : Pipeline.Config) (ts ts' : list Pipeline.Tick)
         (st st' : Node.State),
    Spec.unterminated (JS.join "" chunks) = true ->
    writes evs = chunks ->
    run (Parser.step more) Parser.init evs = Some s ->
    (1 <= Pipeline.batchSize c)%Z ->
    Node.run c (Node.start c chunks) ts = Some st ->
    Parser.phase (Pipeline.parser (Node.pipeline st)) = AwaitingReadiness tt ->
    Pipeline.source (Node.pipeline st) <> [] ->
    Node.run c st ts' = Some st' ->
    (Parser.rest s <> "" /\
     Parser.flush more' s
       = Parser.mkState (Parser.rest s) (Failed "Left over data") (Parser.out s)) /\
    Pipeline.source (Node.pipeline st') = Pipeline.source (Node.pipeline st) /\
    Pipeline.failure (Node.pipeline st') = None /\
    Pipeline.outcome (Node.pipeline st') = Pipeline.Pending.
Proof.
  intros chunks more more' evs s c ts ts' st st' Htail Hw Hrun HB Hnode Hp Hsource Hnode'.
  split.
  { pose proof (unterminated_carry _ Htail) as Hcarry.
    pose proof (parser_reachable _ _ _ Hrun) as HI.
    pose proof (parser_inv_rest _ _ HI) as Hfree.
    apply parser_rest_carry in HI. rewrite Hw in HI. rewrite <- HI in Hcarry.
    split; [exact Hcarry|].
    destruct (parser_flush_cases more' s Hfree) as [[H _]|[_ H]]; [contradiction | exact H]. }
  assert (Hthrown : Pipeline.thrown (Node.pipeline st) = None).
  { rewrite (node_run_thrown c _ _ _ Hnode). cbn [Node.start Node.pipeline Pipeline.start
      Pipeline.thrown]. unfold Pipeline.construct.
    now replace (Pipeline.batchSize c <? 0)%Z with false by (symmetry; apply Z.ltb_ge; lia). }
  pose proof (handshake_reachable c _ _ _ Hnode Pipeline.ParserStage) as Hside.
  cbn [Node.waiting Node.side] in Hside. rewrite Hp in Hside. specialize (Hside eq_refl).
  assert (Hstalled : Inv.stalled_parser st).
  { split; [exact Hthrown|]. split; [exact Hsource|]. left. split; [now exists tt | exact Hside]. }
  destruct (parser_stalled_run c _ _ _ Hstalled Hnode') as ((Hthrown' & _ & Hcase) & Hs').
  assert (Hf' : Pipeline.failure (Node.pipeline st') = None).
  { unfold Pipeline.failure. rewrite Hthrown'.
    destruct Hcase as [[(k & ->) _]|[-> _]]; reflexivity. }
  split; [exact Hs'|]. split; [exact Hf'|].
  unfold Pipeline.outcome. rewrite Hf'. destruct Hcase as [[(k & ->) _]|[-> _]]; reflexivity.
Qed.

Lemma malformed_tail_is_silent_when_the_parser_stalls_witness :
  exists st',
    Node.run (Pipeline.mkConfig 2 4 (fun _ => false) (fun _ => true) (fun _ => true))
      (Node.start (Pipeline.mkConfig 2 4 (fun _ => false) (fun _ => true) (fun _ => true))
         [Spec.line "1" ++ Spec.line "2"; "3"]%string)
      ([Pipeline.Advance Pipeline.ParserStage] ++
       [Pipeline.Pull Pipeline.ParserStage; Pipeline.Advance Pipeline.ParserStage;
        Pipeline.Advance Pipeline.BufferStage; Pipeline.Advance Pipeline.BackfillStage;
        Pipeline.Pull Pipeline.ParserStage; Pipeline.Advance Pipeline.ParserStage])
    = Some st' /\
    Pipeline.source (Node.pipeline st') = ["3"] /\
    Pipeline.outcome (Node.pipeline st') = Pipeline.Pending.
Proof.
  rewrite node_run_app.
  match goal with
  | |- exists st', match ?r with _ => _ end = _ /\ _ =>
      destruct r as [st|] eqn:E; [|vm_compute in E; discriminate]
  end.
  pose proof E as E0. vm_compute in E0. injection E0 as Est.
  match goal with
  | |- exists st', ?r = _ /\ _ =>
      destruct r as [st'|] eqn:E'; [|rewrite <- Est in E'; vm_compute in E'; discriminate]
  end.
  exists st'. split; [reflexivity|].
  destruct (malformed_tail_is_silent_when_the_parser_stalls
              [Spec.line "1" ++ Spec.line "2"; "3"]%string (fun _ => false) (fun _ => false)
              [CallTransform (Spec.line "1" ++ Spec.line "2")%string; CallRead;
               CallTransform "3"] _
              (Pipeline.mkConfig 2 4 (fun _ => false) (fun _ => true) (fun _ => true))
              _ _ st st' eq_refl eq_refl eq_refl ltac:(vm_compute; discriminate) E
              ltac:(rewrite <- Est; reflexivity)
              ltac:(rewrite <- Est; discriminate) E')
    as (_ & Hsource & _ & Hpending).
  split; [|exact Hpending]. rewrite Hsource, <- Est. reflexivity.
Defined.

(** C1 fails on the code. Let the input be N terminated records and the
    batch size at least 1, and take any run under node's handshake that
    reaches a state in which the push of the last line of a batch has been
    declined, so that the ['ready'] listener of the back-fill stage holds
    no line, while the buffer stage has not ended and fewer than N lines
    are out. When [_read] is then called, the listener calls back without
    pushing; node keeps the callback, with [_read] outstanding. Whatever
    the event loop does afterwards, the back-fill stage is never called
    again: the output stays the lines of the first k records, with k less
    than N, and the pipeline is never resolved. *)
Theorem conservation_fails_after_a_declined_last_line :
  forall (c : Pipeline.Config) (records chunks : list string) (ts ts' : list Pipeline.Tick)
         (st st' : Node.State),
    (1 <= Pipeline.batchSize c)%Z ->
    Forall (fun record => Spec.separator_free record = true) records ->
    JS.join "" chunks = JS.join "" (map Spec.line records) ->
    Node.run c (Node.start c chunks) ts = Some st ->
    Backfill.phase (Pipeline.backfill (Node.pipeline st)) = AwaitingReadiness [] ->
    ended (Buffer.out (Pipeline.buffer (Node.pipeline st))) = false ->
    (List.length (Pipeline.output_lines (Node.pipeline st)) < List.length records)%nat ->
    Node.run c st (Pipeline.Pull Pipeline.BackfillStage :: ts') = Some st' ->
    Pipeline.output_lines (Node.pipeline st')
    = map Spec.line (firstn (List.length (Pipeline.output_lines (Node.pipeline st))) records) /\
    (List.length (Pipeline.output_lines (Node.pipeline st')) < List.length records)%nat /\
    Pipeline.outcome (Node.pipeline st') <> Pipeline.Resolved.
Proof.
  intros c records chunks ts ts' st st' HB Hfree Htext Hnode Hp Hup Hfew Hnode'.
  assert (Hprefix : Pipeline.output_lines (Node.pipeline st)
                    = map Spec.line
                        (firstn (List.length (Pipeline.output_lines (Node.pipeline st)))
                           records)).
  { destruct (node_start_pipeline c _ _ _ Hnode) as (ts0 & Hrun).
    destruct (pipeline_output_prefix c chunks ts0 _ HB Hrun) as (missing & Hmissing).
    rewrite Htext, (toLines_lines records Hfree) in Hmissing. cbn [fst] in Hmissing.
    exact (prefix_lines _ _ _ Hmissing). }
  assert (Hopen : Pipeline.outcome (Node.pipeline st) <> Pipeline.Resolved).
  { unfold Pipeline.outcome. destruct (Pipeline.failure _); [discriminate|].
    rewrite Hp.
    destruct (Parser.phase (Pipeline.parser (Node.pipeline st))),
      (Buffer.phase (Pipeline.buffer (Node.pipeline st))); discriminate. }
  destruct (Pipeline.failure (Node.pipeline st)) as [error|] eqn:Hf.
  { rewrite (node_failed_run c _ _ _ _ Hf Hnode'). auto. }
  pose proof (handshake_reachable c _ _ _ Hnode Pipeline.BackfillStage) as Hside.
  cbn [Node.waiting Node.side] in Hside. rewrite Hp in Hside. specialize (Hside eq_refl).
  cbn [Node.run] in Hnode'.
  destruct (Node.step c st (Pipeline.Pull Pipeline.BackfillStage)) as [st1|] eqn:E;
    [|discriminate].
  destruct (backfill_silent_callback c _ _ Hf Hside Hp Hup E) as (Hfrozen & Hp1 & Hout1).
  pose proof (backfill_frozen_run c _ _ _ Hfrozen Hnode') as Hsame.
  assert (Hout : Pipeline.output_lines (Node.pipeline st')
                 = Pipeline.output_lines (Node.pipeline st)).
  { rewrite <- Hout1. unfold Pipeline.output_lines. now rewrite Hsame. }
  split; [now rewrite Hout|]. split; [now rewrite Hout|].
  unfold Pipeline.outcome.
  destruct (Pipeline.failure (Node.pipeline st')); [discriminate|].
  rewrite Hsame, Hp1.
  destruct (Parser.phase (Pipeline.parser (Node.pipeline st'))),
    (Buffer.phase (Pipeline.buffer (Node.pipeline st'))); discriminate.
Qed.

Lemma conservation_fails_after_a_declined_last_line_witness :
  exists st',
    Node.run (Pipeline.mkConfig 3 4 (fun _ => true) (fun _ => true) (fun k => (k =? 0)%nat))
      (Node.start
         (Pipeline.mkConfig 3 4 (fun _ => true) (fun _ => true) (fun k => (k =? 0)%nat))
         [Spec.line "1" ++ Spec.line "2" ++ Spec.line "3" ++ Spec.line "4";
          Spec.line "5" ++ Spec.line "6" ++ Spec.line "7"]%string)
      ([Pipeline.Advance Pipeline.ParserStage; Pipeline.Advance Pipeline.BufferStage;
        Pipeline.Advance Pipeline.BackfillStage; Pipeline.Pull Pipeline.BackfillStage] ++
       Pipeline.Pull Pipeline.BackfillStage ::
       [Pipeline.Advance Pipeline.ParserStage; Pipeline.Advance Pipeline.BufferStage;
        Pipeline.Advance Pipeline.BackfillStage; Pipeline.Pull Pipeline.BackfillStage;
        Pipeline.Advance Pipeline.ParserStage; Pipeline.Advance Pipeline.BufferStage;
        Pipeline.Advance Pipeline.BackfillStage; Pipeline.Pull Pipeline.BackfillStage])
    = Some st' /\
    Pipeline.output_lines (Node.pipeline st') = [Spec.line "1"; Spec.line "2"; Spec.line "3"] /\
    Pipeline.outcome (Node.pipeline st') <> Pipeline.Resolved.
Proof.
  rewrite node_run_app.
  match goal with
  | |- exists st', match ?r with _ => _ end = _ /\ _ =>
      destruct r as [st|] eqn:E; [|vm_compute in E; discriminate]
  end.
  pose proof E as E0. vm_compute in E0. injection E0 as Est.
  match goal with
  | |- exists st', ?r = _ /\ _ =>
      destruct r as [st'|] eqn:E'; [|rewrite <- Est in E'; vm_compute in E'; discriminate]
  end.
  exists st'. split; [reflexivity|].
  destruct (conservation_fails_after_a_declined_last_line
              (Pipeline.mkConfig 3 4 (fun _ => true) (fun _ => true) (fun k => (k =? 0)%nat))
              ["1"; "2"; "3"; "4"; "5"; "6"; "7"]
              [Spec.line "1" ++ Spec.line "2" ++ Spec.line "3" ++ Spec.line "4";
               Spec.line "5" ++ Spec.line "6" ++ Spec.line "7"]%string _ _ st st'
              ltac:(vm_compute; discriminate) ltac:(repeat constructor)
              ltac:(vm_compute; reflexivity) E
              ltac:(rewrite <- Est; reflexivity)
              ltac:(rewrite <- Est; reflexivity)
              ltac:(rewrite <- Est; vm_compute; lia) E')
    as (Hout & _ & Hopen).
  split; [|exact Hopen]. rewrite Hout, <- Est. reflexivity.
Defined.


(** C2 as it is stated fails: the buffer stage with batch size 2 is
    written the group of the single record 1 and then reaches the end of
    its input, and every push is declined. [flush] pushes the batch [1],
    is answered [false], calls [push(null)] and calls back: the stage is
    closed with its readable side ended, although the only unit it ever
    pushed was declined and [_read] was never called. *)
Lemma closure_after_acknowledgement_counterexample :
  exists b,
    run (Buffer.step 2 2 (fun _ => false)) Buffer.init [CallTransform ["1"]; CallFlush]
    = Some b /\
    Buffer.phase b = Closed /\
    ended (Buffer.out b) = true /\
    pushed (Buffer.out b) = [["1"]] /\
    Backpressure.declined (fun _ => false) (List.length (pushed (Buffer.out b))) = 1%nat /\
    Backpressure.reads [CallTransform ["1"]; @CallFlush (list string)] = 0%nat.
Proof.
  eexists. split; [reflexivity|]. repeat split.
Qed.

(** C2, amended: a stage closes after the resumption of every earlier
    decline, not after the acknowledgement of what its end-of-input step
    pushes. In every state a stage reaches, the only call that closes it is
    [flush], made while the stage accepts, that is, with no listener of
    ['ready'] outstanding; and when a stage accepts, every push that was
    declined has had its call of [_read], since [transform] and the
    resumed loops wait for ['ready'] after a decline. [flush] itself does
    not wait: the parser and the back-fill stage push no data in it, so the
    same holds of them when they are closed, and the buffer stage pushes
    the records it holds as one batch and closes whatever [push] answers.
    A pipeline that is resolved has handed every record of the input to
    the output, in order. *)
Theorem closure_follows_resumption_not_acknowledgement :
  forall (batchSize : Z) (gas : nat) (more1 more2 more3 : Oracle)
         (evs1 : list (Event string)) (evs2 evs3 : list (Event (list string)))
         (p : Parser.State) (b : Buffer.State) (f : Backfill.State),
    (1 <= batchSize)%Z ->
    run (Parser.step more1) Parser.init evs1 = Some p ->
    run (Buffer.step gas batchSize more2) Buffer.init evs2 = Some b ->
    run (Backfill.step more3) Backfill.init evs3 = Some f ->
    ((forall ev p', Parser.step more1 p ev = Some p' -> Parser.phase p' = Closed ->
        Parser.phase p = Closed \/ (ev = CallFlush /\ Parser.phase p = Accepting)) /\
     (forall ev b', Buffer.step gas batchSize more2 b ev = Some b' -> Buffer.phase b' = Closed ->
        Buffer.phase b = Closed \/ (ev = CallFlush /\ Buffer.phase b = Accepting)) /\
     (forall ev f', Backfill.step more3 f ev = Some f' -> Backfill.phase f' = Closed ->
        Backfill.phase f = Closed \/ (ev = CallFlush /\ Backfill.phase f = Accepting))) /\
    (((forall k, Parser.phase p <> AwaitingReadiness k) ->
      (Backpressure.declined more1 (List.length (pushed (Parser.out p)))
       <= Backpressure.reads evs1)%nat) /\
     (Buffer.phase b = Accepting ->
      (Backpressure.declined more2 (List.length (pushed (Buffer.out b)))
       <= Backpressure.reads evs2)%nat) /\
     ((forall k, Backfill.phase f <> AwaitingReadiness k) ->
      (Backpressure.declined more3 (List.length (pushed (Backfill.out f)))
       <= Backpressure.reads evs3)%nat)) /\
    ((Parser.phase (Parser.flush more1 p) = Closed ->
      pushed (Parser.out (Parser.flush more1 p)) = pushed (Parser.out p)) /\
     pushed (Backfill.out (Backfill.flush f)) = pushed (Backfill.out f) /\
     Buffer.phase (Buffer.flush more2 b) = Closed /\
     ended (Buffer.out (Buffer.flush more2 b)) = true /\
     pushed (Buffer.out (Buffer.flush more2 b))
     = pushed (Buffer.out b) ++
       match Buffer.numbers b with [] => [] | _ :: _ => [Buffer.numbers b] end) /\
    (forall (c : Pipeline.Config) (chunks : list string) (ts : list Pipeline.Tick)
            (st : Pipeline.State),
       Pipeline.batchSize c = batchSize ->
       Pipeline.run c (Pipeline.start c chunks) ts = Some st ->
       Pipeline.outcome st = Pipeline.Resolved ->
       Pipeline.output_lines st = map Spec.line (fst (Parser.toLines (JS.join "" chunks))) /\
       snd (Parser.toLines (JS.join "" chunks)) = "").
Proof.
  intros batchSize gas more1 more2 more3 evs1 evs2 evs3 p b f HB Hp Hb Hf.
  pose proof (parser_reachable _ _ _ Hp) as HIp.
  pose proof (buffer_reachable _ HB _ _ _ _ Hb) as HIb.
  pose proof (backfill_reachable _ _ _ Hf) as HIf.
  split; [|split; [|split]].
  - split; [|split].
    + intros ev p' Hstep Hclosed. destruct ev as [chunk| |]; cbn [Parser.step] in Hstep.
      * destruct (Parser.phase p) eqn:Ep; try discriminate. injection Hstep as <-.
        rewrite parser_transform_phase in Hclosed. destruct (more1 _); discriminate.
      * injection Hstep as <-. unfold Parser.ready in Hclosed.
        destruct (Parser.phase p) eqn:Ep; try rewrite Ep in Hclosed; try discriminate.
        now left.
      * destruct (Parser.phase p) eqn:Ep; try discriminate. right. now split.
    + intros ev b' Hstep Hclosed.
      assert (Hloop : forall s0 numbers0, Buffer.pushAccountNumbersInBatches gas batchSize more2
                                            s0 numbers0 = Some b' -> False).
      { intros s0 numbers0 H. unfold Buffer.pushAccountNumbersInBatches in H.
        destruct (Buffer.slicing _ _ _ _ _ _) as [[[remaining answer] out']|]; [|discriminate].
        destruct answer; injection H as <-; discriminate. }
      destruct ev as [chunk| |]; cbn [Buffer.step] in Hstep.
      * destruct (Buffer.phase b) eqn:Ep; try discriminate. now apply Hloop in Hstep.
      * unfold Buffer.ready in Hstep. destruct (Buffer.phase b) eqn:Ep;
          try (injection Hstep as <-; rewrite Ep in Hclosed; discriminate);
          try (now left). now apply Hloop in Hstep.
      * destruct (Buffer.phase b) eqn:Ep; try discriminate. right. now split.
    + intros ev f' Hstep Hclosed.
      assert (Hloop : forall s0 statements,
                 Backfill.phase (Backfill.printSql more3 s0 statements) <> Closed).
      { intros s0 statements. unfold Backfill.printSql.
        destruct (Backfill.printing _ _ _ _ _ _ _) as [[[remaining|answer] out'] journal'];
          [discriminate | destruct answer; discriminate]. }
      destruct ev as [chunk| |]; cbn [Backfill.step] in Hstep.
      * destruct (Backfill.phase f) eqn:Ep; try discriminate. injection Hstep as <-.
        now apply Hloop in Hclosed.
      * injection Hstep as <-. unfold Backfill.ready in Hclosed.
        destruct (Backfill.phase f) eqn:Ep; try rewrite Ep in Hclosed; try discriminate;
          try (now left). now apply Hloop in Hclosed.
      * destruct (Backfill.phase f) eqn:Ep; try discriminate. right. now split.
  - pose proof (parser_respects _ _ _ Hp) as Hr1.
    pose proof (buffer_respects _ _ _ _ _ HB Hb) as Hr2.
    pose proof (backfill_respects _ _ _ Hf) as Hr3.
    unfold Backpressure.respected in Hr1, Hr2, Hr3. split; [|split].
    + intros E. destruct HIp as (_ & _ & _ & _ & Hu & _). rewrite Hu in Hr1.
      destruct (Parser.phase p); try lia. now destruct (E listener).
    + intros E. unfold Inv.buffer in HIb. rewrite E in HIb.
      destruct HIb as (_ & _ & _ & Hu & _). rewrite Hu in Hr2. lia.
    + intros E. destruct HIf as (_ & _ & _ & _ & Hu & _). rewrite Hu in Hr3.
      destruct (Backfill.phase f); try lia. now destruct (E listener).
  - split; [|split; [reflexivity|]].
    + destruct (parser_flush_cases more1 p (parser_inv_rest _ _ HIp)) as [[_ ->]|[_ ->]];
        [reflexivity | discriminate].
    + unfold Buffer.flush, push. destruct (Buffer.numbers b) as [|n ns].
      * cbn. now rewrite app_nil_r.
      * cbn. repeat split.
  - intros c chunks ts st <- Hrun Hres. now apply (pipeline_resolved_conserves c HB chunks ts st).
Qed.

Lemma closure_follows_resumption_not_acknowledgement_witness :
  Buffer.phase (Buffer.flush (fun _ => false) (Buffer.mkState ["1"] Accepting empty)) = Closed /\
  ended (Buffer.out (Buffer.flush (fun _ => false) (Buffer.mkState ["1"] Accepting empty)))
  = true /\
  pushed (Buffer.out (Buffer.flush (fun _ => false) (Buffer.mkState ["1"] Accepting empty)))
  = [["1"]].
Proof.
  exact (proj2 (proj2 (proj1 (proj2 (proj2
    (closure_follows_resumption_not_acknowledgement 2 2
       (fun _ => true) (fun _ => false) (fun _ => true)
       [CallTransform (Spec.line "1")] [CallTransform ["1"]] [CallTransform ["1"]]
       (Parser.mkState "" Accepting (mkReadable [["1"]] false false))
       (Buffer.mkState ["1"] Accepting empty)
       (Backfill.mkState Accepting (mkReadable [Spec.line "1"] false false)
          [Backfill.Logged "Back-filling 1 account numbers"; Backfill.Pushed (Spec.line "1")])
       ltac:(vm_compute; discriminate) eq_refl eq_refl eq_refl)))))).
Defined.


(** C8, the usage error. With fewer than three positional arguments the
    script writes the usage message to standard error and exits with
    code 1; it opens no file and constructs no stage. *)
Theorem usage_error :
  forall (batchSize : Z) (argv : list string),
    (List.length (Cli.positional argv) < 3)%nat ->
    Cli.script batchSize argv =
      [Cli.ConsoleError ("Usage: " ++ Cli.argument argv 1 ++ " <in> <sql> <log>");
       Cli.ProcessExit 1] /\
    forallb (fun e => negb (Cli.processing e)) (Cli.script batchSize argv) = true.
Proof.
  intros batchSize argv H. unfold Cli.positional in H.
  rewrite slice_suffix, length_skipn in H by lia.
  unfold Cli.script. replace (List.length argv <? 5)%nat with true.
  - split; reflexivity.
  - symmetry. apply Nat.ltb_lt. change (Z.to_nat 2) with 2%nat in H. lia.
Qed.

Lemma usage_error_witness :
  Cli.script 10 ["node"; "backfill-contract-events.js"; "in.txt"; "data.sql"] =
    [Cli.ConsoleError "Usage: backfill-contract-events.js <in> <sql> <log>";
     Cli.ProcessExit 1].
Proof.
  exact (proj1 (usage_error 10 ["node"; "backfill-contract-events.js"; "in.txt"; "data.sql"]
                  ltac:(vm_compute; lia))).
Defined.

(** * The worked example

    The records 1 to 5 in one chunk, batch size 2, every push declined and
    every ['ready'] delivered: the batches are [1,2], [3,4], [5], the
    output is the five lines, the log has the counts 2, 2, 1, and the
    pipeline is resolved. *)
Example worked_example :
  option_map
    (fun st => (pushed (Buffer.out (Pipeline.buffer st)), Pipeline.output_lines st,
                Pipeline.progress_log st, Pipeline.outcome st))
    (Pipeline.run (Pipeline.mkConfig 2 6 (fun _ => false) (fun _ => false) (fun _ => false))
       (Pipeline.start
          (Pipeline.mkConfig 2 6 (fun _ => false) (fun _ => false) (fun _ => false))
          [Spec.line "1" ++ Spec.line "2" ++ Spec.line "3" ++ Spec.line "4" ++ Spec.line "5"]%string)
       (Spec.parser_ticks 1 ++ Spec.stage_ticks Pipeline.BufferStage 6 1
          ++ Spec.stage_ticks Pipeline.BackfillStage 2 3))
  = Some ([["1"; "2"]; ["3"; "4"]; ["5"]],
          [Spec.line "1"; Spec.line "2"; Spec.line "3"; Spec.line "4"; Spec.line "5"],
          ["Back-filling 2 account numbers"; "Back-filling 2 account numbers";
           "Back-filling 1 account numbers"],
          Pipeline.Resolved).
Proof. vm_compute. reflexivity. Qed.

(** Under node's handshake a run in which every push is accepted goes
    through: the records 1 to 5 in two chunks that cut the third record,
    batch size 2, one [_read] on the back-fill stage on the way. *)
Example handshake_accepted_run :
  option_map
    (fun st => (Pipeline.output_lines (Node.pipeline st),
                Pipeline.progress_log (Node.pipeline st),
                Pipeline.outcome (Node.pipeline st)))
    (Node.run (Pipeline.mkConfig 2 6 (fun _ => true) (fun _ => true) (fun _ => true))
       (Node.start (Pipeline.mkConfig 2 6 (fun _ => true) (fun _ => true) (fun _ => true))
          [Spec.line "1" ++ Spec.line "2" ++ "3";
           Spec.line "" ++ Spec.line "4" ++ Spec.line "5"]%string)
       [Pipeline.Advance Pipeline.ParserStage; Pipeline.Advance Pipeline.BufferStage;
        Pipeline.Advance Pipeline.BackfillStage; Pipeline.Pull Pipeline.BackfillStage;
        Pipeline.Advance Pipeline.ParserStage; Pipeline.Advance Pipeline.BufferStage;
        Pipeline.Advance Pipeline.BackfillStage; Pipeline.Advance Pipeline.ParserStage;
        Pipeline.Advance Pipeline.BufferStage; Pipeline.Advance Pipeline.BackfillStage;
        Pipeline.Advance Pipeline.BackfillStage])
  = Some ([Spec.line "1"; Spec.line "2"; Spec.line "3"; Spec.line "4"; Spec.line "5"],
          ["Back-filling 2 account numbers"; "Back-filling 2 account numbers";
           "Back-filling 1 account numbers"],
          Pipeline.Resolved).
Proof. vm_compute. reflexivity. Qed.

(** The batch size read from the environment is never 0; it is negative
    when the variable holds a negative number. *)
Example batch_size_values :
  Pipeline.batch_size None = 10%Z /\ Pipeline.batch_size (Some 0%Z) = 10%Z /\
  Pipeline.batch_size (Some 100%Z) = 100%Z /\ Pipeline.batch_size (Some (-3)%Z) = (-3)%Z.
Proof. repeat split. Qed.

(** With the three positional arguments, and the default batch size, the
    script goes on to [main]. *)
Example script_runs_main :
  Cli.script (Pipeline.batch_size None)
    ["node"; "backfill-contract-events.js"; "in.txt"; "data.sql"; "run.log"] =
    [Cli.CreateReadStream "in.txt"; Cli.CreateWriteStream "data.sql";
     Cli.CreateWriteStream "run.log"; Cli.NewTransform Pipeline.ParserStage;
     Cli.NewTransform Pipeline.BufferStage; Cli.NewTransform Pipeline.BackfillStage;
     Cli.AwaitPipeline].
Proof. reflexivity. Qed.

(** * Further properties of the parser *)

Lemma toLines_rebuild (str : string) :
  (JS.join "" (map Spec.line (fst (Parser.toLines str))) ++ snd (Parser.toLines str))%string
  = str.
Proof.
  induction str as [|c str IH]; [reflexivity|].
  rewrite toLines_cons. destruct (Ascii.eqb c JS.LF) eqn:E.
  - apply Ascii.eqb_eq in E. subst c. cbn [fst snd map]. rewrite join_empty_cons.
    unfold Spec.line at 1. cbn [append]. now rewrite IH.
  - destruct (fst (Parser.toLines str)) as [|piece pieces]; cbn [fst snd map] in *.
    + cbn [JS.join String.concat append] in *. now rewrite IH.
    + rewrite join_empty_cons in *. unfold Spec.line at 1 in IH. unfold Spec.line at 1.
      cbn [append]. now rewrite IH.
Qed.

Lemma toLines_records_free (str : string) :
  Forall (fun record => Spec.separator_free record = true) (fst (Parser.toLines str)).
Proof.
  induction str as [|c str IH]; [constructor|].
  rewrite toLines_cons. destruct (Ascii.eqb c JS.LF) eqn:E; cbn [fst].
  - constructor; [reflexivity | exact IH].
  - destruct (fst (Parser.toLines str)) as [|piece pieces]; cbn [fst]; [constructor|].
    inversion IH as [|? ? Hp Hps]; subst. constructor; [|exact Hps].
    cbn [Spec.separator_free]. now rewrite E, Hp.
Qed.

(** A text that does not end in the middle of a record leaves no carry. *)
Lemma terminated_carry (str : string) :
  Spec.unterminated str = false -> snd (Parser.toLines str) = "".
Proof.
  induction str as [|c str IH]; [reflexivity|].
  intros H. rewrite toLines_cons. destruct str as [|d str].
  - unfold Spec.unterminated in H. cbn [Spec.last_char] in H.
    apply negb_false_iff in H. now rewrite H.
  - assert (Hs : Spec.unterminated (String d str) = false) by exact H.
    specialize (IH Hs). destruct (Ascii.eqb c JS.LF); [exact IH|].
    destruct (fst (Parser.toLines (String d str))) eqn:E; [|exact IH].
    exfalso. pose proof (toLines_rebuild (String d str)) as Hr.
    rewrite E, IH in Hr. discriminate.
Qed.

(** X1. [toLines] loses nothing and invents nothing: the lines it returns,
    each followed by a separator, and then the fragment it returns, spell
    the string it was given; no line and no fragment holds a separator. *)
Theorem toLines_round_trip :
  forall str : string,
    (JS.join "" (map Spec.line (fst (Parser.toLines str))) ++ snd (Parser.toLines str))%string
      = str /\
    Forall (fun record => Spec.separator_free record = true) (fst (Parser.toLines str)) /\
    Spec.separator_free (snd (Parser.toLines str)) = true.
Proof.
  intros str. split; [apply toLines_rebuild|]. split.
  - apply toLines_records_free.
  - apply carry_separator_free.
Qed.

(** X2. [toLines] undoes the writing of records: given records without
    separator, each followed by a separator, and then a fragment without
    separator, it returns these records and this fragment. *)
Theorem toLines_of_records :
  forall (records : list string) (fragment : string),
    Forall (fun record => Spec.separator_free record = true) records ->
    Spec.separator_free fragment = true ->
    Parser.toLines (JS.join "" (map Spec.line records) ++ fragment) = (records, fragment).
Proof.
  intros records fragment Hrecords Hfragment.
  induction Hrecords as [|record records Hr _ IH].
  - cbn [map JS.join String.concat append]. now apply toLines_separator_free.
  - cbn [map]. rewrite join_empty_cons. unfold Spec.line at 1.
    rewrite !append_assoc. cbn [append]. now rewrite (toLines_record _ _ Hr), IH.
Qed.

Lemma toLines_of_records_witness :
  Parser.toLines (JS.join "" (map Spec.line ["1"; ""; "23"]) ++ "4") = (["1"; ""; "23"], "4").
Proof.
  apply (toLines_of_records ["1"; ""; "23"] "4").
  - repeat constructor.
  - reflexivity.
Defined.

(** The parser pushes exactly one group for each chunk it is written. *)
Lemma parser_one_push_per_chunk (more : Oracle) (evs : list (Event string))
    (s : Parser.State) :
  run (Parser.step more) Parser.init evs = Some s ->
  List.length (pushed (Parser.out s)) = List.length (writes evs).
Proof.
  intros Hrun.
  apply (run_history (Parser.step more)
           (fun s w => Inv.parser s w /\ List.length (pushed (Parser.out s)) = List.length w))
    with (s := Parser.init) (w := []) (evs := evs); [|split; [apply parser_inv_init | reflexivity]
                                                     |exact Hrun].
  clear. intros s w ev s' [HI Hlen] Hstep. split; [now apply (parser_inv_step more s)|].
  pose proof (parser_inv_rest _ _ HI) as Hfree.
  destruct ev as [chunk| |]; cbn [Parser.step writes] in *; rewrite length_app.
  - destruct (Parser.phase s); try discriminate. injection Hstep as <-.
    unfold Parser.transform, push. destruct (Parser.toLines _).
    cbn [Parser.out pushed List.length]. rewrite length_app, Hlen. reflexivity.
  - injection Hstep as <-. cbn [List.length]. rewrite Nat.add_0_r, <- Hlen.
    unfold Parser.ready. now destruct (Parser.phase s).
  - destruct (Parser.phase s); try discriminate. injection Hstep as <-.
    cbn [List.length]. rewrite Nat.add_0_r, <- Hlen.
    now destruct (parser_flush_cases more s Hfree) as [[_ ->]|[_ ->]].
Qed.

(** X3. However the parser is run, what it has pushed and what it keeps
    spell the text it was written: the records pushed, each followed by a
    separator, and then [rest], are the chunks written so far, put
    together; no record holds a separator; and it has pushed exactly one
    group for each chunk, the end-of-input step adding none. *)
Theorem parser_keeps_the_text :
  forall (more : Oracle) (evs : list (Event string)) (s : Parser.State),
    run (Parser.step more) Parser.init evs = Some s ->
    (JS.join "" (map Spec.line (Parser.records s)) ++ Parser.rest s)%string
      = JS.join "" (writes evs) /\
    Forall (fun record => Spec.separator_free record = true) (Parser.records s) /\
    List.length (pushed (Parser.out s)) = List.length (writes evs).
Proof.
  intros more evs s Hrun. pose proof (parser_reachable _ _ _ Hrun) as (Hlines & _).
  pose proof (toLines_rebuild (JS.join "" (writes evs))) as Hr.
  pose proof (toLines_records_free (JS.join "" (writes evs))) as Hf.
  rewrite Hlines in Hr, Hf. cbn [fst snd] in Hr, Hf.
  split; [exact Hr|]. split; [exact Hf|]. now apply (parser_one_push_per_chunk more).
Qed.

Lemma parser_keeps_the_text_witness :
  List.length
    (pushed (Parser.out (Parser.transform (fun _ => false) Parser.init (Spec.line "1" ++ "2"))))
  = 1%nat.
Proof.
  exact (proj2 (proj2 (parser_keeps_the_text (fun _ => false)
                         [CallTransform (Spec.line "1" ++ "2")%string] _ eq_refl))).
Defined.

(** X4. The parser fails exactly on an input that ends in the middle of a
    record. However it is run: if it is closed, the text it was written is
    empty or ends with a separator; if it has failed, the error is
    'Left over data' and the text ends in the middle of a record; and while
    it accepts, its end-of-input step closes it if and only if the text
    written so far is empty or ends with a separator. *)
Theorem parser_fails_exactly_on_unterminated_input :
  forall (more more' : Oracle) (evs : list (Event string)) (s : Parser.State),
    run (Parser.step more) Parser.init evs = Some s ->
    (Parser.phase s = Closed -> Spec.unterminated (JS.join "" (writes evs)) = false) /\
    (forall error, Parser.phase s = Failed error ->
       error = "Left over data" /\ Spec.unterminated (JS.join "" (writes evs)) = true) /\
    (Parser.phase (Parser.flush more' s) = Closed <->
     Spec.unterminated (JS.join "" (writes evs)) = false).
Proof.
  intros more more' evs s Hrun. pose proof (parser_reachable _ _ _ Hrun) as HI.
  pose proof (parser_rest_carry _ _ HI) as Hrest.
  pose proof (parser_inv_rest _ _ HI) as Hfree.
  destruct HI as (_ & Hclosed & Hfailed & _).
  assert (Hiff : Parser.rest s = "" <-> Spec.unterminated (JS.join "" (writes evs)) = false).
  { rewrite Hrest. split.
    - intros H. destruct (Spec.unterminated _) eqn:E; [|reflexivity].
      now apply unterminated_carry in E.
    - apply terminated_carry. }
  split; [|split].
  - intros Hc. apply Hiff. now apply Hclosed.
  - intros error He. destruct (Hfailed error He) as [-> Hne]. split; [reflexivity|].
    destruct (Spec.unterminated _) eqn:E; [reflexivity|].
    exfalso. apply Hne. now apply Hiff.
  - rewrite <- Hiff.
    destruct (parser_flush_cases more' s Hfree) as [[Hr ->]|[Hr ->]]; cbn [Parser.phase].
    + tauto.
    + split; [discriminate | contradiction].
Qed.

Lemma parser_fails_exactly_on_unterminated_input_witness :
  Parser.phase
    (Parser.flush (fun _ => true)
       (Parser.transform (fun _ => true) Parser.init (Spec.line "1" ++ Spec.line "2")))
    = Closed.
Proof.
  apply (proj2 (proj2 (parser_fails_exactly_on_unterminated_input (fun _ => true) (fun _ => true)
                         [CallTransform (Spec.line "1" ++ Spec.line "2")%string] _ eq_refl))).
  reflexivity.
Defined.

(** * Further properties of the buffer stage *)

(** X6. With a batch size of at least 1 the buffer stage keeps the records
    it receives, however it is run: the batches pushed so far, followed by
    what the stage still has to push, are the records received, in order.
    While it accepts it holds fewer records than a batch, and it never
    pushes a batch of more than [batchSize] records. *)
Theorem buffer_keeps_the_records :
  forall (batchSize : Z) (gas : nat) (more : Oracle) (evs : list (Event (list string)))
         (s : Buffer.State),
    (1 <= batchSize)%Z ->
    run (Buffer.step gas batchSize more) Buffer.init evs = Some s ->
    List.concat (pushed (Buffer.out s)) ++
      match Buffer.phase s with
      | AwaitingReadiness remaining => remaining
      | Closed => []
      | _ => Buffer.numbers s
      end
    = List.concat (writes evs) /\
    (Buffer.phase s = Accepting -> (List.length (Buffer.numbers s) < Z.to_nat batchSize)%nat) /\
    Forall (fun batch => (List.length batch <= Z.to_nat batchSize)%nat) (pushed (Buffer.out s)).
Proof.
  intros batchSize gas more evs s HB Hrun.
  pose proof (buffer_reachable batchSize HB more gas evs s Hrun) as HI.
  unfold Inv.buffer in HI.
  assert (Hle : forall batches, Forall (Inv.full_batch batchSize) batches ->
            Forall (fun batch : list string =>
                      (List.length batch <= Z.to_nat batchSize)%nat) batches).
  { intros batches. apply Forall_impl. intros batch Hb. unfold Inv.full_batch in Hb. lia. }
  destruct (Buffer.phase s) eqn:Ep; try contradiction.
  - destruct HI as (Hcat & Hlt & Hfull & _). repeat split; auto.
  - destruct HI as (Hcat & Hfull & _). repeat split; auto. discriminate.
  - destruct HI as (full & residual & Hpushed & Hcat & Hfull & Hlt & _).
    rewrite Hpushed, app_nil_r. split; [|split; [discriminate|]].
    + rewrite concat_app, <- Hcat. f_equal. destruct residual; cbn; [reflexivity|].
      now rewrite app_nil_r.
    + apply Forall_app. split; [auto|].
      destruct residual; constructor; [lia | constructor].
Qed.

Lemma buffer_keeps_the_records_witness :
  exists s,
    run (Buffer.step 4 2 (fun _ => false)) Buffer.init [CallTransform ["1"; "2"; "3"]] = Some s /\
    Forall (fun batch => (List.length batch <= 2)%nat) (pushed (Buffer.out s)).
Proof.
  destruct (run (Buffer.step 4 2 (fun _ => false)) Buffer.init [CallTransform ["1"; "2"; "3"]])
    as [s|] eqn:E; [|vm_compute in E; discriminate].
  exists s. split; [reflexivity|].
  exact (proj2 (proj2 (buffer_keeps_the_records 2 4 (fun _ => false)
                         [CallTransform ["1"; "2"; "3"]] s ltac:(lia) E))).
Defined.

(** * Further properties of the back-fill stage *)

Lemma logged_app (j1 j2 : list Backfill.Effect) :
  Main.logged (j1 ++ j2) = Main.logged j1 ++ Main.logged j2.
Proof. unfold Main.logged. apply flat_map_app. Qed.

Lemma logged_pushed_lines (records : list string) :
  Main.logged (map Spec.pushed_line records) = [].
Proof. induction records as [|r records IH]; [reflexivity | exact IH]. Qed.

Lemma logged_batches (batches : list (list string)) :
  Main.logged (flat_map Spec.batch_journal batches)
  = map (fun batch => Backfill.progress_message (List.length batch)) batches.
Proof.
  induction batches as [|batch batches IH]; [reflexivity|].
  cbn [flat_map map]. rewrite logged_app, IH. unfold Spec.batch_journal.
  change (Main.logged (Backfill.Logged ?m :: ?l)) with (m :: Main.logged l).
  now rewrite logged_pushed_lines.
Qed.

(** The messages logged by a back-fill stage, however it is run. *)
Lemma backfill_logged (more : Oracle) (evs : list (Event (list string)))
    (s : Backfill.State) :
  run (Backfill.step more) Backfill.init evs = Some s ->
  Main.logged (Backfill.journal s)
  = map (fun batch => Backfill.progress_message (List.length batch)) (writes evs).
Proof.
  intros Hrun. pose proof (backfill_reachable _ _ _ Hrun) as (_ & _ & _ & Hj & _).
  apply (f_equal Main.logged) in Hj.
  now rewrite logged_app, logged_pushed_lines, app_nil_r, logged_batches in Hj.
Qed.

(** X7. Across batches the back-fill stage prints every record once and in
    order, however it is run: the lines pushed so far, followed by the
    lines of the records its listener holds, are the lines of all the
    records of the batches received, batch after batch. When it is not
    waiting for ['ready'] it has pushed them all, and its end-of-input step
    adds no line and ends the readable side. *)
Theorem backfill_prints_every_batch_in_order :
  forall (more : Oracle) (evs : list (Event (list string))) (s : Backfill.State),
    run (Backfill.step more) Backfill.init evs = Some s ->
    pushed (Backfill.out s) ++ map Spec.line (Inv.held s)
      = map Spec.line (List.concat (writes evs)) /\
    ((forall remaining, Backfill.phase s <> AwaitingReadiness remaining) ->
     pushed (Backfill.out s) = map Spec.line (List.concat (writes evs))) /\
    pushed (Backfill.out (Backfill.flush s)) = pushed (Backfill.out s) /\
    ended (Backfill.out (Backfill.flush s)) = true.
Proof.
  intros more evs s Hrun. pose proof (backfill_reachable _ _ _ Hrun) as (_ & _ & Hp & _).
  split; [exact Hp|]. split; [|split; reflexivity].
  intros Hnot. unfold Inv.held in Hp.
  destruct (Backfill.phase s) eqn:Ep; try (now rewrite app_nil_r in Hp).
  now destruct (Hnot listener).
Qed.

Lemma backfill_prints_every_batch_in_order_witness :
  exists s,
    run (Backfill.step (fun k => negb (k =? 2)%nat)) Backfill.init
      [CallTransform ["1"; "2"]; CallTransform ["3"; "4"]] = Some s /\
    pushed (Backfill.out s) ++ map Spec.line (Inv.held s)
      = [Spec.line "1"; Spec.line "2"; Spec.line "3"; Spec.line "4"].
Proof.
  destruct (run (Backfill.step (fun k => negb (k =? 2)%nat)) Backfill.init
              [CallTransform ["1"; "2"]; CallTransform ["3"; "4"]]) as [s|] eqn:E;
    [|vm_compute in E; discriminate].
  exists s. split; [reflexivity|].
  exact (proj1 (backfill_prints_every_batch_in_order _ _ s E)).
Defined.

(** X8. The back-fill stage gives the logger one message for each batch it
    receives, in the order of the batches, each with the number of records
    of its batch; a batch is counted as soon as it arrives, also while its
    lines wait for ['ready']. *)
Theorem backfill_logs_one_message_per_batch :
  forall (more : Oracle) (evs : list (Event (list string))) (s : Backfill.State),
    run (Backfill.step more) Backfill.init evs = Some s ->
    Main.logged (Backfill.journal s)
    = map (fun batch =>
             "Back-filling " ++ JS.template_number (List.length batch) ++ " account numbers")%string
        (writes evs).
Proof.
  intros more evs s Hrun. now apply (backfill_logged more).
Qed.

Lemma backfill_logs_one_message_per_batch_witness :
  exists s,
    run (Backfill.step (fun _ => false)) Backfill.init
      [CallTransform ["1"; "2"]; CallRead; CallRead; CallTransform ["3"]] = Some s /\
    Main.logged (Backfill.journal s)
    = ["Back-filling 2 account numbers"; "Back-filling 1 account numbers"].
Proof.
  destruct (run (Backfill.step (fun _ => false)) Backfill.init
              [CallTransform ["1"; "2"]; CallRead; CallRead; CallTransform ["3"]])
    as [s|] eqn:E; [|vm_compute in E; discriminate].
  exists s. split; [reflexivity|].
  exact (backfill_logs_one_message_per_batch _ _ s E).
Defined.

(** * Declined pushes and calls of [_read], for the three stages *)

(** X9. Every stage heeds a declined push on its transform path: after a
    push that was answered [false] a stage makes its next push only once
    [_read] has been called. However the three stages are run, the
    declined pushes of a stage are at most the calls of [_read] it has
    had, plus one when a decline is outstanding. *)
Theorem declined_pushes_wait_for_read :
  forall (batchSize : Z) (gas : nat) (more1 more2 more3 : Oracle)
         (evs1 : list (Event string)) (evs2 evs3 : list (Event (list string)))
         (p : Parser.State) (b : Buffer.State) (f : Backfill.State),
    (1 <= batchSize)%Z ->
    run (Parser.step more1) Parser.init evs1 = Some p ->
    run (Buffer.step gas batchSize more2) Buffer.init evs2 = Some b ->
    run (Backfill.step more3) Backfill.init evs3 = Some f ->
    (Backpressure.declined more1 (List.length (pushed (Parser.out p)))
     <= Backpressure.reads evs1 + (if unacknowledged (Parser.out p) then 1 else 0))%nat /\
    (Backpressure.declined more2 (List.length (pushed (Buffer.out b)))
     <= Backpressure.reads evs2 + (if unacknowledged (Buffer.out b) then 1 else 0))%nat /\
    (Backpressure.declined more3 (List.length (pushed (Backfill.out f)))
     <= Backpressure.reads evs3 + (if unacknowledged (Backfill.out f) then 1 else 0))%nat.
Proof.
  intros batchSize gas more1 more2 more3 evs1 evs2 evs3 p b f HB Hp Hb Hf.
  split; [|split].
  - now apply (parser_respects more1).
  - now apply (buffer_respects batchSize gas more2).
  - now apply (backfill_respects more3).
Qed.

Lemma declined_pushes_wait_for_read_witness :
  exists f,
    run (Backfill.step (fun _ => false)) Backfill.init
      [CallTransform ["1"; "2"; "3"]; CallRead] = Some f /\
    (Backpressure.declined (fun _ => false) (List.length (pushed (Backfill.out f)))
     <= 1 + (if unacknowledged (Backfill.out f) then 1 else 0))%nat.
Proof.
  destruct (run (Backfill.step (fun _ => false)) Backfill.init
              [CallTransform ["1"; "2"; "3"]; CallRead]) as [f|] eqn:E;
    [|vm_compute in E; discriminate].
  exists f. split; [reflexivity|].
  exact (proj2 (proj2 (declined_pushes_wait_for_read 1 1 (fun _ => true) (fun _ => true)
                         (fun _ => false) [] [] _ Parser.init Buffer.init f
                         ltac:(lia) eq_refl eq_refl E))).
Defined.

(** * Further properties of the pipeline *)

(** What a resolved pipeline has received and pushed, stage by stage. *)
Lemma pipeline_resolved_stages (c : Pipeline.Config) (chunks : list string)
    (ts : list Pipeline.Tick) (st : Pipeline.State) :
  (1 <= Pipeline.batchSize c)%Z ->
  Pipeline.run c (Pipeline.start c chunks) ts = Some st ->
  Pipeline.outcome st = Pipeline.Resolved ->
  exists evs2 evs3,
    run (Buffer.step (Pipeline.gas c) (Pipeline.batchSize c) (Pipeline.buffer_more c))
      Buffer.init evs2 = Some (Pipeline.buffer st) /\
    Buffer.phase (Pipeline.buffer st) = Closed /\
    List.concat (writes evs2) = fst (Parser.toLines (JS.join "" chunks)) /\
    run (Backfill.step (Pipeline.backfill_more c)) Backfill.init evs3
      = Some (Pipeline.backfill st) /\
    writes evs3 = pushed (Buffer.out (Pipeline.buffer st)).
Proof.
  intros HB Hrun Hres. apply (pipeline_reachable c HB) in Hrun as (P1 & P2 & P3).
  destruct P1 as (evs1 & Hrun1 & Hw1 & Hc1).
  destruct P2 as (evs2 & Hrun2 & Hw2 & _ & Hd2).
  destruct P3 as (evs3 & Hrun3 & Hw3 & _ & Hd3).
  unfold Pipeline.outcome in Hres. destruct (Pipeline.failure st); [discriminate|].
  destruct (Parser.phase (Pipeline.parser st)) eqn:Ep; try discriminate.
  destruct (Buffer.phase (Pipeline.buffer st)) eqn:Eb; try discriminate.
  destruct (Backfill.phase (Pipeline.backfill st)) eqn:Ef; try discriminate.
  rewrite (Hc1 eq_refl), app_nil_r in Hw1.
  pose proof (parser_reachable _ _ _ Hrun1) as (Hlines & _). rewrite Hw1 in Hlines.
  destruct (Hd2 eq_refl) as (_ & Hall2). destruct (Hd3 eq_refl) as (_ & Hall3).
  rewrite Hall2, firstn_all in Hw2. rewrite Hall3, firstn_all in Hw3.
  exists evs2, evs3. repeat split; trivial. rewrite Hw2, Hlines. reflexivity.
Qed.

(** X10. Safety of the pipeline: if the input is [N] records without
    separator, each followed by a separator, cut into chunks in any way,
    then whenever the pipeline resolves, under any answers of [push] and
    any turns of the event loop, the lines handed to the output are the
    [N] records, each followed by a separator, in the order of the
    input. *)
Theorem resolved_pipeline_conserves_records :
  forall (c : Pipeline.Config) (records chunks : list string) (ts : list Pipeline.Tick)
         (st : Pipeline.State),
    (1 <= Pipeline.batchSize c)%Z ->
    Forall (fun record => Spec.separator_free record = true) records ->
    JS.join "" chunks = JS.join "" (map Spec.line records) ->
    Pipeline.run c (Pipeline.start c chunks) ts = Some st ->
    Pipeline.outcome st = Pipeline.Resolved ->
    Pipeline.output_lines st = map Spec.line records /\
    List.length (Pipeline.output_lines st) = List.length records.
Proof.
  intros c records chunks ts st HB Hfree Htext Hrun Hres.
  destruct (pipeline_resolved_conserves c HB chunks ts st Hrun Hres) as (Hout & _).
  rewrite Htext, (toLines_lines records Hfree) in Hout. cbn [fst] in Hout.
  split; [exact Hout|]. now rewrite Hout, length_map.
Qed.

Lemma resolved_pipeline_conserves_records_witness :
  exists st,
    Pipeline.run (Pipeline.mkConfig 2 4 (fun _ => false) (fun _ => false) (fun _ => false))
      (Pipeline.start (Pipeline.mkConfig 2 4 (fun _ => false) (fun _ => false) (fun _ => false))
         [Spec.line "1" ++ "2"; Spec.line "" ++ Spec.line "3"]%string)
      (Spec.parser_ticks 2 ++ Spec.stage_ticks Pipeline.BufferStage 4 2
         ++ Spec.stage_ticks Pipeline.BackfillStage 2 2) = Some st /\
    Pipeline.output_lines st = [Spec.line "1"; Spec.line "2"; Spec.line "3"].
Proof.
  match goal with
  | |- exists st, ?r = Some st /\ _ => destruct r as [st|] eqn:E; [|vm_compute in E; discriminate]
  end.
  exists st. split; [reflexivity|].
  assert (Hres : Pipeline.outcome st = Pipeline.Resolved)
    by (vm_compute in E; injection E as <-; reflexivity).
  exact (proj1 (resolved_pipeline_conserves_records
                  (Pipeline.mkConfig 2 4 (fun _ => false) (fun _ => false) (fun _ => false))
                  ["1"; "2"; "3"]
                  [Spec.line "1" ++ "2"; Spec.line "" ++ Spec.line "3"]%string _ st
                  ltac:(vm_compute; discriminate) ltac:(repeat constructor)
                  ltac:(vm_compute; reflexivity) E Hres)).
Defined.



(** X12. The progress log of a resolved pipeline: with batch size [B] and
    [N] records in the input, the logger was given the counts [B], ...,
    [B], [N mod B], one message per batch and in this order, the last one
    only when [N mod B] is not 0. *)
Theorem resolved_pipeline_logs_batch_counts :
  forall (c : Pipeline.Config) (chunks : list string) (ts : list Pipeline.Tick)
         (st : Pipeline.State),
    (1 <= Pipeline.batchSize c)%Z ->
    Pipeline.run c (Pipeline.start c chunks) ts = Some st ->
    Pipeline.outcome st = Pipeline.Resolved ->
    let size := Z.to_nat (Pipeline.batchSize c) in
    let total := List.length (fst (Parser.toLines (JS.join "" chunks))) in
    Pipeline.progress_log st
    = map Backfill.progress_message
        (repeat size (total / size) ++
         (if (total mod size =? 0)%nat then [] else [(total mod size)%nat])).
Proof.
  intros c chunks ts st HB Hrun Hres size total.
  destruct (pipeline_resolved_stages c chunks ts st HB Hrun Hres)
    as (evs2 & evs3 & Hrun2 & Hb & Hrecords & Hrun3 & Hw3).
  change (Pipeline.progress_log st) with (Main.logged (Backfill.journal (Pipeline.backfill st))).
  rewrite (backfill_logged _ _ _ Hrun3), Hw3.
  pose proof (buffer_batches_shape _ _ _ _ _ HB Hrun2) as (_ & _ & Hshape).
  destruct (Hshape Hb) as (Hlengths & _). rewrite Hrecords in Hlengths.
  fold total size in Hlengths. rewrite <- Hlengths. now rewrite map_map.
Qed.

Lemma resolved_pipeline_logs_batch_counts_witness :
  exists st,
    Pipeline.run (Pipeline.mkConfig 2 4 (fun _ => false) (fun _ => false) (fun _ => false))
      (Pipeline.start (Pipeline.mkConfig 2 4 (fun _ => false) (fun _ => false) (fun _ => false))
         [Spec.line "1" ++ "2"; Spec.line "" ++ Spec.line "3"]%string)
      (Spec.parser_ticks 2 ++ Spec.stage_ticks Pipeline.BufferStage 4 2
         ++ Spec.stage_ticks Pipeline.BackfillStage 2 2) = Some st /\
    Pipeline.progress_log st
    = ["Back-filling 2 account numbers"; "Back-filling 1 account numbers"].
Proof.
  match goal with
  | |- exists st, ?r = Some st /\ _ => destruct r as [st|] eqn:E; [|vm_compute in E; discriminate]
  end.
  exists st. split; [reflexivity|].
  assert (Hres : Pipeline.outcome st = Pipeline.Resolved)
    by (vm_compute in E; injection E as <-; reflexivity).
  exact (resolved_pipeline_logs_batch_counts
           (Pipeline.mkConfig 2 4 (fun _ => false) (fun _ => false) (fun _ => false))
           _ _ st ltac:(vm_compute; discriminate) E Hres).
Defined.

(** X13. The output is at every moment a prefix of the input's lines: for
    every answer of [push] and every order of the turns, resolved, pending
    or rejected, the lines handed to the output are the first records of
    the text read so far, each followed by a separator, in order. Nothing
    is invented, repeated or reordered; what a stalled pipeline loses is a
    tail of the input. *)
Theorem output_is_a_prefix_of_the_input :
  forall (c : Pipeline.Config) (chunks : list string) (ts : list Pipeline.Tick)
         (st : Pipeline.State),
    (1 <= Pipeline.batchSize c)%Z ->
    Pipeline.run c (Pipeline.start c chunks) ts = Some st ->
    exists missing,
      Pipeline.output_lines st ++ map Spec.line missing
      = map Spec.line (fst (Parser.toLines (JS.join "" chunks))).
Proof.
  intros c chunks ts st HB Hrun. exact (pipeline_output_prefix c chunks ts st HB Hrun).
Qed.

Lemma output_is_a_prefix_of_the_input_witness :
  exists st missing,
    Pipeline.run (Pipeline.mkConfig 2 4 (fun _ => false) (fun _ => false) (fun _ => false))
      (Pipeline.start (Pipeline.mkConfig 2 4 (fun _ => false) (fun _ => false) (fun _ => false))
         [Spec.line "1" ++ "2"; Spec.line "" ++ Spec.line "3"]%string)
      (Spec.parser_ticks 1) = Some st /\
    Pipeline.output_lines st ++ map Spec.line missing
    = map Spec.line ["1"; "2"; "3"].
Proof.
  match goal with
  | |- exists st missing, ?r = Some st /\ _ =>
      destruct r as [st|] eqn:E; [|vm_compute in E; discriminate]
  end.
  exists st.
  destruct (output_is_a_prefix_of_the_input
              (Pipeline.mkConfig 2 4 (fun _ => false) (fun _ => false) (fun _ => false))
              _ _ st ltac:(vm_compute; discriminate) E) as (missing & H).
  exists missing. split; [reflexivity|exact H].
Defined.

(** * The log file and the command line *)

Lemma uint_separator_free (d : Decimal.uint) :
  Spec.separator_free (NilEmpty.string_of_uint d) = true.
Proof. induction d; cbn; auto. Qed.

Lemma template_number_separator_free (n : nat) :
  Spec.separator_free (JS.template_number n) = true.
Proof. apply uint_separator_free. Qed.

Lemma template_integer_separator_free (n : Z) :
  Spec.separator_free (Main.template_integer n) = true.
Proof.
  unfold Main.template_integer. destruct (Z.to_int n); cbn; apply uint_separator_free.
Qed.

Lemma progress_message_separator_free (count : nat) :
  Spec.separator_free (Backfill.progress_message count) = true.
Proof.
  unfold Backfill.progress_message.
  apply (separator_free_app "Back-filling "); [reflexivity|].
  apply separator_free_app; [apply template_number_separator_free | reflexivity].
Qed.

Lemma elapsed_message_separator_free (seconds : Z) :
  Spec.separator_free (Main.elapsed_message seconds) = true.
Proof.
  unfold Main.elapsed_message.
  apply (separator_free_app "Took ~"); [reflexivity|].
  apply separator_free_app; [apply template_integer_separator_free | reflexivity].
Qed.

Lemma pipeline_backfill_projection (c : Pipeline.Config) (chunks : list string)
    (ts : list Pipeline.Tick) (st : Pipeline.State) :
  Pipeline.run c (Pipeline.start c chunks) ts = Some st ->
  exists evs,
    run (Backfill.step (Pipeline.backfill_more c)) Backfill.init evs
    = Some (Pipeline.backfill st).
Proof.
  apply (pipeline_run_invariant c (fun st =>
    exists evs, run (Backfill.step (Pipeline.backfill_more c)) Backfill.init evs
                = Some (Pipeline.backfill st))).
  - intros s t s' (evs & Hrun) Hstep.
    apply pipeline_step_cases in Hstep as [->|[H|[H|H]]].
    + eauto.
    + destruct H as (_ & _ & _ & _ & _ & _ & _ & ->). eauto.
    + destruct H as (_ & _ & _ & _ & _ & -> & _). eauto.
    + destruct H as (ev & Hev & _). exists (evs ++ [ev]).
      rewrite run_app, Hrun. cbn [run]. now rewrite Hev.
  - exists []. reflexivity.
Qed.

(** X14. The log file: whatever the pipeline did, each call of the logger
    is exactly one line of the file, because neither a progress message
    nor the summary holds a separator; reading the file back line by line
    gives the messages, with nothing left over. The summary of the elapsed
    time is the last line, and it is there only when the pipeline
    resolved. *)
Theorem log_file_has_one_line_per_message :
  forall (c : Pipeline.Config) (chunks : list string) (ts : list Pipeline.Tick)
         (st : Pipeline.State) (seconds : Z),
    Pipeline.run c (Pipeline.start c chunks) ts = Some st ->
    Parser.toLines (Main.log_file st seconds) = (Main.logger_calls st seconds, "") /\
    Main.logger_calls st seconds
    = Pipeline.progress_log st ++
      match Pipeline.outcome st with
      | Pipeline.Resolved => [Main.elapsed_message seconds]
      | _ => []
      end.
Proof.
  intros c chunks ts st seconds Hrun. split.
  - apply pipeline_backfill_projection in Hrun as (evs & Hrun).
    apply (toLines_lines (Main.logger_calls st seconds)).
    unfold Main.logger_calls. apply Forall_app. split.
    + change (Pipeline.progress_log st)
        with (Main.logged (Backfill.journal (Pipeline.backfill st))).
      rewrite (backfill_logged _ _ _ Hrun). apply Forall_map, Forall_forall.
      intros batch _. apply progress_message_separator_free.
    + destruct (Pipeline.outcome st); cbn; repeat constructor.
      apply elapsed_message_separator_free.
  - unfold Main.logger_calls. destruct (Pipeline.outcome st); reflexivity.
Qed.

Lemma log_file_has_one_line_per_message_witness :
  exists st,
    Pipeline.run (Pipeline.mkConfig 2 4 (fun _ => true) (fun _ => true) (fun _ => true))
      (Pipeline.start (Pipeline.mkConfig 2 4 (fun _ => true) (fun _ => true) (fun _ => true))
         [Spec.line "1" ++ "2"; Spec.line "" ++ Spec.line "3"]%string)
      (Spec.parser_ticks 2 ++ Spec.stage_ticks Pipeline.BufferStage 4 2
         ++ Spec.stage_ticks Pipeline.BackfillStage 2 2) = Some st /\
    Parser.toLines (Main.log_file st 12)
    = (["Back-filling 2 account numbers"; "Back-filling 1 account numbers";
        "Took ~12 seconds"], "").
Proof.
  match goal with
  | |- exists st, ?r = Some st /\ _ => destruct r as [st|] eqn:E; [|vm_compute in E; discriminate]
  end.
  exists st. split; [reflexivity|].
  rewrite (proj1 (log_file_has_one_line_per_message _ _ _ st 12 E)).
  vm_compute in E. injection E as <-. reflexivity.
Defined.

Lemma script_main (batchSize : Z) (a0 a1 a2 a3 a4 : string) (others : list string) :
  Cli.script batchSize (a0 :: a1 :: a2 :: a3 :: a4 :: others)
  = [Cli.CreateReadStream a2; Cli.CreateWriteStream a3; Cli.CreateWriteStream a4] ++
    match Cli.backfillEvents batchSize with
    | inl effects => effects
    | inr error => [Cli.ConsoleErrorOf error]
    end.
Proof.
  unfold Cli.script. cbn [List.length Nat.ltb Nat.leb].
  rewrite slice_suffix by lia. reflexivity.
Qed.

Lemma positional_arguments (argv : list string) :
  (3 <= List.length (Cli.positional argv))%nat ->
  exists a0 a1 a2 a3 a4 others, argv = a0 :: a1 :: a2 :: a3 :: a4 :: others.
Proof.
  intros H. unfold Cli.positional in H.
  rewrite slice_suffix, length_skipn in H by lia. change (Z.to_nat 2) with 2%nat in H.
  destruct argv as [|a0 [|a1 [|a2 [|a3 [|a4 others]]]]]; cbn [List.length] in H; try lia.
  now exists a0, a1, a2, a3, a4, others.
Qed.

(** X15. The command line with its three arguments: when [process.argv]
    holds at least three positional arguments and the batch size is not
    negative, the script prints no usage message and does not exit; it
    opens [argv[2]] for reading, [argv[3]] and [argv[4]] for writing,
    constructs the three stages and awaits the pipeline. Arguments after
    the third change nothing. *)
Theorem script_with_three_arguments :
  forall (batchSize : Z) (argv : list string),
    (0 <= batchSize)%Z ->
    (3 <= List.length (Cli.positional argv))%nat ->
    Cli.script batchSize argv =
      [Cli.CreateReadStream (nth 2 argv ""); Cli.CreateWriteStream (nth 3 argv "");
       Cli.CreateWriteStream (nth 4 argv ""); Cli.NewTransform Pipeline.ParserStage;
       Cli.NewTransform Pipeline.BufferStage; Cli.NewTransform Pipeline.BackfillStage;
       Cli.AwaitPipeline] /\
    forallb Cli.processing (Cli.script batchSize argv) = true /\
    (forall further : list string,
       Cli.script batchSize (argv ++ further) = Cli.script batchSize argv).
Proof.
  intros batchSize argv HB H.
  destruct (positional_arguments argv H) as (a0 & a1 & a2 & a3 & a4 & others & ->).
  assert (Hbuilt : Cli.backfillEvents batchSize
                   = inl [Cli.NewTransform Pipeline.ParserStage;
                          Cli.NewTransform Pipeline.BufferStage;
                          Cli.NewTransform Pipeline.BackfillStage; Cli.AwaitPipeline]).
  { unfold Cli.backfillEvents, Pipeline.construct.
    now replace (batchSize <? 0)%Z with false by (symmetry; apply Z.ltb_ge; lia). }
  split; [|split].
  - rewrite script_main, Hbuilt. reflexivity.
  - rewrite script_main, Hbuilt. reflexivity.
  - intros further. cbn [app]. now rewrite !script_main.
Qed.

Lemma script_with_three_arguments_witness :
  Cli.script 100
    ["node"; "backfill-contract-events.js"; "in.txt"; "data.sql"; "run.log"; "more"]
  = [Cli.CreateReadStream "in.txt"; Cli.CreateWriteStream "data.sql";
     Cli.CreateWriteStream "run.log"; Cli.NewTransform Pipeline.ParserStage;
     Cli.NewTransform Pipeline.BufferStage; Cli.NewTransform Pipeline.BackfillStage;
     Cli.AwaitPipeline].
Proof.
  exact (proj1 (script_with_three_arguments 100
                  ["node"; "backfill-contract-events.js"; "in.txt"; "data.sql"; "run.log";
                   "more"]
                  ltac:(lia) ltac:(vm_compute; lia))).
Defined.

Lemma pipeline_failed_run (c : Pipeline.Config) (ts : list Pipeline.Tick)
    (st st' : Pipeline.State) (error : string) :
  Pipeline.failure st = Some error -> Pipeline.run c st ts = Some st' -> st' = st.
Proof.
  intros Hf. induction ts as [|t ts IH]; cbn [Pipeline.run]; [congruence|].
  unfold Pipeline.step. rewrite Hf. exact IH.
Qed.

(** X5. A negative BATCH_SIZE is kept as the batch size, and then building
    the parser stage throws. With its three arguments the script opens the
    three files, builds no stage and awaits no pipeline, and
    [console.error] is given the error. [backfillEvents] is rejected with
    that error whatever the event loop does: no stage is ever called,
    nothing is handed to the output and nothing to the logger. *)
Theorem negative_batch_size_throws_before_a_stage_is_built :
  forall (n : Z) (argv : list string) (c : Pipeline.Config) (chunks : list string)
         (ts : list Pipeline.Tick) (st : Pipeline.State) (seconds : Z),
    (n < 0)%Z ->
    (3 <= List.length (Cli.positional argv))%nat ->
    Pipeline.batchSize c = Pipeline.batch_size (Some n) ->
    Pipeline.run c (Pipeline.start c chunks) ts = Some st ->
    Pipeline.batch_size (Some n) = n /\
    Cli.script (Pipeline.batch_size (Some n)) argv =
      [Cli.CreateReadStream (nth 2 argv ""); Cli.CreateWriteStream (nth 3 argv "");
       Cli.CreateWriteStream (nth 4 argv ""); Cli.ConsoleErrorOf "ERR_INVALID_ARG_VALUE"] /\
    st = Pipeline.start c chunks /\
    Pipeline.outcome st = Pipeline.Rejected "ERR_INVALID_ARG_VALUE" /\
    Pipeline.output_lines st = [] /\
    Main.logger_calls st seconds = [] /\
    Main.settle (Pipeline.outcome st) seconds = [Main.ConsoleErrorOf "ERR_INVALID_ARG_VALUE"].
Proof.
  intros n argv c chunks ts st seconds Hn Hargs Hc Hrun.
  assert (HB : Pipeline.batch_size (Some n) = n).
  { unfold Pipeline.batch_size. destruct (n =? 0)%Z eqn:E; [apply Z.eqb_eq in E; lia | reflexivity]. }
  rewrite HB in *.
  assert (Hthrown : Pipeline.construct n = Some "ERR_INVALID_ARG_VALUE").
  { unfold Pipeline.construct.
    now replace (n <? 0)%Z with true by (symmetry; apply Z.ltb_lt; lia). }
  assert (Hstart : Pipeline.start c chunks
                   = Pipeline.mkState (Some "ERR_INVALID_ARG_VALUE") chunks Parser.init 0
                       Buffer.init 0 Backfill.init).
  { unfold Pipeline.start. now rewrite Hc, Hthrown. }
  assert (Hst : st = Pipeline.start c chunks).
  { apply (pipeline_failed_run c ts _ _ "ERR_INVALID_ARG_VALUE"); [|exact Hrun].
    now rewrite Hstart. }
  split; [reflexivity|]. split.
  - destruct (positional_arguments argv Hargs) as (a0 & a1 & a2 & a3 & a4 & others & ->).
    rewrite script_main. unfold Cli.backfillEvents. now rewrite Hthrown.
  - split; [exact Hst|]. rewrite Hst, Hstart. repeat split.
Qed.

Lemma negative_batch_size_throws_before_a_stage_is_built_witness :
  exists st,
    Pipeline.run (Pipeline.mkConfig (-5) 4 (fun _ => true) (fun _ => true) (fun _ => true))
      (Pipeline.start
         (Pipeline.mkConfig (-5) 4 (fun _ => true) (fun _ => true) (fun _ => true))
         [Spec.line "1"])
      [Pipeline.Advance Pipeline.ParserStage; Pipeline.Pull Pipeline.ParserStage;
       Pipeline.Advance Pipeline.BufferStage] = Some st /\
    Pipeline.outcome st = Pipeline.Rejected "ERR_INVALID_ARG_VALUE" /\
    Pipeline.output_lines st = [].
Proof.
  match goal with
  | |- exists st, ?r = Some st /\ _ => destruct r as [st|] eqn:E; [|vm_compute in E; discriminate]
  end.
  exists st. split; [reflexivity|].
  destruct (negative_batch_size_throws_before_a_stage_is_built (-5)
              ["node"; "backfill-contract-events.js"; "in.txt"; "data.sql"; "run.log"]
              (Pipeline.mkConfig (-5) 4 (fun _ => true) (fun _ => true) (fun _ => true))
              [Spec.line "1"] _ st 0 ltac:(lia) ltac:(vm_compute; lia) eq_refl E)
    as (_ & _ & _ & Hout & Hlines & _).
  now split.
Defined.
